(** * Portfolio optimizer: the model-construction pipeline of
    [src/optimizer.py] (class [PortfolioOptimizer]) as a shallow embedding.

    Tables (pandas DataFrames) are lists of rows, dictionaries are [gmap]s,
    the Gurobi model is an explicit state (variables, constraints, objective)
    threaded through the builder, and every operation that can raise in the
    source returns a [result].  Identifiers, priorities and quantities are
    whole numbers held in [int64] columns, whose sums wrap around; the
    served columns of result extraction are [float64] as soon as the merge
    leaves a row unmatched.  Tables with empty cells are treated apart (module
    [raw]); columns with fractional values are not modelled. *)

From Stdlib Require Import ZArith QArith Qabs Lia Lqa.
From stdpp Require Import gmap list fin_maps sorting.

Local Open Scope Z_scope.
Set Warnings "-clear-no-such-hyp".

(** ** Input relations *)

(** One row of [Obras.xlsx] after the renaming of [carregar_obras]. *)
Record ObraRow := mkObra {
  obra : Z;
  cod_dep : Z;
  prioridade : Z;
  cod_mat : Z;
  qtd_dem : Z
}.

(** One row of [Estoque.xlsx] after the renaming of [carregar_estoque]. *)
Record EstoqueRow := mkEstoque {
  est_cod_dep : Z;
  est_cod_mat : Z;
  est_estoque : Z
}.

#[global] Instance ObraRow_eq_dec : EqDecision ObraRow.
Proof. solve_decision. Defined.
#[global] Instance EstoqueRow_eq_dec : EqDecision EstoqueRow.
Proof. solve_decision. Defined.

(** ** Exceptions *)

Inductive exn := KeyError | MergeError | AttributeError | ValueError.

Inductive result (A : Type) :=
  | Ok (a : A)
  | Raise (e : exn).
Arguments Ok {A} a.
Arguments Raise {A} e.

#[global] Instance result_ret : MRet result := @Ok.
#[global] Instance result_bind : MBind result := λ A B f m,
  match m with Ok a => f a | Raise e => Raise e end.
#[global] Instance result_fmap : FMap result := λ A B f m,
  match m with Ok a => Ok (f a) | Raise e => Raise e end.

(** ** The pandas operations the optimizer uses *)

Section drop_duplicates.
Context {R K : Type} `{EqDecision K}.

(** [df.drop_duplicates(subset=key)]: the first row of every key, in
    order of appearance. *)
Fixpoint drop_duplicates (key : R → K) (rows : list R) : list R :=
  match rows with
  | [] => []
  | r :: rest => r :: filter (λ r', key r' ≠ key r) (drop_duplicates key rest)
  end.
End drop_duplicates.

(** [series.unique()]: distinct values in order of first appearance. *)
Definition unique {A} `{EqDecision A} (l : list A) : list A :=
  drop_duplicates id l.

Section dicts.
Context {R K V : Type} `{Countable K}.

(** [df.groupby(key).agg(...).to_dict()[col]]: one entry per distinct key,
    holding the aggregate of the rows of that key. *)
Definition groupby_agg (key : R → K) (agg : list R → V) (rows : list R)
  : gmap K V :=
  list_to_map
    ((λ k, (k, agg (filter (λ r, key r = k) rows)))
       <$> unique (key <$> rows)).

(** [df.set_index(key).to_dict()[col]]: a later row overwrites an earlier
    one of the same key. *)
Definition to_dict (key : R → K) (val : R → V) (rows : list R) : gmap K V :=
  foldl (λ d r, <[key r := val r]> d) ∅ rows.

(** [d[k]] on a Python dict. *)
Definition getitem (d : gmap K V) (k : K) : result V :=
  match d !! k with
  | Some v => Ok v
  | None => Raise KeyError
  end.

(** [d.get(k, default)]. *)
Definition get (d : gmap K V) (k : K) (default : V) : V :=
  match d !! k with
  | Some v => v
  | None => default
  end.
End dicts.

(** ** Column arithmetic *)

(** The exact sum of a list of whole numbers. *)
Definition total (l : list Z) : Z := foldr Z.add 0 l.

(** An [int64] result after overflow: the representative of the number in
    [-2^63, 2^63). *)
Definition wrap64 (z : Z) : Z := (z + 2 ^ 63) `mod` 2 ^ 64 - 2 ^ 63.

(** The numbers an [int64] holds. *)
Definition in_int64 (z : Z) : Prop := - 2 ^ 63 ≤ z < 2 ^ 63.

(** The sum of an [int64] column, accumulated row by row: it wraps
    around. *)
Definition sum_int64 (l : list Z) : Z := foldl (λ s a, wrap64 (s + a)) 0 l.

(** The [float64] nearest to a whole number, ties to the even significand.
    Below 2^53 in absolute value every whole number is a [float64]; above,
    only the multiples of the power of two that leaves 53 significant bits.
    The result is a whole number again. *)
Definition round53 (z : Z) : Z :=
  let a := Z.abs z in
  if a <? 2 ^ 53 then z
  else
    let e := Z.log2 a - 52 in
    let q := a `div` 2 ^ e in
    let r := a `mod` 2 ^ e in
    let half := 2 ^ (e - 1) in
    let q' := if r <? half then q
              else if half <? r then q + 1
              else if Z.even q then q else q + 1 in
    Z.sgn z * (q' * 2 ^ e).

(** [float64] addition, subtraction and multiplication of whole-valued
    floats: the exact result, rounded. *)
Definition fadd (a b : Z) : Z := round53 (a + b).
Definition fsub (a b : Z) : Z := round53 (a - b).
Definition fmul (a b : Z) : Z := round53 (a * b).

(** One step of the compensated (Kahan) summation of pandas' grouped sum:
    [y = val - c; t = s + y; c = t - s - y; s = t]. *)
Definition kahan_step (sc : Z * Z) (val : Z) : Z * Z :=
  let y := fsub val sc.2 in
  let t := fadd sc.1 y in
  (t, fsub (fsub t sc.1) y).

(** The sum of a whole-valued [float64] column within a group. *)
Definition sum_float64 (l : list Z) : Z := (foldl kahan_step (0, 0) l).1.

(** ** [define_sets] *)

Module sets.
Record sets := mk {
  I : list Z;
  J : list Z;
  M : list Z;
  J_i : gmap Z (list Z);
  I_j : gmap Z (list Z);
  M_i : gmap Z (list Z)
}.
End sets.

Definition define_sets (estoque : list EstoqueRow) (obras : list ObraRow)
  : sets.sets :=
  {| sets.I := unique (obra <$> obras);
     sets.J := unique (est_cod_dep <$> estoque);
     sets.M := unique (est_cod_mat <$> estoque);
     sets.J_i :=
       groupby_agg obra (λ g, unique (cod_dep <$> g))
         (drop_duplicates (λ r, (obra r, cod_dep r)) obras);
     sets.I_j :=
       groupby_agg cod_dep (λ g, unique (obra <$> g))
         (drop_duplicates (λ r, (obra r, cod_dep r)) obras);
     sets.M_i :=
       groupby_agg obra (λ g, unique (cod_mat <$> g))
         (drop_duplicates (λ r, (obra r, cod_mat r)) obras) |}.

(** ** [define_parameters] *)

Module params.
Record params := mk {
  w : gmap Z Z;
  q : gmap (Z * Z) Z;
  Q : gmap (Z * Z) Z;
  N : nat;
  D : nat
}.
End params.

(** The transport-cost table [c] is passed through unread by the model
    builder and is left out. *)
Definition define_parameters (estoque : list EstoqueRow) (obras : list ObraRow)
  : params.params :=
  {| params.w :=
       to_dict obra prioridade
         (drop_duplicates (λ r, (obra r, prioridade r)) obras);
     params.q :=
       groupby_agg (λ r, (obra r, cod_mat r))
         (λ g, sum_int64 (qtd_dem <$> g)) obras;
     params.Q :=
       to_dict (λ r, (est_cod_dep r, est_cod_mat r)) est_estoque estoque;
     params.N := length (unique (obra <$> obras));
     params.D := length (unique (cod_dep <$> obras)) |}.

(** ** The solver's model: variables, linear expressions, constraints *)

(** A variable handle: [x[i,j]] or [t[k,j,m]]. *)
Inductive Var :=
  | x_var (i j : Z)
  | t_var (k j m : Z).

#[global] Instance Var_eq_dec : EqDecision Var.
Proof. solve_decision. Defined.

(** [gurobipy.LinExpr]: coefficient-variable terms and a constant. *)
Record LinExpr := mkLinExpr {
  terms : list (Z * Var);
  constant : Z
}.

(** [var * number]. *)
Definition var_times (v : Var) (c : Z) : LinExpr := mkLinExpr [(c, v)] 0.
(** A variable used as an expression. *)
Definition of_var (v : Var) : LinExpr := mkLinExpr [(1, v)] 0.
(** A number used as an expression. *)
Definition of_num (c : Z) : LinExpr := mkLinExpr [] c.
(** [e1 + e2]. *)
Definition expr_add (e1 e2 : LinExpr) : LinExpr :=
  mkLinExpr (terms e1 ++ terms e2) (constant e1 + constant e2).
(** [quicksum(...)]. *)
Definition quicksum (es : list LinExpr) : LinExpr :=
  foldr expr_add (of_num 0) es.

Inductive Sense := LessEqual | GreaterEqual | Equal.
Inductive ObjSense := MAXIMIZE | MINIMIZE.

(** The [name=] argument of the two [addConstr] calls. *)
Inductive ConstrName :=
  | C1_OneExecution (i : Z)
  | C2_StockBalance (m j : Z).

#[global] Instance ConstrName_eq_dec : EqDecision ConstrName.
Proof. solve_decision. Defined.

Record Constr := mkConstr {
  constr_name : ConstrName;
  constr_lhs : LinExpr;
  constr_sense : Sense;
  constr_rhs : LinExpr
}.

Inductive VType := BINARY | CONTINUOUS.

(** A variable as declared to the solver: its handle, type and lower
    bound. *)
Record VarDecl := mkVarDecl {
  decl_var : Var;
  decl_vtype : VType;
  decl_lb : Z
}.

(** The state of [self.model]. *)
Record Model := mkModel {
  model_vars : list VarDecl;
  model_constrs : list Constr;
  model_objective : option (LinExpr * ObjSense)
}.

(** [Model('PortfolioOptimization')]. *)
Definition new_model : Model := mkModel [] [] None.

(** ** Stateful, fallible steps *)

(** A step reads and updates a state and returns or raises; the state
    reached when it raises is kept. *)
Definition ST (S A : Type) : Type := S → S * result A.

#[global] Instance ST_ret {S} : MRet (ST S) := λ A a s, (s, Ok a).
#[global] Instance ST_bind {S} : MBind (ST S) := λ A B f m s,
  match m s with
  | (s', Ok a) => f a s'
  | (s', Raise e) => (s', Raise e)
  end.

(** A pure computation run inside a step. *)
Definition lift {S A} (r : result A) : ST S A := λ s, (s, r).

(** [for a in l: body(a)]. *)
Fixpoint for_each {S A} (l : list A) (body : A → ST S ()) : ST S () :=
  match l with
  | [] => mret ()
  | a :: rest => body a ≫= λ _, for_each rest body
  end.

(** [model.addVars(keys, vtype=..., lb=...)]: the [tupledict] is kept as
    its key list, the handle of key [k] being [mk k]. *)
Definition addVars {K} (mk : K → Var) (keys : list K) (vtype : VType)
    (lb : Z) : ST Model (list K) :=
  λ mdl, (mkModel (model_vars mdl ++ ((λ k, mkVarDecl (mk k) vtype lb) <$> keys))
            (model_constrs mdl) (model_objective mdl), Ok keys).

(** [tupledict[k]]. *)
Definition tupledict_getitem {K} `{EqDecision K}
    (mk : K → Var) (keys : list K) (k : K) : result Var :=
  if decide (k ∈ keys) then Ok (mk k) else Raise KeyError.

(** [model.addConstr(lhs <= rhs, name=...)]. *)
Definition addConstr (c : Constr) : ST Model () :=
  λ mdl, (mkModel (model_vars mdl) (model_constrs mdl ++ [c])
            (model_objective mdl), Ok ()).

(** [model.setObjective(e, sense)]: replaces the objective. *)
Definition setObjective (e : LinExpr) (s : ObjSense) : ST Model () :=
  λ mdl, (mkModel (model_vars mdl) (model_constrs mdl) (Some (e, s)), Ok ()).

(** ** [create_decision_variables] *)

Module vars.
Record vars := mk {
  x : list (Z * Z);
  t : list (Z * Z * Z)
}.
End vars.

Definition x_of (k : Z * Z) : Var := x_var k.1 k.2.
Definition t_of (k : Z * Z * Z) : Var := t_var k.1.1 k.1.2 k.2.

(** [[(i, j) for i in I for j in J_i[i]]]. *)
Definition x_keys (s : sets.sets) : result (list (Z * Z)) :=
  ks ← mapM (λ i, Ji ← getitem (sets.J_i s) i; mret ((λ j, (i, j)) <$> Ji))
            (sets.I s);
  mret (mjoin ks).

(** [[(k, j, m) for k in J for j in J for m in M if j != k]]. *)
Definition t_keys (s : sets.sets) : list (Z * Z * Z) :=
  k ← sets.J s; j ← sets.J s; m ← sets.M s;
  if decide (j ≠ k) then [(k, j, m)] else [].

Definition create_decision_variables (s : sets.sets) : ST Model vars.vars :=
  xk ← lift (x_keys s);
  x ← addVars x_of xk BINARY 0;
  t ← addVars t_of (t_keys s) CONTINUOUS 0;
  mret (vars.mk x t).

(** ** [create_constraints] *)

(** [quicksum(x[i,j] for j in J_i[i])]. *)
Definition one_execution_lhs (s : sets.sets) (v : vars.vars) (i : Z)
  : result LinExpr :=
  Ji ← getitem (sets.J_i s) i;
  es ← mapM (λ j, of_var <$> tupledict_getitem x_of (vars.x v) (i, j)) Ji;
  mret (quicksum es).

(** [quicksum(x[i,j] * q[i,m] for i in I_j[j] if m in M_i[i])]. *)
Definition consumption (s : sets.sets) (p : params.params) (v : vars.vars)
    (m j : Z) : result LinExpr :=
  Ij ← getitem (sets.I_j s) j;
  es ← mapM (λ i,
         Mi ← getitem (sets.M_i s) i;
         if decide (m ∈ Mi) then
           xij ← tupledict_getitem x_of (vars.x v) (i, j);
           qim ← getitem (params.q p) (i, m);
           mret [var_times xij qim]
         else mret []) Ij;
  mret (quicksum (mjoin es)).

(** [quicksum(t[j,k,m] for k in J if k != j)]. *)
Definition outflow (s : sets.sets) (v : vars.vars) (m j : Z)
  : result LinExpr :=
  es ← mapM (λ k, of_var <$> tupledict_getitem t_of (vars.t v) (j, k, m))
            (filter (λ k, k ≠ j) (sets.J s));
  mret (quicksum es).

(** [quicksum(t[k,j,m] for k in J if k != j)]. *)
Definition inflow (s : sets.sets) (v : vars.vars) (m j : Z)
  : result LinExpr :=
  es ← mapM (λ k, of_var <$> tupledict_getitem t_of (vars.t v) (k, j, m))
            (filter (λ k, k ≠ j) (sets.J s));
  mret (quicksum es).

(** The body of the loop over [m] and [j]. *)
Definition stock_balance (s : sets.sets) (p : params.params) (v : vars.vars)
    (m j : Z) : ST Model () :=
  cons ← lift (consumption s p v m j);
  out ← lift (outflow s v m j);
  let LHS := expr_add cons out in
  let initial_stock := get (params.Q p) (j, m) 0 in
  inf ← lift (inflow s v m j);
  let RHS := expr_add (of_num initial_stock) inf in
  addConstr (mkConstr (C2_StockBalance m j) LHS LessEqual RHS).

Definition create_constraints (s : sets.sets) (p : params.params)
    (v : vars.vars) : ST Model () :=
  for_each (sets.I s) (λ i,
    lhs ← lift (one_execution_lhs s v i);
    addConstr (mkConstr (C1_OneExecution i) lhs LessEqual (of_num 1)));;
  for_each (sets.M s) (λ m,
    for_each (sets.J s) (λ j, stock_balance s p v m j)).

(** ** [set_obj_priority] *)

(** [quicksum(x[i,j] * w[i] for i in I for j in J_i[i])]. *)
Definition priority_expr (s : sets.sets) (p : params.params) (v : vars.vars)
  : result LinExpr :=
  es ← mapM (λ i,
         Ji ← getitem (sets.J_i s) i;
         mapM (λ j,
           xij ← tupledict_getitem x_of (vars.x v) (i, j);
           wi ← getitem (params.w p) i;
           mret (var_times xij wi)) Ji) (sets.I s);
  mret (quicksum (mjoin es)).

Definition set_obj_priority (s : sets.sets) (p : params.params)
    (v : vars.vars) : ST Model () :=
  e ← lift (priority_expr s p v);
  setObjective e MAXIMIZE.

(** The model-building part of [run]: everything before [optimize]. *)
Definition build_model (estoque : list EstoqueRow) (obras : list ObraRow)
  : ST Model vars.vars :=
  let s := define_sets estoque obras in
  let p := define_parameters estoque obras in
  v ← create_decision_variables s;
  create_constraints s p v;;
  set_obj_priority s p v;;
  mret v.

(** ** The solver *)

Inductive Status := INFEASIBLE | INF_OR_UNBD | UNBOUNDED.

(** What [model.optimize()] leaves behind: values for the variables, or a
    terminal status without any. *)
Inductive Outcome :=
  | Solved (X : Var → Q)
  | NoSolution (st : Status).

(** [var.X]: raises when the solver holds no solution. *)
Definition attr_X (o : Outcome) (v : Var) : result Q :=
  match o with
  | Solved X => Ok (X v)
  | NoSolution _ => Raise AttributeError
  end.

(** ** [generate_results] *)

Definition rtol : Q := 1 # 100000.
Definition atol : Q := 1 # 100000000.

(** [np.isclose(a, b)] with its default tolerances, on exact rationals. *)
Definition isclose (a b : Q) : bool :=
  Qle_bool (Qabs (a - b)) (atol + rtol * Qabs b).

(** A row of [df_output_X]. *)
Record OutputX := mkOutputX {
  ox_obra : Z;
  ox_cod_dep : Z;
  ox_obra_atendida : Z
}.

(** A row of [df_real_output]. *)
Record RealOutput := mkRealOutput {
  ro_obra : Z;
  ro_cod_dep : Z;
  ro_prioridade : Z;
  ro_obra_atendida : Z;
  ro_prioridade_atendida : Z
}.

(** A row of [df_grouped]. *)
Record Grouped := mkGrouped {
  g_cod_dep : Z;
  NUM_OBRAS_ASSOCIADAS : nat;
  OBRAS_EXECUTADAS : Z;
  SOMA_PRIORIDADES_EXECUTADAS : Z;
  SOMA_PRIORIDADES_ASSOCIADAS : Z
}.

(** The files [generate_results] writes. *)
Inductive artifact :=
  | output_var_X_csv (rows : list OutputX)
  | output_agrupado_csv (rows : list Grouped).

(** [df.to_csv(...)]. *)
Definition to_csv (a : artifact) : ST (list artifact) () :=
  λ fs, (fs ++ [a], Ok ()).

(** [[key for key, elem in x.items() if np.isclose(elem.X, 1)]]. *)
Definition vars_x_on (v : vars.vars) (o : Outcome) : result (list (Z * Z)) :=
  ks ← mapM (λ k, xv ← attr_X o (x_of k);
                  mret (if isclose xv 1 then [k] else [])) (vars.x v);
  mret (mjoin ks).

(** [left.merge(right, on=['cod_dep', 'obra'], how='left', validate='1:1')]:
    the keys must be unique on both sides; every left row is kept, in
    order, with the flag of its match or no value.  The key columns of the
    two frames must agree in type, which pandas checks unless exactly one
    frame is empty: those of an empty task table and of an assignment table
    built from empty lists do not, and the merge raises [ValueError]. *)
Definition merge_left_1_1 (left : list (Z * Z * Z)) (right : list OutputX)
  : result (list (Z * Z * Z * option Z)) :=
  if decide (left = [] ∧ right = []) then Raise ValueError
  else if decide (NoDup ((λ l, (l.1.2, l.1.1)) <$> left)
                  ∧ NoDup ((λ r, (ox_cod_dep r, ox_obra r)) <$> right))
  then
    Ok (l ← left;
        match filter (λ r, (ox_cod_dep r, ox_obra r) = (l.1.2, l.1.1)) right with
        | [] => [(l, None)]
        | ms => (λ r, (l, Some (ox_obra_atendida r))) <$> ms
        end)
  else Raise MergeError.

(** [df_output_X]. *)
Definition output_X (on : list (Z * Z)) : list OutputX :=
  (λ k, mkOutputX k.1 k.2 1) <$> on.

(** [obra_atendida * prioridade]: an [int64] product when the served
    column is [int64]; once it is [float64] the priority is converted and
    the product is a [float64] one. *)
Definition served_priority (as_float : bool) (atendida prioridade : Z) : Z :=
  if as_float then fmul atendida (round53 prioridade)
  else wrap64 (atendida * prioridade).

(** [df_real_output]: the reconciled table.  The served column comes out
    of the merge as [float64] when a row has no match (its cell is empty
    until [fillna(0)]), as [int64] when every row has one. *)
Definition real_output (obras : list ObraRow) (df_output_X : list OutputX)
  : result (list RealOutput) :=
  merged ← merge_left_1_1
              (drop_duplicates id
                 ((λ r, (obra r, cod_dep r, prioridade r)) <$> obras))
              df_output_X;
  let as_float :=
    bool_decide (Exists (λ row : Z * Z * Z * option Z, row.2 = None)
                   (merged : list _)) in
  mret ((λ row : Z * Z * Z * option Z,
           let atendida := default 0 row.2 in
           mkRealOutput row.1.1.1 row.1.1.2 row.1.2 atendida
             (served_priority as_float atendida row.1.2))
          <$> (merged : list _)).

(** The served columns of a reconciled table are [float64] exactly when a
    row went unmatched, that is, when a served flag is not 1. *)
Definition served_as_float (df_real_output : list RealOutput) : bool :=
  bool_decide (Exists (λ r, ro_obra_atendida r ≠ 1) df_real_output).

(** [df_grouped]: one row per site, sites in increasing order.  The served
    flags are 0 or 1 and their sum is a count; the served priorities are
    summed as the type of their column has it, the priorities as [int64]. *)
Definition grouped (df_real_output : list RealOutput) : list Grouped :=
  (λ d, let g := filter (λ r, ro_cod_dep r = d) df_real_output in
        mkGrouped d
          (length (unique (ro_obra <$> g)))
          (total (ro_obra_atendida <$> g))
          ((if served_as_float df_real_output
            then sum_float64 else sum_int64) (ro_prioridade_atendida <$> g))
          (sum_int64 (ro_prioridade <$> g)))
    <$> merge_sort Z.le (unique (ro_cod_dep <$> df_real_output)).

Definition generate_results (obras : list ObraRow) (v : vars.vars)
    (o : Outcome) : ST (list artifact) () :=
  on ← lift (vars_x_on v o);
  let df_output_X := output_X on in
  to_csv (output_var_X_csv df_output_X);;
  df_real_output ← lift (real_output obras df_output_X);
  to_csv (output_agrupado_csv (grouped df_real_output)).

(** ** [run] *)

(** What a run leaves behind: the model and the files written. *)
Record World := mkWorld {
  world_model : Model;
  world_files : list artifact
}.

(** [run], with the solver as a parameter. *)
Definition run (optimize : Model → Outcome)
    (estoque : list EstoqueRow) (obras : list ObraRow) : World * result () :=
  match build_model estoque obras new_model with
  | (mdl, Raise e) => (mkWorld mdl [], Raise e)
  | (mdl, Ok v) =>
      let (fs, r) := generate_results obras v (optimize mdl) [] in
      (mkWorld mdl fs, r)
  end.

(** ** The grouping helpers of [src/main.py] *)

(** [if k not in d: d[k] = []] followed by [d[k].append(v)]. *)
Definition append_at {K V} `{Countable K} (d : gmap K (list V)) (k : K) (v : V)
  : gmap K (list V) :=
  let d' := match d !! k with Some _ => d | None => <[k := []]> d end in
  alter (λ l, l ++ [v]) k d'.

(** [depositos_por_obra]: for every task, the sites of its rows. *)
Definition depositos_por_obra (obras_df : list ObraRow) : gmap Z (list Z) :=
  foldl (λ d r, append_at d (obra r) (cod_dep r)) ∅ obras_df.

(** [obras_por_deposito]: for every site, the tasks of its rows. *)
Definition obras_por_deposito (obras_df : list ObraRow) : gmap Z (list Z) :=
  foldl (λ d r, append_at d (cod_dep r) (obra r)) ∅ obras_df.

(** [materiais_por_obra]: for every task, the (material, quantity) pairs of
    its rows. *)
Definition materiais_por_obra (obras_df : list ObraRow)
  : gmap Z (list (Z * Z)) :=
  foldl (λ d r, append_at d (obra r) (cod_mat r, qtd_dem r)) ∅ obras_df.

(** ** Empty cells in the task table

    A cell of a spreadsheet column may be empty; pandas reads it as NaN.
    The derivation of [I] and [J_i] and the enumeration of the keys of [x]
    are given here for task rows whose [obra] and [cod_dep] cells may be
    empty: [unique] and [drop_duplicates] keep NaN as one more value,
    [groupby] leaves out the rows whose key is NaN, and no dictionary built
    by [groupby] has a NaN key. *)

Module raw.
Record ObraCells := mk {
  obra_cell : option Z;
  cod_dep_cell : option Z;
  prioridade_cell : Z;
  cod_mat_cell : Z;
  qtd_dem_cell : Z
}.

(** [groupby(key)] with the default [dropna=True]. *)
Definition groupby_agg_dropna {R K V} `{Countable K}
    (key : R → option K) (agg : list R → V) (rows : list R) : gmap K V :=
  list_to_map
    ((λ k, (k, agg (filter (λ r, key r = Some k) rows)))
       <$> unique (omap key rows)).

(** [d[k]] where [k] may be NaN. *)
Definition getitem_cell {V} (d : gmap Z V) (k : option Z) : result V :=
  match k with
  | Some k => getitem d k
  | None => Raise KeyError
  end.

Definition I (obras : list ObraCells) : list (option Z) :=
  unique (obra_cell <$> obras).

(** The group of task [i]. *)
Definition J_of (obras : list ObraCells) (i : Z) : list (option Z) :=
  unique (cod_dep_cell
            <$> filter (λ r, obra_cell r = Some i)
                  (drop_duplicates (λ r, (obra_cell r, cod_dep_cell r))
                     obras)).

Definition J_i (obras : list ObraCells) : gmap Z (list (option Z)) :=
  groupby_agg_dropna obra_cell (λ g, unique (cod_dep_cell <$> g))
    (drop_duplicates (λ r, (obra_cell r, cod_dep_cell r)) obras).

(** [[(i, j) for i in I for j in J_i[i]]]. *)
Definition x_keys (obras : list ObraCells)
  : result (list (option Z * option Z)) :=
  ks ← mapM (λ i, Ji ← getitem_cell (J_i obras) i; mret ((λ j, (i, j)) <$> Ji))
            (I obras);
  mret (mjoin ks).

(** A row all of whose cells are filled. *)
Definition of_row (r : ObraRow) : ObraCells :=
  mk (Some (obra r)) (Some (cod_dep r)) (prioridade r) (cod_mat r)
     (qtd_dem r).
End raw.

(** ** Example inputs *)

Definition ex_obras : list ObraRow :=
  [mkObra 1 10 5 100 4; mkObra 1 20 5 100 4; mkObra 2 10 7 100 3;
   mkObra 2 10 7 200 1].
Definition ex_estoque : list EstoqueRow :=
  [mkEstoque 10 100 6; mkEstoque 20 100 0; mkEstoque 20 200 5].

(** A stock relation with a site, 30, that no task lists. *)
Definition ex_estoque_idle : list EstoqueRow :=
  [mkEstoque 10 100 6; mkEstoque 30 100 2].
Definition ex_obras_one : list ObraRow := [mkObra 1 10 5 100 4].

(** Task 1 with priority 5 at site 10 and priority 7 at site 20. *)
Definition ex_obras_conflict : list ObraRow :=
  [mkObra 1 10 5 100 4; mkObra 1 20 7 100 4].
Definition ex_estoque_two : list EstoqueRow :=
  [mkEstoque 10 100 6; mkEstoque 20 100 6].

(** A negative stock: task 1 needs 4 of material 100 at site 10, which
    holds -1 of it and has no other site to draw from. *)
Definition ex_estoque_negative : list EstoqueRow := [mkEstoque 10 100 (-1)].

(** Task 1 listed twice at site 10, with priorities 5 and 7. *)
Definition ex_obras_twice : list ObraRow :=
  [mkObra 1 10 5 100 4; mkObra 1 10 7 100 4].
Definition ex_estoque_one : list EstoqueRow := [mkEstoque 10 100 6].

(** A solution of the first example: task 1 at site 10 (up to solver
    precision), task 2 at site 10. *)
Definition ex_solution (x : Var) : Q :=
  match x with
  | x_var 1 10 => 9999999 # 10000000
  | x_var 2 10 => 1
  | _ => 0
  end.

(** The best solution of the first example: task 2 at site 10, with the
    unit of material 200 it needs brought from site 20; task 1 finds its 4
    units of material 100 nowhere once task 2 has taken 3 of the 6. *)
Definition ex_optimum (x : Var) : Q :=
  match x with
  | x_var 2 10 => 1
  | t_var 20 10 200 => 1
  | _ => 0
  end.

(** Task rows with an empty [obra] cell in the second row; every [cod_dep]
    cell is filled. *)
Definition ex_cells_null : list raw.ObraCells :=
  [raw.mk (Some 1) (Some 10) 5 100 4; raw.mk None (Some 10) 5 100 4].
Definition ex_cells : list raw.ObraCells :=
  [raw.mk (Some 1) (Some 10) 5 100 4; raw.mk (Some 1) (Some 20) 5 100 4].

(** * Vocabulary of the statements *)

(** The candidate sites of task [i], the candidate tasks of site [j] and
    the materials of task [i], as the groups of [define_sets] hold them. *)
Definition J_of (obras : list ObraRow) (i : Z) : list Z :=
  unique (cod_dep <$> filter (λ r, obra r = i)
            (drop_duplicates (λ r, (obra r, cod_dep r)) obras)).
Definition I_of (obras : list ObraRow) (j : Z) : list Z :=
  unique (obra <$> filter (λ r, cod_dep r = j)
            (drop_duplicates (λ r, (obra r, cod_dep r)) obras)).
Definition M_of (obras : list ObraRow) (i : Z) : list Z :=
  unique (cod_mat <$> filter (λ r, obra r = i)
            (drop_duplicates (λ r, (obra r, cod_mat r)) obras)).

(** The domain of [x]: the keys in the order [addVars] receives them. *)
Definition x_domain (obras : list ObraRow) : list (Z * Z) :=
  mjoin ((λ i, (λ j, (i, j)) <$> J_of obras i) <$> unique (obra <$> obras)).

(** The variables [create_decision_variables] declares. *)
Definition declared_vars (estoque : list EstoqueRow) (obras : list ObraRow)
  : list VarDecl :=
  ((λ k, mkVarDecl (x_of k) BINARY 0) <$> x_domain obras)
  ++ ((λ k, mkVarDecl (t_of k) CONTINUOUS 0)
        <$> t_keys (define_sets estoque obras)).

(** The handles [create_decision_variables] returns. *)
Definition created_vars (estoque : list EstoqueRow) (obras : list ObraRow)
  : vars.vars :=
  vars.mk (x_domain obras) (t_keys (define_sets estoque obras)).

(** The assignment constraint of task [i]. *)
Definition one_execution_constr (obras : list ObraRow) (i : Z) : Constr :=
  mkConstr (C1_OneExecution i)
    (quicksum ((λ j, of_var (x_var i j)) <$> J_of obras i))
    LessEqual (of_num 1).

(** A constraint emitted by the loop over [M] and [J]. *)
Definition is_stock_balance (estoque : list EstoqueRow)
    (obras : list ObraRow) (c : Constr) : Prop :=
  let s := define_sets estoque obras in
  let p := define_parameters estoque obras in
  let v := created_vars estoque obras in
  ∃ m j cons out inf,
    m ∈ sets.M s ∧ j ∈ sets.J s
    ∧ consumption s p v m j = Ok cons
    ∧ outflow s v m j = Ok out
    ∧ inflow s v m j = Ok inf
    ∧ c = mkConstr (C2_StockBalance m j) (expr_add cons out) LessEqual
            (expr_add (of_num (get (params.Q p) (j, m) 0)) inf).

(** [mdl'] is [mdl] with more constraints, all of them satisfying [P]. *)
Definition adds_constrs (P : Constr → Prop) (mdl mdl' : Model) : Prop :=
  model_vars mdl' = model_vars mdl
  ∧ model_objective mdl' = model_objective mdl
  ∧ ∃ extra, model_constrs mdl' = model_constrs mdl ++ extra ∧ Forall P extra.

(** ** Values of expressions, feasible solutions *)

Definition sumQ (l : list Q) : Q := foldr Qplus 0%Q l.

(** The value of a linear expression under an assignment of the
    variables. *)
Definition eval (X : Var → Q) (e : LinExpr) : Q :=
  (inject_Z (constant e) + sumQ ((λ t, inject_Z t.1 * X t.2) <$> terms e))%Q.

Definition holds (X : Var → Q) (c : Constr) : Prop :=
  match constr_sense c with
  | LessEqual => (eval X (constr_lhs c) <= eval X (constr_rhs c))%Q
  | GreaterEqual => (eval X (constr_rhs c) <= eval X (constr_lhs c))%Q
  | Equal => (eval X (constr_lhs c) == eval X (constr_rhs c))%Q
  end.

(** A binary variable is 0 or 1, a continuous one is at least its lower
    bound. *)
Definition respects (X : Var → Q) (d : VarDecl) : Prop :=
  match decl_vtype d with
  | BINARY => (X (decl_var d) == 0 ∨ X (decl_var d) == 1)%Q
  | CONTINUOUS => (inject_Z (decl_lb d) <= X (decl_var d))%Q
  end.

Definition feasible (mdl : Model) (X : Var → Q) : Prop :=
  Forall (respects X) (model_vars mdl) ∧ Forall (holds X) (model_constrs mdl).

(** ** The mass balance in the words of the specification *)

Module spec.
Section mass_balance.
Variables (estoque : list EstoqueRow) (obras : list ObraRow).
Variable X : Var → Q.

(** Tasks: the distinct task ids.  Sites: the distinct site ids of the
    stock relation. *)
Definition Tasks : list Z := unique (obra <$> obras).
Definition Sites : list Z := unique (est_cod_dep <$> estoque).

(** Site [j] is a candidate of task [i]; task [i] requires material
    [m]. *)
Definition candidate (i j : Z) : Prop :=
  Exists (λ r, obra r = i ∧ cod_dep r = j) obras.
Definition requires (i m : Z) : Prop :=
  Exists (λ r, obra r = i ∧ cod_mat r = m) obras.

(** q[i,m]: the demand summed over all rows of the pair, in the [int64]
    arithmetic of the column. *)
Definition demand (i m : Z) : Z :=
  sum_int64 (qtd_dem <$> filter (λ r, obra r = i ∧ cod_mat r = m) obras).

(** Q[j,m]: the stock of the pair, 0 when the stock relation has no row
    for it (the last row, should it have several). *)
Definition initial_stock (j m : Z) : Z :=
  match last (filter (λ r, est_cod_dep r = j ∧ est_cod_mat r = m) estoque)
  with
  | Some r => est_estoque r
  | None => 0
  end.

Definition consumption_at (j m : Z) : Q :=
  sumQ ((λ i, X (x_var i j) * inject_Z (demand i m))%Q
          <$> filter (λ i, candidate i j ∧ requires i m) Tasks).
Definition outflow_from (j m : Z) : Q :=
  sumQ ((λ k, X (t_var j k m)) <$> filter (λ k, k ≠ j) Sites).
Definition inflow_to (j m : Z) : Q :=
  sumQ ((λ k, X (t_var k j m)) <$> filter (λ k, k ≠ j) Sites).
End mass_balance.
End spec.

(** The terms of the consumption sum, task by task. *)
Definition consumption_terms (obras : list ObraRow) (m j i : Z)
  : list LinExpr :=
  if decide (m ∈ M_of obras i)
  then [var_times (x_var i j) (spec.demand obras i m)] else [].

(** The row whose priority [define_parameters] keeps for task [i]: the
    last one left by the deduplication on (task, priority). *)
Definition w_row (obras : list ObraRow) (i : Z) : option ObraRow :=
  last (filter (λ r, obra r = i)
          (drop_duplicates (λ r, (obra r, prioridade r)) obras)).
Definition w_of (obras : list ObraRow) (i : Z) : Z :=
  from_option prioridade 0 (w_row obras i).

(** The objective [set_obj_priority] forms. *)
Definition priority_objective (obras : list ObraRow) : LinExpr :=
  quicksum (mjoin ((λ i, (λ j, var_times (x_var i j) (w_of obras i))
                           <$> J_of obras i)
                     <$> unique (obra <$> obras))).

(** The mass-balance constraint of material [m] at site [j]. *)
Definition stock_balance_constr (estoque : list EstoqueRow)
    (obras : list ObraRow) (m j : Z) : Constr :=
  mkConstr (C2_StockBalance m j)
    (expr_add
       (quicksum (mjoin (consumption_terms obras m j <$> I_of obras j)))
       (quicksum ((λ k, of_var (t_var j k m))
                    <$> filter (λ k, k ≠ j)
                          (sets.J (define_sets estoque obras)))))
    LessEqual
    (expr_add (of_num (spec.initial_stock estoque j m))
       (quicksum ((λ k, of_var (t_var k j m))
                    <$> filter (λ k, k ≠ j)
                          (sets.J (define_sets estoque obras))))).

(** Every site of the stock relation has a task row. *)
Definition sites_covered (estoque : list EstoqueRow) (obras : list ObraRow)
  : Prop :=
  ∀ j, j ∈ est_cod_dep <$> estoque → j ∈ cod_dep <$> obras.

(** [mdl] with the constraints [cs] added. *)
Definition add_constrs (mdl : Model) (cs : list Constr) : Model :=
  mkModel (model_vars mdl) (model_constrs mdl ++ cs) (model_objective mdl).

(** The constraints of a model built to the end. *)
Definition built_constrs (estoque : list EstoqueRow) (obras : list ObraRow)
  : list Constr :=
  (one_execution_constr obras <$> sets.I (define_sets estoque obras))
  ++ (m ← sets.M (define_sets estoque obras);
      stock_balance_constr estoque obras m
        <$> sets.J (define_sets estoque obras)).

(** Two rows give one task different priorities. *)
Definition conflicting_priorities (obras : list ObraRow) : Prop :=
  ∃ r1 r2, r1 ∈ obras ∧ r2 ∈ obras
           ∧ obra r1 = obra r2 ∧ prioridade r1 ≠ prioridade r2.

(** The run stops on an exception with the model still untouched. *)
Definition aborts_before_model_construction (estoque : list EstoqueRow)
    (obras : list ObraRow) : Prop :=
  ∃ e, build_model estoque obras new_model = (new_model, Raise e).

(** The solver marks [x[i,j]] as 1, within tolerance. *)
Definition selected (obras : list ObraRow) (X : Var → Q) (i j : Z) : Prop :=
  (i, j) ∈ x_domain obras ∧ isclose (X (x_var i j)) 1 = true.

(** The keys the solver has marked. *)
Definition marked (obras : list ObraRow) (X : Var → Q) : list (Z * Z) :=
  filter (λ k, isclose (X (x_of k)) 1 = true) (x_domain obras).

(** Every (task, site) pair has one priority. *)
Definition priority_per_pair (obras : list ObraRow) : Prop :=
  ∀ r1 r2, r1 ∈ obras → r2 ∈ obras →
    obra r1 = obra r2 → cod_dep r1 = cod_dep r2 →
    prioridade r1 = prioridade r2.

(** The distinct (task, site, priority) triples, the left side of the
    merge. *)
Definition triples (obras : list ObraRow) : list (Z * Z * Z) :=
  unique ((λ r, (obra r, cod_dep r, prioridade r)) <$> obras).

(** The reconciled table when the merge goes through: the served columns
    are [float64] when some (task, site) pair of the table is not marked. *)
Definition reconciled (obras : list ObraRow) (on : list (Z * Z))
  : list RealOutput :=
  let as_float :=
    bool_decide (Exists (λ l : Z * Z * Z, (l.1.1, l.1.2) ∉ on)
                   (triples obras)) in
  (λ l : Z * Z * Z,
     let atendida := if decide ((l.1.1, l.1.2) ∈ on) then 1 else 0 in
     mkRealOutput l.1.1 l.1.2 l.2 atendida
       (served_priority as_float atendida l.2))
    <$> triples obras.

Global Arguments define_sets : simpl never.
Global Arguments define_parameters : simpl never.

Global Instance priority_per_pair_dec obras :
  Decision (priority_per_pair obras).
Proof.
  refine (cast_if (decide (Forall (λ r1, Forall (λ r2,
            obra r1 = obra r2 → cod_dep r1 = cod_dep r2 →
            prioridade r1 = prioridade r2) obras) obras))).
  - intros r1 r2 H1 H2.
    match goal with H : Forall _ _ |- _ => rewrite Forall_forall in H;
      specialize (H r1 H1); rewrite Forall_forall in H; by apply H end.
  - intros Hp. match goal with H : ¬ _ |- _ => apply H end.
    apply Forall_forall. intros r1 H1. apply Forall_forall. intros r2 H2.
    by apply Hp.
Defined.

(** * Facts about the table operations *)

Section drop_duplicates_facts.
Context {R K : Type} `{EqDecision K}.
Implicit Types (key : R → K) (l : list R).

Lemma drop_duplicates_subseteq key l r :
  r ∈ drop_duplicates key l → r ∈ l.
Proof.
  induction l as [|a l IH]; simpl; [done|].
  rewrite !elem_of_cons, list_elem_of_filter. naive_solver.
Qed.

Lemma elem_of_drop_duplicates_key key l k :
  k ∈ key <$> drop_duplicates key l ↔ k ∈ key <$> l.
Proof.
  induction l as [|a l IH]; simpl; [done|].
  rewrite !elem_of_cons, <- IH, !list_elem_of_fmap.
  setoid_rewrite list_elem_of_filter.
  destruct (decide (k = key a)) as [->|Hne]; [naive_solver|].
  split; [naive_solver|]. intros [?|(r & -> & Hr)]; [done|].
  right. exists r. naive_solver.
Qed.

Lemma NoDup_drop_duplicates_key key l :
  NoDup (key <$> drop_duplicates key l).
Proof.
  induction l as [|a l IH]; simpl; [constructor|].
  apply NoDup_cons. split.
  - rewrite list_elem_of_fmap. intros (r & Hk & Hr).
    apply list_elem_of_filter in Hr as [Hne _]. congruence.
  - clear -IH. induction (drop_duplicates key l) as [|b d IHd]; [constructor|].
    simpl in IH. apply NoDup_cons in IH as [Hb Hd].
    rewrite filter_cons. case_decide; simpl; [|by auto].
    apply NoDup_cons. split; [|by auto].
    rewrite list_elem_of_fmap in *. intros (r & Hk & Hr).
    apply list_elem_of_filter in Hr as [_ Hr]. naive_solver.
Qed.

Lemma NoDup_drop_duplicates key l : NoDup (drop_duplicates key l).
Proof. eapply NoDup_fmap_1, NoDup_drop_duplicates_key. Qed.

(** A coarser view of the key sees the same values before and after. *)
Lemma elem_of_drop_duplicates_fmap {K'} (f : K → K') key l k' :
  k' ∈ (λ r, f (key r)) <$> drop_duplicates key l
  ↔ k' ∈ (λ r, f (key r)) <$> l.
Proof.
  assert (∀ L : list R,
            k' ∈ (λ r, f (key r)) <$> L ↔ ∃ k, k' = f k ∧ k ∈ key <$> L)
    as Hview.
  { intros L. rewrite list_elem_of_fmap. setoid_rewrite list_elem_of_fmap.
    naive_solver. }
  rewrite !Hview. by setoid_rewrite elem_of_drop_duplicates_key.
Qed.
End drop_duplicates_facts.

Lemma elem_of_unique {A} `{EqDecision A} (l : list A) x :
  x ∈ unique l ↔ x ∈ l.
Proof.
  unfold unique. pose proof (elem_of_drop_duplicates_key id l x) as H.
  by rewrite !list_fmap_id in H.
Qed.

Lemma NoDup_unique {A} `{EqDecision A} (l : list A) : NoDup (unique l).
Proof. apply NoDup_drop_duplicates. Qed.

Section dict_facts.
Context {R K V : Type} `{Countable K}.

Lemma lookup_list_to_map_graph (g : K → V) (ks : list K) k :
  (list_to_map ((λ k, (k, g k)) <$> ks) : gmap K V) !! k
  = if decide (k ∈ ks) then Some (g k) else None.
Proof.
  induction ks as [|a ks IH]; [done|].
  rewrite fmap_cons, list_to_map_cons.
  destruct (decide (a = k)) as [->|Hne].
  - rewrite lookup_insert_eq. rewrite decide_True; [done|left].
  - rewrite lookup_insert_ne, IH by done.
    destruct (decide (k ∈ ks)).
    + rewrite decide_True; [done|by right].
    + rewrite decide_False; [done|]. rewrite elem_of_cons. naive_solver.
Qed.

Lemma lookup_groupby_agg (key : R → K) (agg : list R → V) rows k :
  groupby_agg key agg rows !! k
  = if decide (k ∈ key <$> rows)
    then Some (agg (filter (λ r, key r = k) rows)) else None.
Proof.
  unfold groupby_agg.
  rewrite (lookup_list_to_map_graph
             (λ k, agg (filter (λ r, key r = k) rows))).
  destruct (decide (k ∈ key <$> rows)) as [Hin|Hin].
  - rewrite decide_True; [done|by apply elem_of_unique].
  - rewrite decide_False; [done|by rewrite elem_of_unique].
Qed.

Lemma lookup_to_dict_from (key : R → K) (val : R → V) rows (d : gmap K V) k :
  foldl (λ d r, <[key r := val r]> d) d rows !! k
  = match last (filter (λ r, key r = k) rows) with
    | Some r => Some (val r)
    | None => d !! k
    end.
Proof.
  revert d. induction rows as [|a rows IH]; intros d; simpl; [done|].
  rewrite IH, filter_cons. case_decide as Hk; simpl.
  - destruct (filter _ rows) as [|b f] eqn:Hf; simpl.
    + subst k. by rewrite lookup_insert_eq.
    + change (last (a :: b :: f)) with (last (b :: f)).
      destruct (last (b :: f)) eqn:E; [done|]. by apply last_None in E.
  - destruct (last _); [done|]. by rewrite lookup_insert_ne.
Qed.

(** The entry of a key is the value of the last row that carries it. *)
Lemma lookup_to_dict (key : R → K) (val : R → V) rows k :
  to_dict key val rows !! k = val <$> last (filter (λ r, key r = k) rows).
Proof.
  unfold to_dict. rewrite lookup_to_dict_from, lookup_empty.
  by destruct (last _).
Qed.
End dict_facts.

(** ** Facts about [mapM] on results *)

Lemma mapM_Ok {A B} (f : A → result B) (g : A → B) (l : list A) :
  (∀ a, a ∈ l → f a = Ok (g a)) → mapM f l = Ok (g <$> l).
Proof.
  induction l as [|a l IH]; intros Hf; simpl; [done|].
  rewrite (Hf a) by left. simpl.
  rewrite IH by (intros; apply Hf; by right). done.
Qed.

(** * Facts about [define_sets] *)

Section define_sets_facts.
Variables (estoque : list EstoqueRow) (obras : list ObraRow).
Local Abbreviation s := (define_sets estoque obras).

Lemma elem_of_sets_I i : i ∈ sets.I s ↔ i ∈ obra <$> obras.
Proof. apply elem_of_unique. Qed.

Lemma elem_of_sets_J j : j ∈ sets.J s ↔ j ∈ est_cod_dep <$> estoque.
Proof. apply elem_of_unique. Qed.

Lemma elem_of_sets_M m : m ∈ sets.M s ↔ m ∈ est_cod_mat <$> estoque.
Proof. apply elem_of_unique. Qed.

Lemma lookup_J_i i :
  sets.J_i s !! i
  = if decide (i ∈ obra <$> obras) then Some (J_of obras i) else None.
Proof.
  unfold define_sets, define_parameters. simpl. rewrite lookup_groupby_agg.
  pose proof (elem_of_drop_duplicates_fmap fst
                (λ r, (obra r, cod_dep r)) obras i) as Hi. simpl in Hi.
  destruct (decide (i ∈ obra <$> obras)).
  - rewrite decide_True; [done|by apply Hi].
  - rewrite decide_False; [done|by rewrite Hi].
Qed.

Lemma lookup_I_j j :
  sets.I_j s !! j
  = if decide (j ∈ cod_dep <$> obras) then Some (I_of obras j) else None.
Proof.
  unfold define_sets, define_parameters. simpl. rewrite lookup_groupby_agg.
  pose proof (elem_of_drop_duplicates_fmap snd
                (λ r, (obra r, cod_dep r)) obras j) as Hj. simpl in Hj.
  destruct (decide (j ∈ cod_dep <$> obras)).
  - rewrite decide_True; [done|by apply Hj].
  - rewrite decide_False; [done|by rewrite Hj].
Qed.

Lemma lookup_M_i i :
  sets.M_i s !! i
  = if decide (i ∈ obra <$> obras) then Some (M_of obras i) else None.
Proof.
  unfold define_sets, define_parameters. simpl. rewrite lookup_groupby_agg.
  pose proof (elem_of_drop_duplicates_fmap fst
                (λ r, (obra r, cod_mat r)) obras i) as Hi. simpl in Hi.
  destruct (decide (i ∈ obra <$> obras)).
  - rewrite decide_True; [done|by apply Hi].
  - rewrite decide_False; [done|by rewrite Hi].
Qed.

Lemma elem_of_J_of i j :
  j ∈ J_of obras i ↔ (i, j) ∈ (λ r, (obra r, cod_dep r)) <$> obras.
Proof.
  unfold J_of. rewrite elem_of_unique.
  rewrite <- (elem_of_drop_duplicates_key (λ r, (obra r, cod_dep r))).
  rewrite !list_elem_of_fmap. setoid_rewrite list_elem_of_filter.
  naive_solver.
Qed.

Lemma elem_of_I_of i j :
  i ∈ I_of obras j ↔ (i, j) ∈ (λ r, (obra r, cod_dep r)) <$> obras.
Proof.
  unfold I_of. rewrite elem_of_unique.
  rewrite <- (elem_of_drop_duplicates_key (λ r, (obra r, cod_dep r))).
  rewrite !list_elem_of_fmap. setoid_rewrite list_elem_of_filter.
  naive_solver.
Qed.

Lemma elem_of_M_of i m :
  m ∈ M_of obras i ↔ (i, m) ∈ (λ r, (obra r, cod_mat r)) <$> obras.
Proof.
  unfold M_of. rewrite elem_of_unique.
  rewrite <- (elem_of_drop_duplicates_key (λ r, (obra r, cod_mat r))).
  rewrite !list_elem_of_fmap. setoid_rewrite list_elem_of_filter.
  naive_solver.
Qed.

Lemma pair_dep_obra i j :
  (i, j) ∈ (λ r, (obra r, cod_dep r)) <$> obras → i ∈ obra <$> obras.
Proof. rewrite !list_elem_of_fmap. naive_solver. Qed.

(** A task of [I] has at least one candidate site. *)
Lemma J_of_nonempty i : i ∈ obra <$> obras → J_of obras i ≠ [].
Proof.
  rewrite list_elem_of_fmap. intros (r & -> & Hr).
  apply (elem_of_not_nil (cod_dep r)), elem_of_J_of.
  by apply (list_elem_of_fmap_2 (λ r, (obra r, cod_dep r))).
Qed.
End define_sets_facts.

Lemma NoDup_join_tagged {A B} (g : A → list B) (tag : B → A) (l : list A) :
  NoDup l → (∀ a, NoDup (g a)) → (∀ a b, b ∈ g a → tag b = a) →
  NoDup (mjoin (g <$> l)).
Proof.
  intros Hl Hg Htag. induction Hl as [|a l Ha Hl IH]; simpl; [constructor|].
  apply NoDup_app. split; [apply Hg|]. split; [|done].
  intros b Hb Hb'. apply list_elem_of_join in Hb' as (bs & Hbs & Hin).
  apply list_elem_of_fmap in Hin as (a' & -> & Ha').
  apply Htag in Hb, Hbs. congruence.
Qed.

Lemma elem_of_x_domain obras i j :
  (i, j) ∈ x_domain obras ↔ (i, j) ∈ (λ r, (obra r, cod_dep r)) <$> obras.
Proof.
  unfold x_domain. rewrite list_elem_of_join. split.
  - intros (ks & Hk & Hks).
    apply list_elem_of_fmap in Hks as (i' & -> & Hi').
    apply list_elem_of_fmap in Hk as (j' & [= -> ->] & Hj').
    by apply elem_of_J_of.
  - intros Hij. exists ((λ j, (i, j)) <$> J_of obras i). split.
    + apply list_elem_of_fmap. exists j. split; [done|]. by apply elem_of_J_of.
    + apply list_elem_of_fmap. exists i. split; [done|]. apply elem_of_unique.
      by eapply pair_dep_obra.
Qed.

Lemma NoDup_x_domain obras : NoDup (x_domain obras).
Proof.
  unfold x_domain. apply (NoDup_join_tagged _ fst).
  - apply NoDup_unique.
  - intros i. apply NoDup_fmap_2; [|apply NoDup_unique].
    intros ?? [=]. done.
  - intros i b Hb. apply list_elem_of_fmap in Hb as (j & -> & _). done.
Qed.

Lemma x_keys_define_sets estoque obras :
  x_keys (define_sets estoque obras) = Ok (x_domain obras).
Proof.
  unfold x_keys.
  rewrite (mapM_Ok _ (λ i, (λ j, (i, j)) <$> J_of obras i)); [reflexivity|].
  intros i Hi. change (i ∈ unique (obra <$> obras)) in Hi.
  rewrite elem_of_unique in Hi.
  unfold getitem. rewrite lookup_J_i, decide_True by done. reflexivity.
Qed.

(** * Facts about the model builder *)

(** Reduction of the binds of [result]. *)
Tactic Notation "result_simpl" :=
  cbn [mbind result_bind mret result_ret fmap result_fmap].
Tactic Notation "result_simpl" "in" hyp(H) :=
  cbn [mbind result_bind mret result_ret fmap result_fmap] in H.

(** Unfolding of the stateful steps. *)
Ltac st_unfold :=
  unfold mbind, mret, ST_bind, ST_ret, lift, addConstr, setObjective, addVars
    in *.

Lemma adds_constrs_refl P mdl : adds_constrs P mdl mdl.
Proof.
  repeat split. exists []. by rewrite app_nil_r.
Qed.

Lemma adds_constrs_trans P m1 m2 m3 :
  adds_constrs P m1 m2 → adds_constrs P m2 m3 → adds_constrs P m1 m3.
Proof.
  intros (Hv1 & Ho1 & e1 & Hc1 & HP1) (Hv2 & Ho2 & e2 & Hc2 & HP2).
  split; [congruence|]. split; [congruence|].
  exists (e1 ++ e2). split; [|by apply Forall_app].
  by rewrite Hc2, Hc1, app_assoc.
Qed.

Lemma for_each_adds {A} (P : Constr → Prop) (l : list A)
    (body : A → ST Model ()) :
  (∀ a mdl, a ∈ l → adds_constrs P mdl (body a mdl).1) →
  ∀ mdl, adds_constrs P mdl (for_each l body mdl).1.
Proof.
  induction l as [|a l IH]; intros Hbody mdl; simpl.
  - apply adds_constrs_refl.
  - st_unfold. pose proof (Hbody a mdl ltac:(left)) as Ha.
    destruct (body a mdl) as [mdl' [[]|e]]; simpl in *; [|done].
    eapply adds_constrs_trans; [exact Ha|].
    apply IH. intros. apply Hbody. by right.
Qed.

(** A loop whose body succeeds on every element succeeds. *)
Lemma for_each_Ok_inv {S A} (l : list A) (body : A → ST S ()) s s' :
  for_each l body s = (s', Ok ()) →
  ∀ a, a ∈ l → ∃ s1 s2, body a s1 = (s2, Ok ()).
Proof.
  revert s. induction l as [|a l IH]; intros s Hrun b Hb; simpl in *.
  - by apply elem_of_nil in Hb.
  - st_unfold. destruct (body a s) as [s1 [[]|e]] eqn:Ha; [|done].
    apply elem_of_cons in Hb as [->|Hb]; [eauto|]. eapply IH; eauto.
Qed.

Section build_facts.
Variables (estoque : list EstoqueRow) (obras : list ObraRow).
Local Abbreviation s := (define_sets estoque obras).
Local Abbreviation p := (define_parameters estoque obras).
Local Abbreviation v := (created_vars estoque obras).

Lemma create_decision_variables_run mdl :
  create_decision_variables s mdl
  = (mkModel (model_vars mdl ++ (declared_vars estoque obras)) (model_constrs mdl)
       (model_objective mdl), Ok v).
Proof.
  unfold create_decision_variables. st_unfold.
  rewrite x_keys_define_sets. simpl.
  by rewrite <- app_assoc.
Qed.

Lemma x_getitem_Ok i j :
  (i, j) ∈ (λ r, (obra r, cod_dep r)) <$> obras →
  tupledict_getitem x_of (vars.x v) (i, j) = Ok (x_var i j).
Proof.
  intros Hij. unfold tupledict_getitem. simpl.
  rewrite decide_True; [done|by apply elem_of_x_domain].
Qed.

Lemma one_execution_lhs_Ok i :
  i ∈ obra <$> obras →
  one_execution_lhs s v i
  = Ok (quicksum ((λ j, of_var (x_var i j)) <$> J_of obras i)).
Proof.
  intros Hi. unfold one_execution_lhs, getitem.
  rewrite lookup_J_i, decide_True by done. simpl.
  rewrite (mapM_Ok _ (λ j, of_var (x_var i j))); [reflexivity|].
  intros j Hj. rewrite x_getitem_Ok; [done|by apply elem_of_J_of].
Qed.

Lemma one_execution_loop (l : list Z) mdl :
  (∀ i, i ∈ l → i ∈ obra <$> obras) →
  for_each l (λ i,
    lhs ← lift (one_execution_lhs s v i);
    addConstr (mkConstr (C1_OneExecution i) lhs LessEqual (of_num 1))) mdl
  = (mkModel (model_vars mdl)
       (model_constrs mdl ++ ((one_execution_constr obras) <$> l))
       (model_objective mdl), Ok ()).
Proof.
  revert mdl. induction l as [|i l IH]; intros mdl Hl; simpl.
  - rewrite app_nil_r. by destruct mdl.
  - st_unfold. rewrite one_execution_lhs_Ok by (apply Hl; left).
    rewrite IH by (intros; apply Hl; by right). simpl.
    by rewrite <- app_assoc.
Qed.

Lemma stock_balance_adds m j mdl :
  m ∈ sets.M s → j ∈ sets.J s →
  adds_constrs (is_stock_balance estoque obras) mdl (stock_balance s p v m j mdl).1.
Proof.
  intros Hm Hj. unfold stock_balance. st_unfold.
  destruct (consumption s p v m j) as [cons|e] eqn:Hc;
    [|apply adds_constrs_refl].
  destruct (outflow s v m j) as [out|e] eqn:Ho; [|apply adds_constrs_refl].
  destruct (inflow s v m j) as [inf|e] eqn:Hi; [|apply adds_constrs_refl].
  split; [reflexivity|]. split; [reflexivity|].
  eexists. split; [reflexivity|].
  apply Forall_singleton. exists m, j, cons, out, inf.
  repeat split; assumption.
Qed.

Lemma stock_balance_loop mdl :
  adds_constrs (is_stock_balance estoque obras) mdl
    (for_each (sets.M s) (λ m,
       for_each (sets.J s) (λ j, stock_balance s p v m j)) mdl).1.
Proof.
  apply for_each_adds. intros m mdl' Hm.
  apply for_each_adds. intros j mdl'' Hj. by apply stock_balance_adds.
Qed.

(** The constraints of the model once [create_constraints] has run, to
    its end or to the first exception. *)
Lemma create_constraints_constrs mdl :
  adds_constrs (is_stock_balance estoque obras)
    (mkModel (model_vars mdl)
       (model_constrs mdl ++ ((one_execution_constr obras) <$> sets.I s))
       (model_objective mdl))
    (create_constraints s p v mdl).1.
Proof.
  unfold create_constraints. st_unfold.
  rewrite one_execution_loop.
  - apply stock_balance_loop.
  - intros i Hi. by apply elem_of_sets_I in Hi.
Qed.

Lemma set_obj_priority_constrs mdl :
  model_constrs (set_obj_priority s p v mdl).1 = model_constrs mdl
  ∧ model_vars (set_obj_priority s p v mdl).1 = model_vars mdl.
Proof.
  unfold set_obj_priority. st_unfold.
  by destruct (priority_expr s p v).
Qed.

(** [build_model] on a fresh model, step by step. *)
Lemma build_model_unfold :
  build_model estoque obras new_model
  = match create_constraints s p v (mkModel (declared_vars estoque obras) [] None) with
    | (mdl2, Ok _) =>
        match set_obj_priority s p v mdl2 with
        | (mdl3, Ok _) => (mdl3, Ok v)
        | (mdl3, Raise e) => (mdl3, Raise e)
        end
    | (mdl2, Raise e) => (mdl2, Raise e)
    end.
Proof.
  unfold build_model, mbind, mret, ST_bind, ST_ret.
  rewrite create_decision_variables_run. reflexivity.
Qed.

(** The constraints and variables of the model [run] hands to the solver,
    or holds when building stopped on an exception. *)
Lemma build_model_constrs :
  model_vars (build_model estoque obras new_model).1 = (declared_vars estoque obras)
  ∧ ∃ extra,
      model_constrs (build_model estoque obras new_model).1
      = ((one_execution_constr obras) <$> sets.I s) ++ extra
      ∧ Forall (is_stock_balance estoque obras) extra.
Proof.
  rewrite build_model_unfold.
  pose proof (create_constraints_constrs
                (mkModel (declared_vars estoque obras) [] None)) as (Hv & Ho & ex & Hc & Hex).
  simpl in Hv, Ho, Hc.
  destruct (create_constraints s p v _) as [mdl2 [[]|e]].
  - pose proof (set_obj_priority_constrs mdl2) as [Hc' Hv'].
    destruct (set_obj_priority s p v mdl2) as [mdl3 [[]|e]]; simpl in *;
      (split; [congruence|]; exists ex; split; [congruence|done]).
  - split; [done|]. by exists ex.
Qed.
End build_facts.

(** * Values of the expressions the builder forms *)

Lemma sumQ_app l1 l2 : (sumQ (l1 ++ l2) == sumQ l1 + sumQ l2)%Q.
Proof.
  induction l1 as [|a l1 IH]; simpl; [ring|]. rewrite IH. ring.
Qed.

Lemma sumQ_Permutation l1 l2 : l1 ≡ₚ l2 → (sumQ l1 == sumQ l2)%Q.
Proof.
  induction 1 as [|a l1 l2 _ IH|a b l|l1 l2 l3 _ IH1 _ IH2]; simpl.
  - reflexivity.
  - by rewrite IH.
  - ring.
  - by rewrite IH1.
Qed.

Lemma sumQ_fmap_ext {A} (f g : A → Q) (l : list A) :
  (∀ a, a ∈ l → (f a == g a)%Q) → (sumQ (f <$> l) == sumQ (g <$> l))%Q.
Proof.
  induction l as [|a l IH]; intros Hfg; simpl; [reflexivity|].
  rewrite (Hfg a) by left. rewrite IH; [reflexivity|].
  intros. apply Hfg. by right.
Qed.

Section eval_facts.
Variable X : Var → Q.

Lemma eval_expr_add e1 e2 :
  (eval X (expr_add e1 e2) == eval X e1 + eval X e2)%Q.
Proof.
  unfold eval, expr_add. simpl. rewrite fmap_app, sumQ_app, inject_Z_plus.
  ring.
Qed.

Lemma eval_of_num c : (eval X (of_num c) == inject_Z c)%Q.
Proof. unfold eval. simpl. ring. Qed.

Lemma eval_of_var x : (eval X (of_var x) == X x)%Q.
Proof. unfold eval. simpl. ring. Qed.

Lemma eval_var_times x c : (eval X (var_times x c) == X x * inject_Z c)%Q.
Proof. unfold eval. simpl. ring. Qed.

Lemma eval_quicksum es :
  (eval X (quicksum es) == sumQ (eval X <$> es))%Q.
Proof.
  induction es as [|e es IH]; simpl.
  - apply eval_of_num.
  - by rewrite eval_expr_add, IH.
Qed.

Lemma eval_quicksum_app es1 es2 :
  (eval X (quicksum (es1 ++ es2))
   == eval X (quicksum es1) + eval X (quicksum es2))%Q.
Proof. by rewrite !eval_quicksum, fmap_app, sumQ_app. Qed.

Lemma eval_quicksum_vars {A} (f : A → Var) (l : list A) :
  (eval X (quicksum ((λ a, of_var (f a)) <$> l))
   == sumQ ((λ a, X (f a)) <$> l))%Q.
Proof.
  rewrite eval_quicksum, <- list_fmap_compose.
  apply sumQ_fmap_ext. intros a _. apply eval_of_var.
Qed.
End eval_facts.

(** * The parameters against the specification's words *)

Section parameter_facts.
Variables (estoque : list EstoqueRow) (obras : list ObraRow).
Local Abbreviation s := (define_sets estoque obras).
Local Abbreviation p := (define_parameters estoque obras).
Local Abbreviation v := (created_vars estoque obras).

Lemma candidate_iff i j :
  spec.candidate obras i j ↔ (i, j) ∈ (λ r, (obra r, cod_dep r)) <$> obras.
Proof.
  unfold spec.candidate. rewrite Exists_exists, list_elem_of_fmap.
  naive_solver.
Qed.

Lemma requires_iff i m :
  spec.requires obras i m ↔ (i, m) ∈ (λ r, (obra r, cod_mat r)) <$> obras.
Proof.
  unfold spec.requires. rewrite Exists_exists, list_elem_of_fmap.
  naive_solver.
Qed.

Lemma lookup_q i m :
  params.q p !! (i, m)
  = if decide ((i, m) ∈ (λ r, (obra r, cod_mat r)) <$> obras)
    then Some (spec.demand obras i m) else None.
Proof.
  unfold define_sets, define_parameters. simpl. rewrite lookup_groupby_agg. unfold spec.demand.
  rewrite (list_filter_iff (λ r, (obra r, cod_mat r) = (i, m))
             (λ r, obra r = i ∧ cod_mat r = m)); [done|].
  intros r. split; [by intros [= -> ->]|by intros [-> ->]].
Qed.

Lemma get_Q j m :
  get (params.Q p) (j, m) 0 = spec.initial_stock estoque j m.
Proof.
  unfold get, spec.initial_stock, define_parameters. simpl.
  rewrite lookup_to_dict.
  rewrite (list_filter_iff (λ r, (est_cod_dep r, est_cod_mat r) = (j, m))
             (λ r, est_cod_dep r = j ∧ est_cod_mat r = m)).
  - by destruct (last _).
  - intros r. split; [by intros [= -> ->]|by intros [-> ->]].
Qed.

(** The default applies exactly to the pairs the stock relation lacks. *)
Lemma initial_stock_absent j m :
  (j, m) ∉ (λ r, (est_cod_dep r, est_cod_mat r)) <$> estoque →
  spec.initial_stock estoque j m = 0.
Proof.
  intros Hjm. unfold spec.initial_stock.
  destruct (last _) as [r|] eqn:Hl; [|done].
  apply last_Some_elem_of, list_elem_of_filter in Hl as [[<- <-] Hr].
  destruct Hjm. by apply (list_elem_of_fmap_2 (λ r, (est_cod_dep r, est_cod_mat r))).
Qed.

Lemma elem_of_t_keys k j m :
  (k, j, m) ∈ t_keys s ↔ k ∈ sets.J s ∧ j ∈ sets.J s ∧ m ∈ sets.M s ∧ j ≠ k.
Proof.
  unfold t_keys. rewrite list_elem_of_bind. split.
  - intros (k' & Hin & Hk').
    apply list_elem_of_bind in Hin as (j' & Hin & Hj').
    apply list_elem_of_bind in Hin as (m' & Hin & Hm').
    case_decide; [|by apply elem_of_nil in Hin].
    apply list_elem_of_singleton in Hin as [= -> -> ->]. done.
  - intros (Hk & Hj & Hm & Hne). exists k. split; [|done].
    apply list_elem_of_bind. exists j. split; [|done].
    apply list_elem_of_bind. exists m. split; [|done].
    rewrite decide_True by done. by apply list_elem_of_singleton.
Qed.

Lemma consumption_closed m j :
  consumption s p v m j
  = if decide (j ∈ cod_dep <$> obras)
    then Ok (quicksum (mjoin (consumption_terms obras m j <$> I_of obras j)))
    else Raise KeyError.
Proof.
  unfold consumption, getitem. rewrite lookup_I_j.
  case_decide as Hj; [|done]. result_simpl.
  rewrite (mapM_Ok _ (consumption_terms obras m j)); [reflexivity|].
  intros i Hi. apply elem_of_I_of in Hi.
  rewrite lookup_M_i, decide_True by (by eapply pair_dep_obra).
  result_simpl.
  unfold consumption_terms. case_decide as Hm; [|done].
  apply elem_of_M_of in Hm.
  unfold tupledict_getitem.
  rewrite decide_True by (by apply elem_of_x_domain). result_simpl.
  rewrite lookup_q, decide_True by done. done.
Qed.

Lemma outflow_closed m j :
  m ∈ sets.M s → j ∈ sets.J s →
  outflow s v m j
  = Ok (quicksum ((λ k, of_var (t_var j k m))
                    <$> filter (λ k, k ≠ j) (sets.J s))).
Proof.
  intros Hm Hj. unfold outflow.
  rewrite (mapM_Ok _ (λ k, of_var (t_var j k m))); [reflexivity|].
  intros k Hk. apply list_elem_of_filter in Hk as [Hne Hk].
  unfold tupledict_getitem.
  rewrite decide_True; [done|]. by apply elem_of_t_keys.
Qed.

Lemma inflow_closed m j :
  m ∈ sets.M s → j ∈ sets.J s →
  inflow s v m j
  = Ok (quicksum ((λ k, of_var (t_var k j m))
                    <$> filter (λ k, k ≠ j) (sets.J s))).
Proof.
  intros Hm Hj. unfold inflow.
  rewrite (mapM_Ok _ (λ k, of_var (t_var k j m))); [reflexivity|].
  intros k Hk. apply list_elem_of_filter in Hk as [Hne Hk].
  unfold tupledict_getitem.
  rewrite decide_True; [done|]. apply elem_of_t_keys. naive_solver.
Qed.

Lemma eval_consumption_terms X m j (l : list Z) :
  (eval X (quicksum (mjoin (consumption_terms obras m j <$> l)))
   == sumQ ((λ i, X (x_var i j) * inject_Z (spec.demand obras i m))
              <$> filter (λ i, m ∈ M_of obras i) l))%Q.
Proof.
  induction l as [|i l IH]; simpl; [apply eval_of_num|].
  rewrite filter_cons. unfold consumption_terms at 1.
  case_decide; simpl; [|done].
  by rewrite eval_expr_add, eval_var_times, IH.
Qed.

(** The tasks the code sums over at site [j] for material [m] are the
    tasks the specification names. *)
Lemma consumption_tasks_Permutation m j :
  filter (λ i, m ∈ M_of obras i) (I_of obras j)
  ≡ₚ filter (λ i, spec.candidate obras i j ∧ spec.requires obras i m)
       (spec.Tasks obras).
Proof.
  apply NoDup_Permutation.
  - apply NoDup_filter, NoDup_unique.
  - apply NoDup_filter, NoDup_unique.
  - intros i. rewrite !list_elem_of_filter, elem_of_M_of, elem_of_I_of.
    rewrite candidate_iff, requires_iff. unfold spec.Tasks.
    rewrite elem_of_unique. split; [|naive_solver].
    intros [Hm Hj]. split; [done|]. by eapply pair_dep_obra.
Qed.

Lemma eval_consumption X m j cons :
  consumption s p v m j = Ok cons →
  (eval X cons == spec.consumption_at obras X j m)%Q.
Proof.
  rewrite consumption_closed. case_decide; [|done]. intros [= <-].
  rewrite eval_consumption_terms. unfold spec.consumption_at.
  apply sumQ_Permutation, fmap_Permutation, consumption_tasks_Permutation.
Qed.
End parameter_facts.

Lemma quicksum_vars {A} (f : A → Var) (l : list A) :
  quicksum ((λ a, of_var (f a)) <$> l) = mkLinExpr ((λ a, (1, f a)) <$> l) 0.
Proof.
  induction l as [|a l IH]; [done|].
  rewrite !fmap_cons. simpl. rewrite IH. done.
Qed.

(** Membership in an explicit list, by enumeration. *)
Ltac elem_of_enum :=
  repeat first [apply list_elem_of_here | apply list_elem_of_further].

(** * The mass-balance constraints *)

(** C1.  Every mass-balance constraint the builder emits, named by its
    material [m] and site [j], is an inequality [<=] whose left side is the
    consumption at [j] (the sum over the tasks [i] that list [j] as a
    candidate and require [m] of [x[i,j] * q[i,m]]) plus the outflow (the sum
    over the other sites [k] of [t[j,k,m]]), and whose right side is [Q[j,m]]
    plus the inflow (the sum over the other sites [k] of [t[k,j,m]]), where
    [Q[j,m]] is 0 when the stock relation has no row for the pair. *)
Theorem mass_balance_form estoque obras c m j :
  c ∈ model_constrs (build_model estoque obras new_model).1 →
  constr_name c = C2_StockBalance m j →
  constr_sense c = LessEqual
  ∧ (∀ X,
       (eval X (constr_lhs c)
        == spec.consumption_at obras X j m + spec.outflow_from estoque X j m)%Q
       ∧ (eval X (constr_rhs c)
          == inject_Z (spec.initial_stock estoque j m)
             + spec.inflow_to estoque X j m)%Q)
  ∧ ((j, m) ∉ (λ r, (est_cod_dep r, est_cod_mat r)) <$> estoque →
     constant (constr_rhs c) = 0).
Proof.
  intros Hc Hname.
  destruct (build_model_constrs estoque obras) as (_ & extra & Hcs & Hextra).
  rewrite Hcs in Hc. apply elem_of_app in Hc as [Hc|Hc].
  { apply list_elem_of_fmap in Hc as (i & -> & _). discriminate Hname. }
  rewrite Forall_forall in Hextra.
  destruct (Hextra c Hc) as (m' & j' & cons & out & inf & Hm & Hj & Hcons
                             & Hout & Hinf & ->).
  simpl in Hname. injection Hname as -> ->.
  rewrite outflow_closed in Hout by done. injection Hout as <-.
  rewrite inflow_closed in Hinf by done. injection Hinf as <-.
  split; [done|]. split.
  - intros X. cbn [constr_lhs constr_rhs].
    rewrite !eval_expr_add, eval_of_num, get_Q.
    rewrite (eval_consumption _ _ _ _ _ _ Hcons), !eval_quicksum_vars.
    split; reflexivity.
  - intros Habs. cbn [constr_rhs]. rewrite quicksum_vars, get_Q.
    rewrite initial_stock_absent by done. done.
Qed.

(** The constraint of material 200 at site 10 in the example: the stock
    relation has no row for the pair. *)
Lemma mass_balance_form_witness :
  let c := mkConstr (C2_StockBalance 200 10)
             (mkLinExpr [(1, x_var 2 10); (1, t_var 10 20 200)] 0)
             LessEqual (mkLinExpr [(1, t_var 20 10 200)] 0) in
  constr_sense c = LessEqual
  ∧ (∀ X,
       (eval X (constr_lhs c)
        == spec.consumption_at ex_obras X 10 200
           + spec.outflow_from ex_estoque X 10 200)%Q
       ∧ (eval X (constr_rhs c)
          == inject_Z (spec.initial_stock ex_estoque 10 200)
             + spec.inflow_to ex_estoque X 10 200)%Q)
  ∧ ((10, 200) ∉ (λ r, (est_cod_dep r, est_cod_mat r)) <$> ex_estoque →
     constant (constr_rhs c) = 0).
Proof.
  intros c. apply (mass_balance_form ex_estoque ex_obras c 200 10).
  - vm_compute. elem_of_enum.
  - reflexivity.
Defined.

(** * The priorities and the objective *)

Section objective_facts.
Variables (estoque : list EstoqueRow) (obras : list ObraRow).
Local Abbreviation s := (define_sets estoque obras).
Local Abbreviation p := (define_parameters estoque obras).
Local Abbreviation v := (created_vars estoque obras).

Lemma lookup_w i : params.w p !! i = prioridade <$> w_row obras i.
Proof. unfold define_parameters. simpl. apply lookup_to_dict. Qed.

Lemma w_row_Some i :
  i ∈ obra <$> obras →
  ∃ r, w_row obras i = Some r ∧ r ∈ obras ∧ obra r = i.
Proof.
  intros Hi. unfold w_row.
  pose proof (elem_of_drop_duplicates_fmap fst
                (λ r, (obra r, prioridade r)) obras i) as Hdd.
  simpl in Hdd. apply Hdd, list_elem_of_fmap in Hi as (r0 & -> & Hr0).
  destruct (last _) as [r|] eqn:Hl.
  - exists r. split; [done|].
    apply last_Some_elem_of, list_elem_of_filter in Hl as [Hr Hin].
    split; [by eapply drop_duplicates_subseteq|done].
  - apply last_None in Hl.
    eapply (filter_nil_not_elem_of _ _ r0) in Hl; done.
Qed.

Lemma priority_expr_closed :
  priority_expr s p v = Ok (priority_objective obras).
Proof.
  unfold priority_expr.
  rewrite (mapM_Ok _ (λ i, (λ j, var_times (x_var i j) (w_of obras i))
                             <$> J_of obras i)); [reflexivity|].
  intros i Hi. apply elem_of_sets_I in Hi.
  unfold getitem. rewrite lookup_J_i, decide_True by done.
  result_simpl. apply mapM_Ok. intros j Hj. apply elem_of_J_of in Hj.
  unfold tupledict_getitem.
  rewrite decide_True by (by apply elem_of_x_domain). result_simpl.
  rewrite lookup_w. unfold w_of.
  by destruct (w_row_Some i Hi) as (r & -> & _).
Qed.

Lemma set_obj_priority_run mdl :
  set_obj_priority s p v mdl
  = (mkModel (model_vars mdl) (model_constrs mdl)
       (Some (priority_objective obras, MAXIMIZE)), Ok ()).
Proof.
  unfold set_obj_priority. st_unfold. by rewrite priority_expr_closed.
Qed.

Lemma eval_priority_objective X :
  (eval X (priority_objective obras)
   == sumQ ((λ k, X (x_var k.1 k.2) * inject_Z (w_of obras k.1))
              <$> x_domain obras))%Q.
Proof.
  unfold priority_objective, x_domain.
  induction (unique (obra <$> obras)) as [|i l IH].
  - apply eval_of_num.
  - rewrite !fmap_cons.
    change (mjoin (?a :: ?ls)) with (a ++ mjoin ls).
    rewrite eval_quicksum_app, fmap_app, sumQ_app, IH.
    apply Qplus_comp; [|reflexivity].
    rewrite eval_quicksum, <- !list_fmap_compose.
    apply sumQ_fmap_ext. intros j _. apply eval_var_times.
Qed.
End objective_facts.

(** * When building succeeds *)

Lemma add_constrs_nil mdl : add_constrs mdl [] = mdl.
Proof. unfold add_constrs. rewrite app_nil_r. by destruct mdl. Qed.

Lemma add_constrs_app mdl cs1 cs2 :
  add_constrs (add_constrs mdl cs1) cs2 = add_constrs mdl (cs1 ++ cs2).
Proof. unfold add_constrs. simpl. by rewrite app_assoc. Qed.

Lemma bind_singleton_fmap {A B} (f : A → B) (l : list A) :
  l ≫= (λ a, [f a]) = f <$> l.
Proof.
  induction l as [|a l IH]; [done|]. by rewrite fmap_cons, bind_cons, IH.
Qed.

Lemma for_each_add_constrs {A} (l : list A) (body : A → ST Model ())
    (cs : A → list Constr) :
  (∀ a mdl, a ∈ l → body a mdl = (add_constrs mdl (cs a), Ok ())) →
  ∀ mdl, for_each l body mdl = (add_constrs mdl (l ≫= cs), Ok ()).
Proof.
  induction l as [|a l IH]; intros Hbody mdl.
  - simpl. by rewrite add_constrs_nil.
  - simpl. st_unfold. rewrite Hbody by left.
    rewrite IH by (intros; apply Hbody; by right).
    by rewrite add_constrs_app.
Qed.

Lemma for_each_result_cases {S A} (l : list A) (body : A → ST S ()) e :
  (∀ a s, a ∈ l → (body a s).2 = Ok () ∨ (body a s).2 = Raise e) →
  ∀ s, (for_each l body s).2 = Ok () ∨ (for_each l body s).2 = Raise e.
Proof.
  induction l as [|a l IH]; intros Hbody s; simpl; [by left|].
  st_unfold. pose proof (Hbody a s ltac:(left)) as Ha.
  destruct (body a s) as [s' [[]|e']]; simpl in *.
  - apply IH. intros. apply Hbody. by right.
  - destruct Ha as [|Ha]; [done|]. by right.
Qed.

Section build_success.
Variables (estoque : list EstoqueRow) (obras : list ObraRow).
Local Abbreviation s := (define_sets estoque obras).
Local Abbreviation p := (define_parameters estoque obras).
Local Abbreviation v := (created_vars estoque obras).

Lemma stock_balance_run m j mdl :
  m ∈ sets.M s → j ∈ sets.J s →
  stock_balance s p v m j mdl
  = if decide (j ∈ cod_dep <$> obras)
    then (add_constrs mdl [stock_balance_constr estoque obras m j], Ok ())
    else (mdl, Raise KeyError).
Proof.
  intros Hm Hj. unfold stock_balance. st_unfold.
  rewrite consumption_closed, outflow_closed, inflow_closed by done.
  case_decide; [|done]. by rewrite get_Q.
Qed.

Lemma stock_balance_loop_cases mdl :
  let r := for_each (sets.M s) (λ m,
             for_each (sets.J s) (λ j, stock_balance s p v m j)) mdl in
  r.2 = Ok () ∨ r.2 = Raise KeyError.
Proof.
  apply for_each_result_cases. intros m mdl1 Hm.
  apply for_each_result_cases. intros j mdl2 Hj.
  rewrite stock_balance_run by done. case_decide; [by left|by right].
Qed.

Lemma stock_balance_loop_Ok mdl :
  sites_covered estoque obras →
  for_each (sets.M s) (λ m,
    for_each (sets.J s) (λ j, stock_balance s p v m j)) mdl
  = (add_constrs mdl
       (m ← sets.M s; stock_balance_constr estoque obras m <$> sets.J s),
     Ok ()).
Proof.
  intros Hcov. apply for_each_add_constrs. intros m mdl1 Hm.
  rewrite (for_each_add_constrs _ _
             (λ j, [stock_balance_constr estoque obras m j])).
  - by rewrite bind_singleton_fmap.
  - intros j mdl2 Hj. rewrite stock_balance_run by done.
    rewrite decide_True; [done|]. apply Hcov.
    by apply elem_of_sets_J in Hj.
Qed.

Lemma stock_balance_loop_Ok_inv mdl mdl' :
  for_each (sets.M s) (λ m,
    for_each (sets.J s) (λ j, stock_balance s p v m j)) mdl
  = (mdl', Ok ()) →
  sites_covered estoque obras.
Proof.
  intros Hrun j Hj.
  apply list_elem_of_fmap in Hj as (r & -> & Hr).
  assert (est_cod_mat r ∈ sets.M s) as Hm.
  { apply elem_of_sets_M. by apply list_elem_of_fmap_2. }
  assert (est_cod_dep r ∈ sets.J s) as Hj.
  { apply elem_of_sets_J. by apply list_elem_of_fmap_2. }
  destruct (for_each_Ok_inv _ _ _ _ Hrun _ Hm) as (m1 & m2 & Hinner).
  destruct (for_each_Ok_inv _ _ _ _ Hinner _ Hj) as (m3 & m4 & Hbody).
  rewrite stock_balance_run in Hbody by done.
  by case_decide.
Qed.

Lemma create_constraints_unfold mdl :
  create_constraints s p v mdl
  = for_each (sets.M s) (λ m,
      for_each (sets.J s) (λ j, stock_balance s p v m j))
      (add_constrs mdl (one_execution_constr obras <$> sets.I s)).
Proof.
  unfold create_constraints. unfold mbind at 1. unfold ST_bind.
  rewrite one_execution_loop by (intros i Hi; by apply elem_of_sets_I in Hi).
  reflexivity.
Qed.

(** Building succeeds exactly when every site of the stock relation has a
    task row; it then yields the full model, and otherwise stops on a
    [KeyError]. *)
Lemma build_model_cases :
  (sites_covered estoque obras
   ∧ build_model estoque obras new_model
     = (mkModel (declared_vars estoque obras) (built_constrs estoque obras)
          (Some (priority_objective obras, MAXIMIZE)), Ok v))
  ∨ (¬ sites_covered estoque obras
     ∧ (build_model estoque obras new_model).2 = Raise KeyError
     ∧ model_objective (build_model estoque obras new_model).1 = None).
Proof.
  rewrite build_model_unfold, create_constraints_unfold.
  set (mdl1 := add_constrs _ _).
  pose proof (stock_balance_loop_cases mdl1) as Hcases.
  pose proof (stock_balance_loop estoque obras mdl1) as (_ & Hobj & _).
  cbv zeta in Hcases.
  destruct (for_each (sets.M s) _ mdl1) as [mdl2 [[]|e]] eqn:Hloop.
  - left. pose proof (stock_balance_loop_Ok_inv _ _ Hloop) as Hcov.
    split; [done|]. rewrite stock_balance_loop_Ok in Hloop by done.
    injection Hloop as <-. rewrite set_obj_priority_run. done.
  - right. cbn [fst snd] in *. destruct Hcases as [|[= ->]]; [done|].
    split; [|done]. intros Hcov.
    rewrite stock_balance_loop_Ok in Hloop by done. done.
Qed.
End build_success.

(** * The assignment constraints *)

Lemma sumQ_cons a l : sumQ (a :: l) = (a + sumQ l)%Q.
Proof. reflexivity. Qed.

Lemma sumQ_nonneg {A} (f : A → Q) (l : list A) :
  (∀ x, x ∈ l → (0 <= f x)%Q) → (0 <= sumQ (f <$> l))%Q.
Proof.
  induction l as [|c l IH]; intros Hf; [done|].
  rewrite fmap_cons, sumQ_cons. pose proof (Hf c ltac:(left)).
  pose proof (IH (λ x Hx, Hf x ltac:(by right))). lra.
Qed.

Lemma sumQ_ge_one {A} (f : A → Q) (l : list A) a :
  (∀ x, x ∈ l → (0 <= f x)%Q) → a ∈ l → (f a <= sumQ (f <$> l))%Q.
Proof.
  induction l as [|c l IH]; intros Hf Ha; [by apply elem_of_nil in Ha|].
  rewrite fmap_cons, sumQ_cons. pose proof (Hf c ltac:(left)).
  pose proof (sumQ_nonneg f l (λ x Hx, Hf x ltac:(by right))).
  apply elem_of_cons in Ha as [->|Ha]; [lra|].
  pose proof (IH (λ x Hx, Hf x ltac:(by right)) Ha). lra.
Qed.

Lemma sumQ_ge_two {A} (f : A → Q) (l : list A) a b :
  (∀ x, x ∈ l → (0 <= f x)%Q) → a ∈ l → b ∈ l → a ≠ b →
  (f a + f b <= sumQ (f <$> l))%Q.
Proof.
  induction l as [|c l IH]; intros Hf Ha Hb Hne; [by apply elem_of_nil in Ha|].
  rewrite fmap_cons, sumQ_cons. pose proof (Hf c ltac:(left)).
  assert (∀ x, x ∈ l → (0 <= f x)%Q) as Hf' by (intros; apply Hf; by right).
  apply elem_of_cons in Ha as [->|Ha]; apply elem_of_cons in Hb as [->|Hb].
  - done.
  - pose proof (sumQ_ge_one f l b Hf' Hb). lra.
  - pose proof (sumQ_ge_one f l a Hf' Ha). lra.
  - pose proof (IH Hf' Ha Hb Hne). lra.
Qed.

Lemma filter_one_execution obras (l : list Z) i :
  NoDup l → i ∈ l →
  filter (λ c, constr_name c = C1_OneExecution i)
    (one_execution_constr obras <$> l)
  = [one_execution_constr obras i].
Proof.
  induction 1 as [|a l Ha Hl IH]; intros Hi; [by apply elem_of_nil in Hi|].
  rewrite fmap_cons, filter_cons. simpl.
  destruct (decide (a = i)) as [->|Hne].
  - rewrite decide_True by done. f_equal.
    apply elem_of_nil_inv. intros c Hc.
    apply list_elem_of_filter in Hc as [Hn Hc].
    apply list_elem_of_fmap in Hc as (a' & -> & Ha'). simpl in Hn.
    congruence.
  - rewrite decide_False by congruence. apply IH.
    apply elem_of_cons in Hi as [|]; [congruence|done].
Qed.

Lemma filter_stock_balance estoque obras (extra : list Constr) i :
  Forall (is_stock_balance estoque obras) extra →
  filter (λ c, constr_name c = C1_OneExecution i) extra = [].
Proof.
  intros Hex. apply elem_of_nil_inv. intros c Hc.
  apply list_elem_of_filter in Hc as [Hn Hc].
  rewrite Forall_forall in Hex.
  destruct (Hex c Hc) as (m & j & ? & ? & ? & _ & _ & _ & _ & _ & ->).
  discriminate Hn.
Qed.

(** C3.  For every task [i] of the derived task set the model holds exactly
    one assignment constraint: the sum over the candidate sites [j] of
    [J_i[i]] of [x[i,j]] is at most 1.  Hence in every feasible solution the
    task is executed at one candidate site at most. *)
Theorem one_assignment_constraint_per_task estoque obras i :
  i ∈ sets.I (define_sets estoque obras) →
  ∃ Ji,
    sets.J_i (define_sets estoque obras) !! i = Some Ji
    ∧ filter (λ c, constr_name c = C1_OneExecution i)
        (model_constrs (build_model estoque obras new_model).1)
      = [mkConstr (C1_OneExecution i)
           (mkLinExpr ((λ j, (1, x_var i j)) <$> Ji) 0)
           LessEqual (mkLinExpr [] 1)]
    ∧ ∀ X, feasible (build_model estoque obras new_model).1 X →
        (sumQ ((λ j, X (x_var i j)) <$> Ji) <= 1)%Q
        ∧ ∀ j1 j2, j1 ∈ Ji → j2 ∈ Ji →
            (X (x_var i j1) == 1)%Q → (X (x_var i j2) == 1)%Q → j1 = j2.
Proof.
  intros Hi. pose proof Hi as Hi'. apply elem_of_sets_I in Hi'.
  exists (J_of obras i). split.
  { rewrite lookup_J_i. by rewrite decide_True. }
  destruct (build_model_constrs estoque obras) as (Hvars & extra & Hcs & Hex).
  assert (filter (λ c, constr_name c = C1_OneExecution i)
            (model_constrs (build_model estoque obras new_model).1)
          = [one_execution_constr obras i]) as Hfilter.
  { rewrite Hcs, filter_app, (filter_stock_balance estoque obras extra) by done.
    rewrite app_nil_r. apply filter_one_execution; [apply NoDup_unique|done]. }
  split.
  { rewrite Hfilter. unfold one_execution_constr.
    rewrite quicksum_vars. reflexivity. }
  intros X [Hbin Hholds].
  assert (∀ j, j ∈ J_of obras i → (X (x_var i j) == 0 ∨ X (x_var i j) == 1)%Q)
    as Hx.
  { intros j Hj. rewrite Forall_forall in Hbin.
    apply (Hbin (mkVarDecl (x_var i j) BINARY 0)).
    rewrite Hvars. apply elem_of_app. left.
    apply list_elem_of_fmap. exists (i, j). split; [done|].
    by apply elem_of_x_domain, elem_of_J_of. }
  assert (sumQ ((λ j, X (x_var i j)) <$> J_of obras i) <= 1)%Q as Hsum.
  { rewrite Forall_forall in Hholds.
    assert (one_execution_constr obras i
            ∈ model_constrs (build_model estoque obras new_model).1) as Hin.
    { rewrite Hcs. apply elem_of_app. left. by apply list_elem_of_fmap_2. }
    apply Hholds in Hin. unfold holds in Hin. simpl in Hin.
    by rewrite eval_quicksum_vars, eval_of_num in Hin. }
  split; [done|]. intros j1 j2 Hj1 Hj2 H1 H2.
  destruct (decide (j1 = j2)) as [|Hne]; [done|]. exfalso.
  pose proof (sumQ_ge_two (λ j, X (x_var i j)) (J_of obras i) j1 j2) as Hge.
  simpl in Hge. rewrite H1, H2 in Hge.
  assert (1 + 1 <= sumQ ((λ j, X (x_var i j)) <$> J_of obras i))%Q.
  { apply Hge; [|done..]. intros j Hj. destruct (Hx j Hj) as [->| ->]; lra. }
  lra.
Qed.

Lemma one_assignment_constraint_per_task_witness :
  ∃ Ji,
    sets.J_i (define_sets ex_estoque ex_obras) !! 1 = Some Ji
    ∧ filter (λ c, constr_name c = C1_OneExecution 1)
        (model_constrs (build_model ex_estoque ex_obras new_model).1)
      = [mkConstr (C1_OneExecution 1)
           (mkLinExpr ((λ j, (1, x_var 1 j)) <$> Ji) 0)
           LessEqual (mkLinExpr [] 1)]
    ∧ ∀ X, feasible (build_model ex_estoque ex_obras new_model).1 X →
        (sumQ ((λ j, X (x_var 1 j)) <$> Ji) <= 1)%Q
        ∧ ∀ j1 j2, j1 ∈ Ji → j2 ∈ Ji →
            (X (x_var 1 j1) == 1)%Q → (X (x_var 1 j2) == 1)%Q → j1 = j2.
Proof.
  apply (one_assignment_constraint_per_task ex_estoque ex_obras 1).
  vm_compute. elem_of_enum.
Defined.

(** C2, at a stock relation with a site that no task lists: the site is in
    [J], [I_j] has no entry for it, and building stops on a [KeyError] when
    the loop reaches it, leaving the model without a mass-balance constraint
    for that site. *)
Theorem stock_site_without_tasks_raises :
  30 ∈ sets.J (define_sets ex_estoque_idle ex_obras_one)
  ∧ sets.I_j (define_sets ex_estoque_idle ex_obras_one) !! 30 = None
  ∧ (build_model ex_estoque_idle ex_obras_one new_model).2 = Raise KeyError
  ∧ constr_name
      <$> model_constrs (build_model ex_estoque_idle ex_obras_one new_model).1
    = [C1_OneExecution 1; C2_StockBalance 100 10].
Proof.
  split; [vm_compute; elem_of_enum|]. by vm_compute.
Qed.

(** Whatever the input, a stock site without task rows makes building stop
    on a [KeyError]. *)
Lemma idle_stock_site_gives_KeyError estoque obras j :
  j ∈ est_cod_dep <$> estoque → j ∉ cod_dep <$> obras →
  (build_model estoque obras new_model).2 = Raise KeyError.
Proof.
  intros Hj Hnj.
  destruct (build_model_cases estoque obras) as [[Hcov _]|(_ & Hr & _)];
    [|done].
  destruct Hnj. by apply Hcov.
Qed.

(** A site whose tasks do not need a material still gets its constraint
    for it, with no consumption term. *)
Lemma stock_balance_without_consumption estoque obras m j :
  (∀ i, spec.candidate obras i j → ¬ spec.requires obras i m) →
  terms (constr_lhs (stock_balance_constr estoque obras m j))
  = (λ k, (1, t_var j k m))
      <$> filter (λ k, k ≠ j) (sets.J (define_sets estoque obras)).
Proof.
  intros Hnone. unfold stock_balance_constr. simpl.
  rewrite quicksum_vars. simpl.
  assert (mjoin (consumption_terms obras m j <$> I_of obras j) = []) as ->;
    [|done].
  apply join_nil_2, Forall_fmap, Forall_forall. intros i Hi. simpl.
  unfold consumption_terms. case_decide as Hm; [|done].
  destruct (Hnone i).
  - by apply candidate_iff, elem_of_I_of.
  - by apply requires_iff, elem_of_M_of.
Qed.

(** * The domain of the assignment variables *)

(** C4.  [x] is created over the sparse domain only: creation succeeds, the
    keys are distinct, a pair [(i, j)] is a key exactly when [j] is in
    [J_i[i]], which is exactly when some task row lists site [j] for task
    [i]; the binary variables declared are those of the keys.  The domain is
    not the cross product of the tasks and the sites. *)
Theorem x_created_over_sparse_domain :
  (∀ estoque obras,
     ∃ mdl v,
       create_decision_variables (define_sets estoque obras) new_model
       = (mdl, Ok v)
       ∧ NoDup (vars.x v)
       ∧ (∀ i j, (i, j) ∈ vars.x v
                 ↔ ∃ Ji, sets.J_i (define_sets estoque obras) !! i = Some Ji
                         ∧ j ∈ Ji)
       ∧ (∀ i j, (i, j) ∈ vars.x v
                 ↔ ∃ r, r ∈ obras ∧ obra r = i ∧ cod_dep r = j)
       ∧ (∀ d, d ∈ model_vars mdl ∧ decl_vtype d = BINARY
               ↔ ∃ i j, (i, j) ∈ vars.x v ∧ d = mkVarDecl (x_var i j) BINARY 0))
  ∧ (∃ estoque obras i j,
       i ∈ sets.I (define_sets estoque obras)
       ∧ j ∈ sets.J (define_sets estoque obras)
       ∧ (i, j) ∉ x_domain obras).
Proof.
  split.
  - intros estoque obras. eexists _, _.
    split; [apply create_decision_variables_run|].
    unfold created_vars. cbn [vars.x model_vars new_model app].
    split; [apply NoDup_x_domain|]. split; [|split].
    + intros i j. rewrite elem_of_x_domain. split.
      * intros Hij. exists (J_of obras i). rewrite lookup_J_i.
        rewrite decide_True by (by eapply pair_dep_obra).
        split; [done|]. by apply elem_of_J_of.
      * intros (Ji & HJi & Hj). rewrite lookup_J_i in HJi.
        case_decide; [|done]. injection HJi as <-. by apply elem_of_J_of.
    + intros i j. rewrite elem_of_x_domain, list_elem_of_fmap. naive_solver.
    + intros d. unfold declared_vars. rewrite elem_of_app.
      rewrite !list_elem_of_fmap. split.
      * intros [[(k & -> & Hk)|(k & -> & Hk)] Hbin]; [|done].
        exists k.1, k.2. by destruct k.
      * intros (i & j & Hij & ->). split; [|done]. left. by exists (i, j).
  - exists ex_estoque, ex_obras, 2, 20. vm_compute.
    split; [elem_of_enum|]. split; [elem_of_enum|].
    intros Hin. repeat (apply elem_of_cons in Hin as [[=]|Hin]).
    by apply elem_of_nil in Hin.
Qed.

(** * The objective *)

(** C5.  [set_obj_priority] always succeeds and sets a maximisation
    objective whose value is the sum over the keys [(i, j)] of [x] of
    [x[i,j] * w[i]], with [w[i]] a priority of a row of task [i]; it has no
    other variable than those of [x].  A model built to the end carries this
    objective and no other; a model whose building stopped carries none. *)
Theorem objective_is_priority_sum estoque obras :
  let s := define_sets estoque obras in
  let p := define_parameters estoque obras in
  let v := created_vars estoque obras in
  (∀ mdl, set_obj_priority s p v mdl
          = (mkModel (model_vars mdl) (model_constrs mdl)
               (Some (priority_objective obras, MAXIMIZE)), Ok ()))
  ∧ (∀ X, (eval X (priority_objective obras)
           == sumQ ((λ k, X (x_var k.1 k.2) * inject_Z (get (params.w p) k.1 0%Z))
                      <$> vars.x v))%Q)
  ∧ (∀ i j, (i, j) ∈ vars.x v →
            ∃ r, r ∈ obras ∧ obra r = i
                 ∧ params.w p !! i = Some (prioridade r))
  ∧ (∀ c x, (c, x) ∈ terms (priority_objective obras) →
            ∃ i j, x = x_var i j ∧ (i, j) ∈ vars.x v)
  ∧ match build_model estoque obras new_model with
    | (mdl, Ok v') =>
        v' = v
        ∧ model_objective mdl = Some (priority_objective obras, MAXIMIZE)
    | (mdl, Raise _) => model_objective mdl = None
    end.
Proof.
  intros s p v. split; [apply set_obj_priority_run|].
  assert (∀ i j, (i, j) ∈ vars.x v →
            ∃ r, r ∈ obras ∧ obra r = i
                 ∧ params.w p !! i = Some (prioridade r)) as Hw.
  { intros i j Hij. apply elem_of_x_domain, pair_dep_obra in Hij.
    destruct (w_row_Some obras i Hij) as (r & Hr & Hin & Hi).
    exists r. subst p. rewrite lookup_w, Hr. done. }
  split; [|split; [done|split]].
  - intros X. rewrite eval_priority_objective. apply sumQ_fmap_ext.
    intros [i j] Hij. cbn [fst snd].
    destruct (Hw i j Hij) as (r & _ & _ & Hr).
    unfold get. rewrite Hr. subst p. rewrite lookup_w in Hr.
    unfold w_of. destruct (w_row obras i); [|done].
    simpl in Hr. injection Hr as Hr. simpl. by rewrite Hr.
  - intros c x. unfold priority_objective.
    assert (∀ es, terms (quicksum es) = es ≫= terms) as Hterms.
    { induction es as [|e es IH]; [done|]. simpl. by rewrite IH. }
    rewrite Hterms. intros Hin.
    apply list_elem_of_bind in Hin as (e & Hin & He).
    apply list_elem_of_join in He as (es & He & Hes).
    apply list_elem_of_fmap in Hes as (i & -> & Hi).
    apply list_elem_of_fmap in He as (j & -> & Hj).
    apply list_elem_of_singleton in Hin as [= -> ->].
    exists i, j. split; [done|]. apply elem_of_x_domain. by apply elem_of_J_of.
  - destruct (build_model_cases estoque obras) as [[_ ->]|(_ & Hr & Ho)];
      [done|].
    destruct (build_model estoque obras new_model) as [mdl [v'|e]]; done.
Qed.

Lemma objective_is_priority_sum_witness :
  model_objective (build_model ex_estoque ex_obras new_model).1
  = Some (priority_objective ex_obras, MAXIMIZE).
Proof.
  pose proof (objective_is_priority_sum ex_estoque ex_obras) as H.
  cbv zeta in H. destruct H as (_ & _ & _ & _ & H).
  destruct (build_model ex_estoque ex_obras new_model) as [mdl [v|e]] eqn:E.
  - exact (proj2 H).
  - vm_compute in E. discriminate E.
Defined.

(** * Conflicting priorities *)

(** C6 fails: with two priorities for task 1 the parameters are built, [w]
    holds one of them, and the model is built to the end. *)
Lemma conflicting_priorities_not_rejected :
  conflicting_priorities ex_obras_conflict
  ∧ params.w (define_parameters ex_estoque_two ex_obras_conflict) !! 1
    = Some 7
  ∧ ¬ aborts_before_model_construction ex_estoque_two ex_obras_conflict
  ∧ (build_model ex_estoque_two ex_obras_conflict new_model).2
    = Ok (created_vars ex_estoque_two ex_obras_conflict).
Proof.
  split.
  { exists (mkObra 1 10 5 100 4), (mkObra 1 20 7 100 4).
    split; [elem_of_enum|]. split; [elem_of_enum|]. done. }
  split; [by vm_compute|]. split; [|by vm_compute].
  intros [e He]. vm_compute in He. discriminate He.
Qed.

(** C6, amended.  When two rows give a task different priorities, building
    the parameters raises nothing: [w] holds for the task the priority of
    the last row that the deduplication on (task, priority) keeps for it,
    and the model is constructed, with the variables declared and the
    assignment constraint of the task in it. *)
Theorem conflicting_priorities_resolved_silently estoque obras r1 r2 :
  r1 ∈ obras → r2 ∈ obras →
  obra r1 = obra r2 → prioridade r1 ≠ prioridade r2 →
  ∃ r,
    last (filter (λ r', obra r' = obra r1)
            (drop_duplicates (λ r', (obra r', prioridade r')) obras))
    = Some r
    ∧ r ∈ obras ∧ obra r = obra r1
    ∧ params.w (define_parameters estoque obras) !! obra r1
      = Some (prioridade r)
    ∧ model_vars (build_model estoque obras new_model).1
      = declared_vars estoque obras
    ∧ one_execution_constr obras (obra r1)
      ∈ model_constrs (build_model estoque obras new_model).1.
Proof.
  intros Hr1 _ _ _.
  assert (obra r1 ∈ obra <$> obras) as Hi by (by apply list_elem_of_fmap_2).
  destruct (w_row_Some obras _ Hi) as (r & Hr & Hin & Hobra).
  exists r. split; [exact Hr|]. split; [done|]. split; [done|].
  split; [by rewrite lookup_w, Hr|].
  destruct (build_model_constrs estoque obras) as (Hv & extra & Hcs & _).
  split; [done|]. rewrite Hcs. apply elem_of_app. left.
  apply list_elem_of_fmap_2. by apply elem_of_sets_I.
Qed.

Lemma conflicting_priorities_resolved_silently_witness :
  ∃ r,
    last (filter (λ r', obra r' = 1)
            (drop_duplicates (λ r', (obra r', prioridade r'))
               ex_obras_conflict))
    = Some r
    ∧ r ∈ ex_obras_conflict ∧ obra r = 1
    ∧ params.w (define_parameters ex_estoque_two ex_obras_conflict) !! 1
      = Some (prioridade r)
    ∧ model_vars (build_model ex_estoque_two ex_obras_conflict new_model).1
      = declared_vars ex_estoque_two ex_obras_conflict
    ∧ one_execution_constr ex_obras_conflict 1
      ∈ model_constrs
          (build_model ex_estoque_two ex_obras_conflict new_model).1.
Proof.
  apply (conflicting_priorities_resolved_silently ex_estoque_two
           ex_obras_conflict (mkObra 1 10 5 100 4) (mkObra 1 20 7 100 4)).
  - elem_of_enum.
  - elem_of_enum.
  - reflexivity.
  - simpl. lia.
Defined.

(** * Result extraction *)

Lemma join_conditional_singletons {A} (b : A → bool) (l : list A) :
  mjoin ((λ k, if b k then [k] else []) <$> l) = filter (λ k, b k = true) l.
Proof.
  induction l as [|a l IH]; [done|].
  rewrite fmap_cons, filter_cons.
  change (mjoin (?x :: ?ls)) with (x ++ mjoin ls). rewrite IH.
  destruct (b a); [by rewrite decide_True|by rewrite decide_False].
Qed.

Lemma vars_x_on_Solved v X :
  vars_x_on v (Solved X)
  = Ok (filter (λ k, isclose (X (x_of k)) 1 = true) (vars.x v)).
Proof.
  unfold vars_x_on.
  rewrite (mapM_Ok _ (λ k, if isclose (X (x_of k)) 1 then [k] else []));
    [|done].
  result_simpl. by rewrite (join_conditional_singletons
                             (λ k, isclose (X (x_of k)) 1)).
Qed.

Lemma vars_x_on_NoSolution v st :
  vars.x v ≠ [] → vars_x_on v (NoSolution st) = Raise AttributeError.
Proof. unfold vars_x_on. by destruct (vars.x v). Qed.

Lemma NoDup_fmap_eq {A B} (f : A → B) (l : list A) a b :
  NoDup (f <$> l) → a ∈ l → b ∈ l → f a = f b → a = b.
Proof.
  induction l as [|c l IH]; intros Hnd Ha Hb Hf;
    [by apply elem_of_nil in Ha|].
  rewrite fmap_cons in Hnd. apply NoDup_cons in Hnd as [Hc Hnd].
  apply elem_of_cons in Ha as [->|Ha]; apply elem_of_cons in Hb as [->|Hb].
  - done.
  - destruct Hc. rewrite Hf. by apply list_elem_of_fmap_2.
  - destruct Hc. rewrite <- Hf. by apply list_elem_of_fmap_2.
  - by apply IH.
Qed.

Section merge_facts.
Variable obras : list ObraRow.

Lemma elem_of_triples i j w :
  (i, j, w) ∈ triples obras
  ↔ ∃ r, r ∈ obras ∧ obra r = i ∧ cod_dep r = j ∧ prioridade r = w.
Proof.
  unfold triples. rewrite elem_of_unique, list_elem_of_fmap.
  naive_solver.
Qed.

(** The keys of the left side are unique exactly when every (task, site)
    pair has one priority. *)
Lemma NoDup_left_keys :
  NoDup ((λ l : Z * Z * Z, (l.1.2, l.1.1)) <$> triples obras)
  ↔ priority_per_pair obras.
Proof.
  split.
  - intros Hnd r1 r2 Hr1 Hr2 Hi Hj.
    assert ((obra r1, cod_dep r1, prioridade r1)
            = (obra r2, cod_dep r2, prioridade r2)) as [=]; [|done].
    eapply (NoDup_fmap_eq _ _ _ _ Hnd).
    + apply elem_of_triples. by exists r1.
    + apply elem_of_triples. by exists r2.
    + simpl. congruence.
  - intros Hfun. apply NoDup_fmap_2_strong; [|apply NoDup_unique].
    intros [[i1 j1] w1] [[i2 j2] w2] H1 H2 [= -> ->].
    apply elem_of_triples in H1 as (r1 & ? & ? & ? & ?).
    apply elem_of_triples in H2 as (r2 & ? & ? & ? & ?).
    f_equal. subst. apply Hfun; congruence.
Qed.

Lemma NoDup_right_keys (on : list (Z * Z)) :
  NoDup on →
  NoDup ((λ r, (ox_cod_dep r, ox_obra r)) <$> output_X on).
Proof.
  intros Hon. unfold output_X. rewrite <- list_fmap_compose.
  apply NoDup_fmap_2; [|done]. intros [i1 j1] [i2 j2] [=]. by subst.
Qed.

Lemma filter_output_X (on : list (Z * Z)) i j :
  NoDup on →
  filter (λ r, (ox_cod_dep r, ox_obra r) = (j, i)) (output_X on)
  = if decide ((i, j) ∈ on) then [mkOutputX i j 1] else [].
Proof.
  unfold output_X. induction 1 as [|[i' j'] on Hk Hon IH]; [done|].
  rewrite fmap_cons, filter_cons, IH. simpl.
  destruct (decide ((i', j') = (i, j))) as [[= -> ->]|Hne].
  - rewrite decide_True by done. rewrite decide_False by done.
    by rewrite decide_True by left.
  - rewrite decide_False by (intros [=]; by subst).
    destruct (decide ((i, j) ∈ on)).
    + by rewrite decide_True by (by right).
    + rewrite decide_False; [done|].
      rewrite elem_of_cons. naive_solver.
Qed.

Lemma triples_nonempty : obras ≠ [] → triples obras ≠ [].
Proof. unfold triples. by destruct obras. Qed.

(** The rows the merge returns: every left row with the flag 1 when its
    pair is marked, with no value when it is not. *)
Lemma merged_rows (on : list (Z * Z)) (left : list (Z * Z * Z)) :
  NoDup on →
  (l ← left;
   match filter (λ r, (ox_cod_dep r, ox_obra r) = (l.1.2, l.1.1))
           (output_X on) with
   | [] => [(l, None)]
   | ms => (λ r, (l, Some (ox_obra_atendida r))) <$> ms
   end)
  = (λ l : Z * Z * Z,
       (l, if decide ((l.1.1, l.1.2) ∈ on) then Some 1 else None)) <$> left.
Proof.
  intros Hon. induction left as [|[[i j] w] l IH]; [done|].
  rewrite bind_cons, IH, fmap_cons. cbn [fst snd].
  rewrite filter_output_X by done. by case_decide.
Qed.

Lemma real_output_closed (on : list (Z * Z)) :
  NoDup on → obras ≠ [] →
  real_output obras (output_X on)
  = if decide (priority_per_pair obras)
    then Ok (reconciled obras on) else Raise MergeError.
Proof.
  intros Hon Hne. unfold real_output, merge_left_1_1.
  change (drop_duplicates id ?l) with (unique l). fold (triples obras).
  rewrite decide_False by (intros [Ht _]; by apply triples_nonempty in Ht).
  destruct (decide (priority_per_pair obras)) as [Hfun|Hfun].
  - rewrite decide_True
      by (split; [by apply NoDup_left_keys|by apply NoDup_right_keys]).
    result_simpl. rewrite merged_rows by done. f_equal. unfold reconciled.
    rewrite <- list_fmap_compose.
    assert (bool_decide (Exists (λ row : Z * Z * Z * option Z, row.2 = None)
              ((λ l : Z * Z * Z,
                  (l, if decide ((l.1.1, l.1.2) ∈ on) then Some 1 else None))
                 <$> triples obras))
            = bool_decide (Exists (λ l : Z * Z * Z, (l.1.1, l.1.2) ∉ on)
                             (triples obras))) as ->.
    { apply bool_decide_ext. rewrite Exists_fmap, !Exists_exists.
      split; intros (l & Hl & Hl'); exists l; (split; [done|]).
      - cbn [compose snd] in Hl'. by case_decide.
      - cbn [compose snd]. by rewrite decide_False. }
    apply list_fmap_ext. intros n l _. cbn [fst snd compose].
    by case_decide.
  - rewrite decide_False; [done|].
    intros [Hl _]. by apply NoDup_left_keys in Hl.
Qed.
End merge_facts.


Section generate_results_facts.
Variables (estoque : list EstoqueRow) (obras : list ObraRow).
Local Abbreviation v := (created_vars estoque obras).

Lemma elem_of_marked X i j : (i, j) ∈ marked obras X ↔ selected obras X i j.
Proof. unfold marked, selected. rewrite list_elem_of_filter. naive_solver. Qed.

Lemma NoDup_marked X : NoDup (marked obras X).
Proof. apply NoDup_filter, NoDup_x_domain. Qed.

Lemma generate_results_Solved X fs :
  obras ≠ [] →
  generate_results obras v (Solved X) fs
  = if decide (priority_per_pair obras)
    then (fs ++ [output_var_X_csv (output_X (marked obras X));
                 output_agrupado_csv (grouped (reconciled obras (marked obras X)))],
          Ok ())
    else (fs ++ [output_var_X_csv (output_X (marked obras X))], Raise MergeError).
Proof.
  intros Hne. unfold generate_results. st_unfold. unfold to_csv.
  rewrite vars_x_on_Solved. fold (marked obras X).
  rewrite real_output_closed by (done || apply NoDup_marked).
  case_decide; [|done]. by rewrite <- app_assoc.
Qed.

Lemma generate_results_NoSolution st fs :
  obras ≠ [] →
  generate_results obras v (NoSolution st) fs = (fs, Raise AttributeError).
Proof.
  intros Hne. unfold generate_results. st_unfold.
  rewrite vars_x_on_NoSolution; [done|].
  destruct obras as [|r l]; [done|]. simpl.
  apply (elem_of_not_nil (obra r, cod_dep r)), elem_of_x_domain. left.
Qed.
End generate_results_facts.

(** C7, at a stock relation whose model has no feasible solution: whatever
    the terminal status the solver reports, [run] goes on to
    [generate_results], the first read of a value of [x] raises, and the run
    ends in that exception, having written no file. *)
Theorem infeasible_run_ends_in_exception :
  (∀ X, ¬ feasible (build_model ex_estoque_negative ex_obras_one new_model).1 X)
  ∧ ∀ st,
      run (λ _, NoSolution st) ex_estoque_negative ex_obras_one
      = (mkWorld (build_model ex_estoque_negative ex_obras_one new_model).1 [],
         Raise AttributeError).
Proof.
  split; [|by intros st; vm_compute].
  assert ((build_model ex_estoque_negative ex_obras_one new_model).1
          = mkModel [mkVarDecl (x_var 1 10) BINARY 0]
              [mkConstr (C1_OneExecution 1) (mkLinExpr [(1, x_var 1 10)] 0)
                 LessEqual (mkLinExpr [] 1);
               mkConstr (C2_StockBalance 100 10)
                 (mkLinExpr [(4, x_var 1 10)] 0)
                 LessEqual (mkLinExpr [] (-1))]
              (Some (mkLinExpr [(5, x_var 1 10)] 0, MAXIMIZE))) as ->
    by (vm_compute; reflexivity).
  intros X [Hvars Hconstrs]. simpl in Hvars, Hconstrs.
  apply Forall_cons in Hvars as [Hx _].
  apply Forall_cons in Hconstrs as [_ Hconstrs].
  apply Forall_cons in Hconstrs as [Hc _].
  unfold respects in Hx. unfold holds, eval, sumQ in Hc.
  cbn [decl_vtype decl_var constr_sense constr_lhs constr_rhs terms constant
       fmap list_fmap foldr fst snd inject_Z] in Hx, Hc.
  unfold inject_Z in Hc. destruct Hx as [Hx|Hx]; rewrite Hx in Hc; lra.
Qed.

(** Whatever the input, a run whose solver ends without a solution raises
    on the first read of a value and writes nothing. *)
Lemma run_without_solution optimize estoque obras mdl v st :
  obras ≠ [] →
  build_model estoque obras new_model = (mdl, Ok v) →
  optimize mdl = NoSolution st →
  run optimize estoque obras = (mkWorld mdl [], Raise AttributeError).
Proof.
  intros Hne Hbuild Hopt. unfold run. rewrite Hbuild, Hopt.
  destruct (build_model_cases estoque obras) as [[_ Hb]|(_ & Hb & _)].
  - rewrite Hbuild in Hb. injection Hb as _ ->.
    by rewrite generate_results_NoSolution.
  - by rewrite Hbuild in Hb.
Qed.

(** ** Column arithmetic within its exact range *)

Lemma wrap64_small z : in_int64 z → wrap64 z = z.
Proof. intros Hz. unfold in_int64 in Hz. unfold wrap64. rewrite Z.mod_small; lia. Qed.

Lemma round53_small z : Z.abs z ≤ 2 ^ 53 → round53 z = z.
Proof.
  intros Hz. unfold round53.
  destruct (Z.ltb_spec (Z.abs z) (2 ^ 53)) as [|Hge]; [done|].
  assert (z = 2 ^ 53 ∨ z = - 2 ^ 53) as [-> | ->] by lia; by vm_compute.
Qed.

(** Beyond the exact range: two quantities of 2^62 add up to -2^63 in an
    [int64] column; 2^53 + 1 is no [float64] and becomes 2^53, 2^53 + 3
    becomes 2^53 + 4, and the largest [int64] becomes 2^63; the compensated
    sum of 2^53, 1 and 1 is 2^53 + 2, where adding one by one would stay at
    2^53. *)
Lemma column_arithmetic_beyond_exact_range :
  sum_int64 [2 ^ 62; 2 ^ 62] = - 2 ^ 63
  ∧ round53 (2 ^ 53 + 1) = 2 ^ 53
  ∧ round53 (2 ^ 53 + 3) = 2 ^ 53 + 4
  ∧ round53 (2 ^ 63 - 1) = 2 ^ 63
  ∧ sum_float64 [2 ^ 53; 1; 1] = 2 ^ 53 + 2
  ∧ fadd (fadd (2 ^ 53) 1) 1 = 2 ^ 53.
Proof. by vm_compute. Qed.

(** A served flag times a priority of at most 2^53 in absolute value is
    exact in both column types. *)
Lemma served_priority_exact as_float atendida w :
  atendida = 0 ∨ atendida = 1 → Z.abs w ≤ 2 ^ 53 →
  served_priority as_float atendida w = atendida * w.
Proof.
  intros Hflag Hw. unfold served_priority, fmul.
  assert (Z.abs (atendida * w) ≤ 2 ^ 53) as Hprod by (destruct Hflag; subst; lia).
  destruct as_float.
  - by rewrite (round53_small w), round53_small.
  - apply wrap64_small. unfold in_int64. lia.
Qed.

(** * The reconciled table *)

(** C8 fails as stated: with task 1 listed twice at site 10, with
    priorities 5 and 7, the solution [x[1,10] = 1] marks exactly one site
    per task, yet there is no reconciled table: the one-to-one merge
    raises, after the file of the marked keys has been written. *)
Lemma round_trip_needs_one_priority_per_pair :
  (∀ i, i ∈ obra <$> ex_obras_twice →
        ∃ j, selected ex_obras_twice (λ _, 1%Q) i j
             ∧ ∀ j', selected ex_obras_twice (λ _, 1%Q) i j' → j' = j)
  ∧ vars_x_on (created_vars ex_estoque_one ex_obras_twice)
      (Solved (λ _, 1%Q)) = Ok [(1, 10)]
  ∧ real_output ex_obras_twice (output_X [(1, 10)]) = Raise MergeError
  ∧ generate_results ex_obras_twice
      (created_vars ex_estoque_one ex_obras_twice) (Solved (λ _, 1%Q)) []
    = ([output_var_X_csv [mkOutputX 1 10 1]], Raise MergeError).
Proof.
  split; [|by vm_compute].
  intros i Hi. exists 10.
  assert (i = 1) as ->.
  { vm_compute in Hi. repeat (apply elem_of_cons in Hi as [->|Hi]; [done|]).
    by apply elem_of_nil in Hi. }
  split.
  - split; [vm_compute; elem_of_enum|reflexivity].
  - intros j' [Hdom _]. vm_compute in Hdom.
    apply elem_of_cons in Hdom as [[= ->]|Hdom]; [reflexivity|].
    by apply elem_of_nil in Hdom.
Qed.

(** C8, amended.  For a task table with at least one row, in which every
    (task, site) pair has one priority and no priority exceeds 2^53 in
    absolute value, and a solution that marks exactly one site per task:
    result extraction reads the marked keys without error, writes them,
    builds the reconciled table and writes its grouping.  The reconciled
    table has one row per distinct (task, site, priority) triple of the task
    relation, in order; the row of a task is served (1) exactly at the site
    marked for the task and not served (0) at every other site, the marked
    site having a row; and served priority = served * priority. *)
Theorem reconciled_table_round_trip estoque obras (X : Var → Q) :
  obras ≠ [] →
  priority_per_pair obras →
  (∀ r, r ∈ obras → Z.abs (prioridade r) ≤ 2 ^ 53) →
  (∀ i, i ∈ obra <$> obras →
        ∃ j, selected obras X i j ∧ ∀ j', selected obras X i j' → j' = j) →
  ∃ on tbl,
    vars_x_on (created_vars estoque obras) (Solved X) = Ok on
    ∧ (∀ i j, (i, j) ∈ on ↔ selected obras X i j)
    ∧ real_output obras (output_X on) = Ok tbl
    ∧ generate_results obras (created_vars estoque obras) (Solved X) []
      = ([output_var_X_csv (output_X on);
          output_agrupado_csv (grouped tbl)], Ok ())
    ∧ (λ row, (ro_obra row, ro_cod_dep row, ro_prioridade row)) <$> tbl
      = triples obras
    ∧ (∀ i, i ∈ obra <$> obras →
         ∃ j, selected obras X i j
              ∧ (∃ row, row ∈ tbl ∧ ro_obra row = i ∧ ro_cod_dep row = j)
              ∧ ∀ row, row ∈ tbl → ro_obra row = i →
                  (ro_cod_dep row = j → ro_obra_atendida row = 1)
                  ∧ (ro_cod_dep row ≠ j → ro_obra_atendida row = 0))
    ∧ ∀ row, row ∈ tbl →
        ro_prioridade_atendida row = ro_obra_atendida row * ro_prioridade row.
Proof.
  intros Hne Hper Hsmall Hone.
  exists (marked obras X), (reconciled obras (marked obras X)).
  split; [apply vars_x_on_Solved|]. split; [apply elem_of_marked|].
  split; [by rewrite real_output_closed, decide_True
            by (done || apply NoDup_marked)|].
  split; [by rewrite generate_results_Solved, decide_True by done|].
  unfold reconciled. set (as_float := bool_decide _). split; [|split].
  - rewrite <- list_fmap_compose. rewrite <- (list_fmap_id (triples obras)) at 2.
    apply list_fmap_ext. by intros _ [[i j] w] _.
  - intros i Hi. destruct (Hone i Hi) as (j & Hsel & Huniq).
    exists j. split; [done|]. split.
    + destruct Hsel as [Hdom _].
      apply elem_of_x_domain, list_elem_of_fmap in Hdom as (r & [= -> ->] & Hr).
      eexists. split.
      * apply list_elem_of_fmap.
        exists (obra r, cod_dep r, prioridade r). split; [done|].
        apply elem_of_triples. by exists r.
      * done.
    + intros row Hrow Hi'.
      apply list_elem_of_fmap in Hrow as ([[i' j'] w] & -> & _).
      cbn [ro_obra ro_cod_dep ro_obra_atendida fst snd] in *. subst i'.
      split.
      * intros ->. by rewrite decide_True by (by apply elem_of_marked).
      * intros Hj. rewrite decide_False; [done|].
        intros Hm. apply elem_of_marked in Hm. by apply Hj, Huniq.
  - intros row Hrow.
    apply list_elem_of_fmap in Hrow as ([[i j] w] & -> & Hl).
    cbn [ro_prioridade_atendida ro_obra_atendida ro_prioridade fst snd].
    apply elem_of_triples in Hl as (r & Hr & _ & _ & <-).
    apply served_priority_exact; [case_decide; tauto|by apply Hsmall].
Qed.

Lemma reconciled_table_round_trip_witness :
  ∃ on tbl,
    vars_x_on (created_vars ex_estoque ex_obras) (Solved ex_solution) = Ok on
    ∧ (∀ i j, (i, j) ∈ on ↔ selected ex_obras ex_solution i j)
    ∧ real_output ex_obras (output_X on) = Ok tbl
    ∧ generate_results ex_obras (created_vars ex_estoque ex_obras)
        (Solved ex_solution) []
      = ([output_var_X_csv (output_X on);
          output_agrupado_csv (grouped tbl)], Ok ())
    ∧ (λ row, (ro_obra row, ro_cod_dep row, ro_prioridade row)) <$> tbl
      = triples ex_obras
    ∧ (∀ i, i ∈ obra <$> ex_obras →
         ∃ j, selected ex_obras ex_solution i j
              ∧ (∃ row, row ∈ tbl ∧ ro_obra row = i ∧ ro_cod_dep row = j)
              ∧ ∀ row, row ∈ tbl → ro_obra row = i →
                  (ro_cod_dep row = j → ro_obra_atendida row = 1)
                  ∧ (ro_cod_dep row ≠ j → ro_obra_atendida row = 0))
    ∧ ∀ row, row ∈ tbl →
        ro_prioridade_atendida row = ro_obra_atendida row * ro_prioridade row.
Proof.
  apply (reconciled_table_round_trip ex_estoque ex_obras ex_solution).
  - done.
  - intros r1 r2 Hr1 Hr2.
    repeat (apply elem_of_cons in Hr1 as [->|Hr1]);
      try (by apply elem_of_nil in Hr1);
      repeat (apply elem_of_cons in Hr2 as [->|Hr2]);
      try (by apply elem_of_nil in Hr2); by cbn.
  - intros r Hr.
    repeat (apply elem_of_cons in Hr as [->|Hr]; [by vm_compute|]).
    by apply elem_of_nil in Hr.
  - intros i Hi. exists 10.
    assert (i = 1 ∨ i = 2) as [-> | ->].
    { vm_compute in Hi. repeat (apply elem_of_cons in Hi as [->|Hi]; [tauto|]).
      by apply elem_of_nil in Hi. }
    + split.
      * split; [vm_compute; elem_of_enum|reflexivity].
      * intros j' [Hdom Hclose]. vm_compute in Hdom.
        apply elem_of_cons in Hdom as [[= ->]|Hdom]; [reflexivity|].
        apply elem_of_cons in Hdom as [[= ->]|Hdom]; [discriminate Hclose|].
        apply elem_of_cons in Hdom as [[=]|Hdom]. by apply elem_of_nil in Hdom.
    + split.
      * split; [vm_compute; elem_of_enum|reflexivity].
      * intros j' [Hdom Hclose]. vm_compute in Hdom.
        apply elem_of_cons in Hdom as [[=]|Hdom].
        apply elem_of_cons in Hdom as [[=]|Hdom].
        apply elem_of_cons in Hdom as [[= ->]|Hdom]; [reflexivity|].
        by apply elem_of_nil in Hdom.
Defined.

(** C10.  When a (task, site) pair carries two different priorities, the
    parameters are built all the same ([w] has a value for the task), and a
    run that reaches result extraction with a solution fails there: the
    one-to-one merge raises, after the file of the marked keys has been
    written. *)
Theorem conflicting_pair_fails_at_extraction
    optimize estoque obras r1 r2 mdl v X :
  r1 ∈ obras → r2 ∈ obras →
  obra r1 = obra r2 → cod_dep r1 = cod_dep r2 →
  prioridade r1 ≠ prioridade r2 →
  build_model estoque obras new_model = (mdl, Ok v) →
  optimize mdl = Solved X →
  is_Some (params.w (define_parameters estoque obras) !! obra r1)
  ∧ real_output obras (output_X (marked obras X)) = Raise MergeError
  ∧ run optimize estoque obras
    = (mkWorld mdl [output_var_X_csv (output_X (marked obras X))],
       Raise MergeError).
Proof.
  intros Hr1 Hr2 Hi Hj Hw Hbuild Hopt.
  assert (¬ priority_per_pair obras) as Hconf.
  { intros Hfun. by apply Hw, Hfun. }
  assert (obras ≠ []) as Hne by (intros ->; by apply elem_of_nil in Hr1).
  split; [|split].
  - assert (obra r1 ∈ obra <$> obras) as Hin by (by apply list_elem_of_fmap_2).
    destruct (w_row_Some obras _ Hin) as (r & Hr & _).
    rewrite lookup_w, Hr. by eexists.
  - rewrite real_output_closed by (done || apply NoDup_marked).
    by rewrite decide_False.
  - unfold run. rewrite Hbuild, Hopt.
    destruct (build_model_cases estoque obras) as [[_ Hb]|(_ & Hb & _)];
      [|by rewrite Hbuild in Hb].
    rewrite Hbuild in Hb. injection Hb as _ ->.
    rewrite generate_results_Solved, decide_False by done. done.
Qed.

Lemma conflicting_pair_fails_at_extraction_witness :
  is_Some (params.w (define_parameters ex_estoque_one ex_obras_twice) !! 1)
  ∧ real_output ex_obras_twice (output_X (marked ex_obras_twice (λ _, 0%Q)))
    = Raise MergeError
  ∧ run (λ _, Solved (λ _, 0%Q)) ex_estoque_one ex_obras_twice
    = (mkWorld (build_model ex_estoque_one ex_obras_twice new_model).1
         [output_var_X_csv (output_X (marked ex_obras_twice (λ _, 0%Q)))],
       Raise MergeError).
Proof.
  apply (conflicting_pair_fails_at_extraction (λ _, Solved (λ _, 0%Q))
           ex_estoque_one ex_obras_twice
           (mkObra 1 10 5 100 4) (mkObra 1 10 7 100 4)
           (build_model ex_estoque_one ex_obras_twice new_model).1
           (created_vars ex_estoque_one ex_obras_twice) (λ _, 0%Q)).
  - elem_of_enum.
  - elem_of_enum.
  - reflexivity.
  - reflexivity.
  - simpl. lia.
  - vm_compute. reflexivity.
  - reflexivity.
Defined.

(** * Task rows with empty cells *)

Lemma raw_lookup_groupby {R K V} `{Countable K}
    (key : R → option K) (agg : list R → V) (rows : list R) k :
  raw.groupby_agg_dropna key agg rows !! k
  = if decide (Some k ∈ key <$> rows)
    then Some (agg (filter (λ r, key r = Some k) rows)) else None.
Proof.
  unfold raw.groupby_agg_dropna.
  rewrite (lookup_list_to_map_graph
             (λ k, agg (filter (λ r, key r = Some k) rows))).
  assert (k ∈ unique (omap key rows) ↔ Some k ∈ key <$> rows) as Hk.
  { rewrite elem_of_unique, list_elem_of_omap, list_elem_of_fmap.
    naive_solver. }
  destruct (decide (Some k ∈ key <$> rows)).
  - rewrite decide_True; [done|by apply Hk].
  - rewrite decide_False; [done|by rewrite Hk].
Qed.

Section raw_facts.
Variable obras : list raw.ObraCells.

Lemma raw_key_survives (c : option Z) :
  c ∈ raw.obra_cell
        <$> drop_duplicates (λ r, (raw.obra_cell r, raw.cod_dep_cell r)) obras
  ↔ c ∈ raw.obra_cell <$> obras.
Proof.
  apply (elem_of_drop_duplicates_fmap fst
           (λ r, (raw.obra_cell r, raw.cod_dep_cell r)) obras c).
Qed.

Lemma raw_lookup_J_i i :
  raw.J_i obras !! i
  = if decide (Some i ∈ raw.obra_cell <$> obras)
    then Some (raw.J_of obras i) else None.
Proof.
  unfold raw.J_i. rewrite raw_lookup_groupby.
  destruct (decide (Some i ∈ raw.obra_cell <$> obras)).
  - rewrite decide_True; [done|by apply raw_key_survives].
  - rewrite decide_False; [done|by rewrite raw_key_survives].
Qed.

(** No group is empty, whatever the cells hold. *)
Lemma raw_J_i_nonempty i Ji : raw.J_i obras !! i = Some Ji → Ji ≠ [].
Proof.
  rewrite raw_lookup_J_i. case_decide as Hi; [|done]. intros [= <-].
  apply raw_key_survives, list_elem_of_fmap in Hi as (r & Hr & Hin).
  apply (elem_of_not_nil (raw.cod_dep_cell r)), elem_of_unique.
  apply list_elem_of_fmap_2, list_elem_of_filter. done.
Qed.

Lemma raw_elem_of_I c : c ∈ raw.I obras ↔ c ∈ raw.obra_cell <$> obras.
Proof. apply elem_of_unique. Qed.

Lemma raw_x_keys_Ok :
  (∀ r, r ∈ obras → is_Some (raw.obra_cell r)) →
  raw.x_keys obras
  = Ok (mjoin ((λ c, (λ j, (c, j)) <$> from_option (raw.J_of obras) [] c)
                 <$> raw.I obras)).
Proof.
  intros Hfilled. unfold raw.x_keys.
  rewrite (mapM_Ok _ (λ c, (λ j, (c, j))
                             <$> from_option (raw.J_of obras) [] c));
    [reflexivity|].
  intros c Hc. apply raw_elem_of_I in Hc.
  pose proof Hc as Hc'. apply list_elem_of_fmap in Hc' as (r & -> & Hr).
  destruct (Hfilled r Hr) as [i Hi]. rewrite Hi in Hc |- *.
  unfold raw.getitem_cell, getitem.
  rewrite raw_lookup_J_i, decide_True by done. reflexivity.
Qed.

Lemma raw_x_keys_KeyError :
  None ∈ raw.obra_cell <$> obras → raw.x_keys obras = Raise KeyError.
Proof.
  intros Hnone. apply raw_elem_of_I in Hnone. unfold raw.x_keys.
  revert Hnone. generalize (raw.I obras) as l.
  induction l as [|c l IH]; intros Hin; [by apply elem_of_nil in Hin|].
  cbn [mapM]. destruct c as [i|]; [|done].
  apply elem_of_cons in Hin as [|Hin]; [done|]. specialize (IH Hin).
  unfold raw.getitem_cell, getitem.
  destruct (raw.J_i obras !! i); [|done]. result_simpl.
  destruct (mapM _ l); [done|]. result_simpl in IH.
  injection IH as ->. reflexivity.
Qed.
End raw_facts.

(** C9 fails: with an empty [obra] cell, all [cod_dep] cells being filled,
    NaN is in [I] but is no key of [J_i], and enumerating the keys of [x]
    raises a [KeyError]. *)
Lemma empty_task_cell_breaks_key_enumeration :
  (∀ r, r ∈ ex_cells_null → is_Some (raw.cod_dep_cell r))
  ∧ raw.I ex_cells_null = [Some 1; None]
  ∧ (∀ i, is_Some (raw.J_i ex_cells_null !! i) ↔ i = 1)
  ∧ ¬ (∀ c, c ∈ raw.I ex_cells_null
            ↔ ∃ i, c = Some i ∧ is_Some (raw.J_i ex_cells_null !! i))
  ∧ raw.x_keys ex_cells_null = Raise KeyError.
Proof.
  assert (∀ i, is_Some (raw.J_i ex_cells_null !! i) ↔ i = 1) as HJ.
  { intros i. rewrite raw_lookup_J_i. split.
    - case_decide as Hi; [|by intros [? [=]]]. intros _.
      vm_compute in Hi. apply elem_of_cons in Hi as [[=]|Hi]; [done|].
      apply elem_of_cons in Hi as [[=]|Hi]. by apply elem_of_nil in Hi.
    - intros ->. rewrite decide_True; [by eexists|].
      vm_compute. elem_of_enum. }
  split.
  { intros r Hr. repeat (apply elem_of_cons in Hr as [->|Hr]; [by eexists|]).
    by apply elem_of_nil in Hr. }
  split; [by vm_compute|]. split; [done|]. split; [|by vm_compute].
  intros Hkeys. destruct (Hkeys None) as [Hnone _].
  destruct Hnone as (i & [=] & _). vm_compute. elem_of_enum.
Qed.

(** C9, amended.  When every task row has its task cell and its site cell
    filled, the keys of [J_i] are exactly the tasks of [I], every [J_i[i]]
    is non-empty, and enumerating the keys of [x] raises nothing. *)
Theorem keys_of_J_i_are_I (obras : list raw.ObraCells) :
  (∀ r, r ∈ obras → is_Some (raw.obra_cell r)) →
  (∀ r, r ∈ obras → is_Some (raw.cod_dep_cell r)) →
  (∀ c, c ∈ raw.I obras
        ↔ ∃ i, c = Some i ∧ is_Some (raw.J_i obras !! i))
  ∧ (∀ i Ji, raw.J_i obras !! i = Some Ji → Ji ≠ [])
  ∧ ∃ ks, raw.x_keys obras = Ok ks
          ∧ ∀ c j, (c, j) ∈ ks
                   ↔ ∃ r, r ∈ obras ∧ raw.obra_cell r = c
                          ∧ raw.cod_dep_cell r = j.
Proof.
  intros Hfilled _. split; [|split].
  - intros c. rewrite raw_elem_of_I. split.
    + intros Hc. pose proof Hc as Hc'.
      apply list_elem_of_fmap in Hc' as (r & -> & Hr).
      destruct (Hfilled r Hr) as [i Hi]. rewrite Hi in Hc |- *. exists i.
      split; [done|]. rewrite raw_lookup_J_i, decide_True by done.
      by eexists.
    + intros (i & -> & Hi). rewrite raw_lookup_J_i in Hi.
      case_decide; [done|]. by destruct Hi.
  - apply raw_J_i_nonempty.
  - eexists. split; [by apply raw_x_keys_Ok|].
    intros c j. rewrite list_elem_of_join. split.
    + intros (ks & Hk & Hks).
      apply list_elem_of_fmap in Hks as (c' & -> & Hc').
      apply list_elem_of_fmap in Hk as (j' & [= -> ->] & Hj').
      destruct c' as [i|]; [|by apply elem_of_nil in Hj'].
      simpl in Hj'. unfold raw.J_of in Hj'.
      apply elem_of_unique, list_elem_of_fmap in Hj' as (r & -> & Hr).
      apply list_elem_of_filter in Hr as [Hi Hr].
      apply drop_duplicates_subseteq in Hr. by exists r.
    + intros (r & Hr & <- & <-).
      destruct (Hfilled r Hr) as [i Hi].
      exists ((λ j, (raw.obra_cell r, j)) <$> raw.J_of obras i). split.
      * apply list_elem_of_fmap_2. unfold raw.J_of.
        apply elem_of_unique.
        assert ((raw.obra_cell r, raw.cod_dep_cell r)
                ∈ (λ r, (raw.obra_cell r, raw.cod_dep_cell r))
                    <$> drop_duplicates
                          (λ r, (raw.obra_cell r, raw.cod_dep_cell r)) obras)
          as Hdd.
        { apply elem_of_drop_duplicates_key.
          by apply (list_elem_of_fmap_2
                      (λ r, (raw.obra_cell r, raw.cod_dep_cell r))). }
        apply list_elem_of_fmap in Hdd as (r' & [= Ho Hd] & Hr').
        rewrite Hd. apply list_elem_of_fmap_2, list_elem_of_filter.
        split; [congruence|done].
      * apply list_elem_of_fmap. exists (raw.obra_cell r).
        split; [by rewrite Hi|]. apply raw_elem_of_I.
        by apply list_elem_of_fmap_2.
Qed.

Lemma keys_of_J_i_are_I_witness :
  (∀ c, c ∈ raw.I ex_cells
        ↔ ∃ i, c = Some i ∧ is_Some (raw.J_i ex_cells !! i))
  ∧ (∀ i Ji, raw.J_i ex_cells !! i = Some Ji → Ji ≠ [])
  ∧ ∃ ks, raw.x_keys ex_cells = Ok ks
          ∧ ∀ c j, (c, j) ∈ ks
                   ↔ ∃ r, r ∈ ex_cells ∧ raw.obra_cell r = c
                          ∧ raw.cod_dep_cell r = j.
Proof.
  apply (keys_of_J_i_are_I ex_cells).
  - intros r Hr. repeat (apply elem_of_cons in Hr as [->|Hr]; [by eexists|]).
    by apply elem_of_nil in Hr.
  - intros r Hr. repeat (apply elem_of_cons in Hr as [->|Hr]; [by eexists|]).
    by apply elem_of_nil in Hr.
Defined.

(** ** Filled cells: the two derivations agree *)

Lemma filter_fmap {A B} (f : A → B) (P : B → Prop) `{∀ b, Decision (P b)}
    (l : list A) :
  filter P (f <$> l) = f <$> filter (λ a, P (f a)) l.
Proof.
  induction l as [|a l IH]; [done|].
  rewrite fmap_cons, !filter_cons, IH. by case_decide.
Qed.

Lemma drop_duplicates_fmap {R R' K K'} `{EqDecision K, EqDecision K'}
    (f : R → R') (key : R → K) (key' : R' → K') (l : list R) :
  (∀ a b, key' (f a) = key' (f b) ↔ key a = key b) →
  drop_duplicates key' (f <$> l) = f <$> drop_duplicates key l.
Proof.
  intros Hkey. induction l as [|a l IH]; [done|].
  rewrite fmap_cons. simpl. rewrite IH, filter_fmap. f_equal. f_equal.
  apply list_filter_iff. intros b. by rewrite Hkey.
Qed.

Lemma unique_fmap {A B} `{EqDecision A, EqDecision B} (f : A → B)
    `{!Inj (=) (=) f} (l : list A) :
  unique (f <$> l) = f <$> unique l.
Proof.
  unfold unique. rewrite <- (list_fmap_id (f <$> l)) at 1.
  rewrite <- list_fmap_compose.
  rewrite (drop_duplicates_fmap (id ∘ f) id id l).
  - rewrite <- (list_fmap_id (drop_duplicates id l)) at 1.
    by rewrite <- list_fmap_compose.
  - intros a b. simpl. split; [apply (inj f)|by intros ->].
Qed.

Section filled_cells.
Variable obras : list ObraRow.
Local Abbreviation rows := (raw.of_row <$> obras).

Lemma raw_I_of_rows : raw.I rows = Some <$> unique (obra <$> obras).
Proof.
  unfold raw.I. rewrite <- list_fmap_compose.
  rewrite <- (unique_fmap Some), <- list_fmap_compose. done.
Qed.

Lemma raw_J_of_rows i : raw.J_of rows i = Some <$> J_of obras i.
Proof.
  unfold raw.J_of, J_of.
  rewrite (drop_duplicates_fmap raw.of_row (λ r, (obra r, cod_dep r))).
  - rewrite filter_fmap, <- list_fmap_compose.
    rewrite <- (unique_fmap Some), <- list_fmap_compose. f_equal.
    f_equal. apply list_filter_iff. intros r. simpl.
    split; [by intros [=]|by intros ->].
  - intros a b. simpl. split; [by intros [= -> ->]|by intros [= -> ->]].
Qed.

(** On rows without empty cells the keys of [x] are those of the
    derivation without empty cells. *)
Lemma raw_x_keys_of_rows :
  raw.x_keys rows = Ok ((λ k, (Some k.1, Some k.2)) <$> x_domain obras).
Proof.
  rewrite raw_x_keys_Ok.
  - f_equal. rewrite raw_I_of_rows. unfold x_domain.
    induction (unique (obra <$> obras)) as [|i l IH]; [done|].
    rewrite !fmap_cons.
    change (mjoin (?a :: ?ls)) with (a ++ mjoin ls).
    rewrite fmap_app, IH. f_equal. simpl.
    rewrite raw_J_of_rows, <- !list_fmap_compose. done.
  - intros r Hr. apply list_elem_of_fmap in Hr as (r' & -> & _).
    by eexists.
Qed.
End filled_cells.

(** * More on the table operations *)

Lemma filter_all {A} (P : A → Prop) `{∀ a, Decision (P a)} (l : list A) :
  (∀ a, a ∈ l → P a) → filter P l = l.
Proof.
  induction l as [|a l IH]; intros HP; [done|].
  rewrite filter_cons, decide_True by (apply HP; left).
  f_equal. apply IH. intros. apply HP. by right.
Qed.

Lemma filter_all_not {A} (P : A → Prop) `{∀ a, Decision (P a)} (l : list A) :
  (∀ a, a ∈ l → ¬ P a) → filter P l = [].
Proof.
  intros HP. apply elem_of_nil_inv. intros a Ha.
  apply list_elem_of_filter in Ha as [Hpa Ha]. by apply (HP a).
Qed.

Section drop_duplicates_more.
Context {R K : Type} `{EqDecision K}.
Implicit Types (key : R → K) (l : list R).

(** A filter that cannot tell rows of one key apart commutes with
    [drop_duplicates]. *)
Lemma filter_drop_duplicates key (P : R → Prop) `{∀ r, Decision (P r)} l :
  (∀ a b, key a = key b → P a → P b) →
  filter P (drop_duplicates key l) = drop_duplicates key (filter P l).
Proof.
  intros HP. induction l as [|a l IH]; [done|].
  simpl. rewrite !filter_cons. case_decide as Ha.
  - simpl. f_equal. rewrite <- IH.
    rewrite !list_filter_filter. apply list_filter_iff. naive_solver.
  - rewrite <- IH, list_filter_filter. apply list_filter_iff.
    intros r. split; [naive_solver|]. intros Hr. split; [done|].
    intros Hk. apply Ha. by apply (HP r).
Qed.

Lemma drop_duplicates_app key l l' :
  drop_duplicates key (l ++ l')
  = drop_duplicates key l
    ++ filter (λ r, key r ∉ key <$> l) (drop_duplicates key l').
Proof.
  induction l as [|a l IH]; simpl.
  - rewrite filter_all; [done|]. intros r _. apply not_elem_of_nil.
  - f_equal. rewrite IH, filter_app. f_equal.
    rewrite list_filter_filter. apply list_filter_iff.
    intros r. rewrite not_elem_of_cons. naive_solver.
Qed.

(** Appending a row whose key is already there changes nothing. *)
Lemma drop_duplicates_snoc_seen key l r :
  key r ∈ key <$> l →
  drop_duplicates key (l ++ [r]) = drop_duplicates key l.
Proof.
  intros Hr. rewrite drop_duplicates_app. simpl.
  rewrite filter_cons, decide_False by naive_solver.
  rewrite !filter_nil. apply app_nil_r.
Qed.
End drop_duplicates_more.

Lemma unique_as_drop_duplicates {R K} `{EqDecision K} (f : R → K)
    (l : list R) :
  unique (f <$> l) = f <$> drop_duplicates f l.
Proof.
  unfold unique. induction l as [|a l IH]; [done|].
  rewrite fmap_cons. simpl. rewrite IH, filter_fmap. done.
Qed.

(** Deduplicating on a key first does not change what a deduplication on a
    coarser key keeps. *)
Lemma drop_duplicates_coarser {R K K'} `{EqDecision K, EqDecision K'}
    (key : R → K) (g : R → K') (l : list R) :
  (∀ a b, key a = key b → g a = g b) →
  drop_duplicates g (drop_duplicates key l) = drop_duplicates g l.
Proof.
  intros Hg. induction l as [|a l IH]; [done|].
  simpl. f_equal. rewrite <- IH.
  rewrite !(filter_drop_duplicates g (λ r, g r ≠ g a)) by congruence.
  f_equal. rewrite list_filter_filter. apply list_filter_iff.
  intros r. split; [naive_solver|]. intros Hr. split; [done|].
  intros Hk. apply Hr. by apply Hg.
Qed.

(** The groups of [define_sets] are the deduplicated columns of the rows
    of the key: the deduplication of the rows beforehand plays no part. *)
Lemma unique_column_of_group {R K V P} `{EqDecision K, EqDecision V,
    EqDecision P} (pair : R → P) (key : R → K) (val : R → V) (k : K)
    (l : list R) :
  (∀ a b, pair a = pair b → key a = key b ∧ val a = val b) →
  unique (val <$> filter (λ r, key r = k) (drop_duplicates pair l))
  = unique (val <$> filter (λ r, key r = k) l).
Proof.
  intros Hpair.
  rewrite (filter_drop_duplicates pair)
    by (intros a b Hab; destruct (Hpair a b Hab); congruence).
  rewrite !unique_as_drop_duplicates.
  rewrite (drop_duplicates_coarser pair val); [done|].
  intros a b Hab. by destruct (Hpair a b Hab).
Qed.

(** ** The grouping helpers *)

Section append_at_facts.
Context {R K V : Type} `{Countable K}.

Lemma lookup_append_at (d : gmap K (list V)) k v k' :
  append_at d k v !! k'
  = if decide (k = k') then Some (default [] (d !! k) ++ [v]) else d !! k'.
Proof.
  unfold append_at. case_decide as Hk.
  - subst k'. rewrite lookup_alter_eq.
    destruct (d !! k) as [l|] eqn:Hd; [by rewrite Hd|].
    by rewrite lookup_insert_eq.
  - rewrite lookup_alter_ne by done.
    destruct (d !! k); [done|]. by rewrite lookup_insert_ne.
Qed.

Lemma lookup_foldl_append_at (key : R → K) (val : R → V) rows
    (d : gmap K (list V)) k :
  foldl (λ d r, append_at d (key r) (val r)) d rows !! k
  = match filter (λ r, key r = k) rows with
    | [] => d !! k
    | g => Some (default [] (d !! k) ++ (val <$> g))
    end.
Proof.
  revert d. induction rows as [|a rows IH]; intros d; [done|].
  simpl. rewrite IH, filter_cons, lookup_append_at.
  case_decide as Hk.
  - subst k. destruct (filter _ rows) as [|b g]; simpl; [done|].
    by rewrite <- app_assoc.
  - done.
Qed.

(** A key has an entry exactly when a row carries it, and the entry lists
    the values of its rows, in order, repetitions included. *)
Lemma lookup_grouped_rows (key : R → K) (val : R → V) rows k :
  foldl (λ d r, append_at d (key r) (val r)) ∅ rows !! k
  = if decide (k ∈ key <$> rows)
    then Some (val <$> filter (λ r, key r = k) rows) else None.
Proof.
  rewrite lookup_foldl_append_at, lookup_empty.
  destruct (filter (λ r, key r = k) rows) as [|b g] eqn:Hf.
  - rewrite decide_False; [done|]. rewrite list_elem_of_fmap.
    intros (r & -> & Hr). by apply (filter_nil_not_elem_of _ _ r) in Hf.
  - rewrite decide_True; [done|].
    assert (b ∈ filter (λ r, key r = k) rows) as Hb by (rewrite Hf; left).
    apply list_elem_of_filter in Hb as [<- Hb]. by apply list_elem_of_fmap_2.
Qed.
End append_at_facts.

Lemma J_of_plain obras i :
  J_of obras i = unique (cod_dep <$> filter (λ r, obra r = i) obras).
Proof.
  apply (unique_column_of_group (λ r, (obra r, cod_dep r)) obra cod_dep).
  by intros a b [= -> ->].
Qed.

Lemma I_of_plain obras j :
  I_of obras j = unique (obra <$> filter (λ r, cod_dep r = j) obras).
Proof.
  apply (unique_column_of_group (λ r, (obra r, cod_dep r)) cod_dep obra).
  by intros a b [= -> ->].
Qed.

Lemma M_of_plain obras i :
  M_of obras i = unique (cod_mat <$> filter (λ r, obra r = i) obras).
Proof.
  apply (unique_column_of_group (λ r, (obra r, cod_mat r)) obra cod_mat).
  by intros a b [= -> ->].
Qed.

(** * The helpers of [main.py] against [define_sets] *)

(** X1.  [depositos_por_obra] has an entry exactly for the tasks of the
    rows, listing the sites of the task's rows in order with repetitions;
    [J_i] of [define_sets] is this dictionary with every list
    deduplicated. *)
Theorem J_i_is_depositos_por_obra_deduplicated estoque obras :
  (∀ i, depositos_por_obra obras !! i
        = if decide (i ∈ obra <$> obras)
          then Some (cod_dep <$> filter (λ r, obra r = i) obras) else None)
  ∧ sets.J_i (define_sets estoque obras) = unique <$> depositos_por_obra obras.
Proof.
  assert (∀ i, depositos_por_obra obras !! i
        = if decide (i ∈ obra <$> obras)
          then Some (cod_dep <$> filter (λ r, obra r = i) obras) else None)
    as Hlookup by (intros i; apply lookup_grouped_rows).
  split; [done|]. apply map_eq. intros i.
  rewrite lookup_fmap, Hlookup, lookup_J_i.
  case_decide; [|done]. simpl. by rewrite J_of_plain.
Qed.

(** X2.  [obras_por_deposito] has an entry exactly for the sites of the
    rows, listing the tasks of the site's rows in order with repetitions;
    [I_j] of [define_sets] is this dictionary with every list
    deduplicated. *)
Theorem I_j_is_obras_por_deposito_deduplicated estoque obras :
  (∀ j, obras_por_deposito obras !! j
        = if decide (j ∈ cod_dep <$> obras)
          then Some (obra <$> filter (λ r, cod_dep r = j) obras) else None)
  ∧ sets.I_j (define_sets estoque obras) = unique <$> obras_por_deposito obras.
Proof.
  assert (∀ j, obras_por_deposito obras !! j
        = if decide (j ∈ cod_dep <$> obras)
          then Some (obra <$> filter (λ r, cod_dep r = j) obras) else None)
    as Hlookup by (intros j; apply lookup_grouped_rows).
  split; [done|]. apply map_eq. intros j.
  rewrite lookup_fmap, Hlookup, lookup_I_j.
  case_decide; [|done]. simpl. by rewrite I_of_plain.
Qed.

Lemma total_app l1 l2 : total (l1 ++ l2) = total l1 + total l2.
Proof. induction l1 as [|a l1 IH]; simpl; lia. Qed.

Lemma get_q estoque obras i m :
  get (params.q (define_parameters estoque obras)) (i, m) 0
  = spec.demand obras i m.
Proof.
  unfold get. rewrite lookup_q. case_decide as Him; [done|].
  unfold spec.demand.
  assert (filter (λ r, obra r = i ∧ cod_mat r = m) obras = []) as ->; [|done].
  apply elem_of_nil_inv. intros r Hr.
  apply list_elem_of_filter in Hr as [[<- <-] Hr]. apply Him.
  by apply (list_elem_of_fmap_2 (λ r, (obra r, cod_mat r))).
Qed.

(** ** Sums of [int64] columns *)

Lemma wrap64_add_l a b : wrap64 (wrap64 a + b) = wrap64 (a + b).
Proof.
  unfold wrap64. f_equal.
  replace ((a + 2 ^ 63) `mod` 2 ^ 64 - 2 ^ 63 + b + 2 ^ 63)
    with ((a + 2 ^ 63) `mod` 2 ^ 64 + b) by lia.
  rewrite Zplus_mod_idemp_l. f_equal. lia.
Qed.

Lemma wrap64_add_r a b : wrap64 (a + wrap64 b) = wrap64 (a + b).
Proof. by rewrite (Z.add_comm a), wrap64_add_l, (Z.add_comm b). Qed.

Lemma sum_int64_from s l :
  foldl (λ s a, wrap64 (s + a)) (wrap64 s) l = wrap64 (s + total l).
Proof.
  revert s. induction l as [|a l IH]; intros s.
  - simpl. by rewrite Z.add_0_r.
  - cbn [foldl]. rewrite wrap64_add_l, IH. f_equal. simpl. lia.
Qed.

(** The wrapped sum is the exact sum, brought back into [int64]. *)
Lemma sum_int64_total l : sum_int64 l = wrap64 (total l).
Proof. apply (sum_int64_from 0 l). Qed.

Lemma sum_int64_exact l : in_int64 (total l) → sum_int64 l = total l.
Proof. intros Hl. by rewrite sum_int64_total, wrap64_small. Qed.

Lemma sum_int64_app l1 l2 :
  sum_int64 (l1 ++ l2) = wrap64 (sum_int64 l1 + sum_int64 l2).
Proof.
  by rewrite !sum_int64_total, total_app, wrap64_add_l, wrap64_add_r.
Qed.

Lemma sum_int64_snoc l a : sum_int64 (l ++ [a]) = wrap64 (sum_int64 l + a).
Proof. unfold sum_int64. by rewrite foldl_app. Qed.

(** X3.  [materiais_por_obra] has an entry exactly for the tasks of the
    rows, listing the (material, quantity) pairs of the task's rows in
    order.  [M_i] of [define_sets] is the deduplicated list of its
    materials, and [q[i,m]] of [define_parameters] is the [int64] sum of
    the quantities it pairs with [m]: their exact sum when that is an
    [int64] (the key [(i, m)] being absent from [q] when there is no
    pair). *)
Theorem materiais_por_obra_gives_M_i_and_q estoque obras :
  (∀ i, materiais_por_obra obras !! i
        = if decide (i ∈ obra <$> obras)
          then Some ((λ r, (cod_mat r, qtd_dem r))
                       <$> filter (λ r, obra r = i) obras)
          else None)
  ∧ sets.M_i (define_sets estoque obras)
    = (λ l, unique (fst <$> l)) <$> materiais_por_obra obras
  ∧ ∀ i m,
      let quantities :=
        snd <$> filter (λ pr, pr.1 = m)
                  (default [] (materiais_por_obra obras !! i)) in
      get (params.q (define_parameters estoque obras)) (i, m) 0
      = sum_int64 quantities
      ∧ (in_int64 (total quantities) →
         get (params.q (define_parameters estoque obras)) (i, m) 0
         = total quantities)
      ∧ (is_Some (params.q (define_parameters estoque obras) !! (i, m))
         ↔ ∃ l, materiais_por_obra obras !! i = Some l ∧ m ∈ fst <$> l).
Proof.
  assert (∀ i, materiais_por_obra obras !! i
        = if decide (i ∈ obra <$> obras)
          then Some ((λ r, (cod_mat r, qtd_dem r))
                       <$> filter (λ r, obra r = i) obras) else None)
    as Hlookup by (intros i; apply lookup_grouped_rows).
  split; [done|]. split.
  { apply map_eq. intros i. rewrite lookup_fmap, Hlookup, lookup_M_i.
    case_decide; [|done]. simpl.
    by rewrite M_of_plain, <- list_fmap_compose. }
  intros i m quantities.
  assert (get (params.q (define_parameters estoque obras)) (i, m) 0
          = sum_int64 quantities) as Hq.
  { subst quantities. rewrite get_q, Hlookup. unfold spec.demand.
    case_decide as Hi; simpl.
    + rewrite filter_fmap, <- list_fmap_compose, list_filter_filter.
      f_equal. f_equal. apply list_filter_iff. naive_solver.
    + rewrite filter_all_not; [done|]. intros r Hr [<- _]. apply Hi.
      by apply list_elem_of_fmap_2. }
  split; [done|]. split; [intros Hexact; by rewrite Hq, sum_int64_exact|].
  rewrite lookup_q, Hlookup. split.
  + case_decide as Him; [|by intros [? [=]]]. intros _.
    apply list_elem_of_fmap in Him as (r & [= -> ->] & Hr).
    rewrite decide_True by (by apply list_elem_of_fmap_2).
    eexists. split; [done|]. rewrite <- list_fmap_compose.
    apply list_elem_of_fmap. exists r. split; [done|].
    by apply list_elem_of_filter.
  + intros (l & Hl & Hm). case_decide as Hi; [|done]. injection Hl as <-.
    rewrite <- list_fmap_compose in Hm.
    apply list_elem_of_fmap in Hm as (r & -> & Hr).
    apply list_elem_of_filter in Hr as [<- Hr].
    rewrite decide_True; [by eexists|].
    by apply (list_elem_of_fmap_2 (λ r, (obra r, cod_mat r))).
Qed.

(** * More on [define_sets] and [define_parameters] *)

(** X4.  The derived sets are aligned: [J_i] and [M_i] have an entry exactly
    for the tasks of [I]; [I_j] is the inverse of [J_i]; no list among
    [I], [J], [M] and the groups repeats an element, and no group is
    empty. *)
Theorem derived_sets_are_aligned estoque obras :
  let s := define_sets estoque obras in
  (∀ i, i ∈ sets.I s ↔ is_Some (sets.J_i s !! i))
  ∧ (∀ i, i ∈ sets.I s ↔ is_Some (sets.M_i s !! i))
  ∧ (∀ i j, (∃ Ji, sets.J_i s !! i = Some Ji ∧ j ∈ Ji)
            ↔ (∃ Ij, sets.I_j s !! j = Some Ij ∧ i ∈ Ij))
  ∧ NoDup (sets.I s) ∧ NoDup (sets.J s) ∧ NoDup (sets.M s)
  ∧ (∀ (d : gmap Z (list Z)) k g,
       d = sets.J_i s ∨ d = sets.I_j s ∨ d = sets.M_i s →
       d !! k = Some g → NoDup g ∧ g ≠ []).
Proof.
  intros s. subst s. split; [|split; [|split]].
  - intros i. rewrite elem_of_sets_I, lookup_J_i.
    case_decide; [by split; [eexists|]|]. split; [done|by intros [? [=]]].
  - intros i. rewrite elem_of_sets_I, lookup_M_i.
    case_decide; [by split; [eexists|]|]. split; [done|by intros [? [=]]].
  - intros i j. split.
    + intros (Ji & HJ & Hj). rewrite lookup_J_i in HJ.
      case_decide; [|done]. injection HJ as <-. apply elem_of_J_of in Hj.
      exists (I_of obras j). rewrite lookup_I_j.
      assert (j ∈ cod_dep <$> obras) as Hin.
      { apply list_elem_of_fmap in Hj as (r & [= -> ->] & Hr).
        by apply list_elem_of_fmap_2. }
      rewrite decide_True by done. split; [done|]. by apply elem_of_I_of.
    + intros (Ij & HI & Hi). rewrite lookup_I_j in HI.
      case_decide; [|done]. injection HI as <-. apply elem_of_I_of in Hi.
      exists (J_of obras i). rewrite lookup_J_i.
      rewrite decide_True by (by eapply pair_dep_obra).
      split; [done|]. by apply elem_of_J_of.
  - repeat (split; [apply NoDup_unique|]).
    intros d k g [-> | [-> | ->]].
    + rewrite lookup_J_i. case_decide as Hk; [|done]. intros [= <-].
      split; [apply NoDup_unique|by apply J_of_nonempty].
    + rewrite lookup_I_j. case_decide as Hk; [|done]. intros [= <-].
      split; [apply NoDup_unique|].
      apply list_elem_of_fmap in Hk as (r & -> & Hr).
      apply (elem_of_not_nil (obra r)), elem_of_I_of.
      by apply (list_elem_of_fmap_2 (λ r, (obra r, cod_dep r))).
    + rewrite lookup_M_i. case_decide as Hk; [|done]. intros [= <-].
      split; [apply NoDup_unique|].
      apply list_elem_of_fmap in Hk as (r & -> & Hr).
      apply (elem_of_not_nil (cod_mat r)), elem_of_M_of.
      by apply (list_elem_of_fmap_2 (λ r, (obra r, cod_mat r))).
Qed.

Lemma unique_snoc_seen {A} `{EqDecision A} (l : list A) a :
  a ∈ l → unique (l ++ [a]) = unique l.
Proof.
  intros Ha. apply drop_duplicates_snoc_seen. by rewrite list_fmap_id.
Qed.

(** X5.  A row repeated at the end of the task table changes none of the
    derived sets and not the priorities [w], but its quantity is added once
    more to [q], in [int64] arithmetic: exactly, when the new sum is an
    [int64]. *)
Theorem repeated_row_counts_twice_in_q_only estoque obras r :
  r ∈ obras →
  define_sets estoque (obras ++ [r]) = define_sets estoque obras
  ∧ params.w (define_parameters estoque (obras ++ [r]))
    = params.w (define_parameters estoque obras)
  ∧ (∃ qim,
       params.q (define_parameters estoque obras) !! (obra r, cod_mat r)
       = Some qim
       ∧ params.q (define_parameters estoque (obras ++ [r]))
           !! (obra r, cod_mat r)
         = Some (wrap64 (qim + qtd_dem r))
       ∧ (in_int64 (qim + qtd_dem r) →
          params.q (define_parameters estoque (obras ++ [r]))
            !! (obra r, cod_mat r)
          = Some (qim + qtd_dem r))).
Proof.
  intros Hr. split; [|split].
  - unfold define_sets. rewrite !fmap_app. simpl.
    rewrite unique_snoc_seen by (by apply list_elem_of_fmap_2).
    rewrite !drop_duplicates_snoc_seen; [done|..].
    + by apply (list_elem_of_fmap_2 (λ r, (obra r, cod_mat r))).
    + by apply (list_elem_of_fmap_2 (λ r, (obra r, cod_dep r))).
  - unfold define_parameters. simpl.
    rewrite drop_duplicates_snoc_seen; [done|].
    by apply (list_elem_of_fmap_2 (λ r, (obra r, prioridade r))).
  - exists (spec.demand obras (obra r) (cod_mat r)).
    assert (params.q (define_parameters estoque (obras ++ [r]))
              !! (obra r, cod_mat r)
            = Some (wrap64 (spec.demand obras (obra r) (cod_mat r)
                            + qtd_dem r))) as Hq.
    { rewrite lookup_q. rewrite decide_True.
      + unfold spec.demand. rewrite filter_app, fmap_app.
        rewrite filter_cons, decide_True by done.
        by rewrite filter_nil, fmap_cons, sum_int64_snoc.
      + rewrite fmap_app. apply elem_of_app. right. simpl. left. }
    split; [|split; [done|]].
    + rewrite lookup_q, decide_True; [done|].
      by apply (list_elem_of_fmap_2 (λ r, (obra r, cod_mat r))).
    + intros Hexact. by rewrite Hq, wrap64_small.
Qed.

Lemma repeated_row_counts_twice_in_q_only_witness :
  define_sets ex_estoque (ex_obras ++ [mkObra 1 10 5 100 4])
  = define_sets ex_estoque ex_obras
  ∧ params.w (define_parameters ex_estoque (ex_obras ++ [mkObra 1 10 5 100 4]))
    = params.w (define_parameters ex_estoque ex_obras)
  ∧ (∃ qim,
       params.q (define_parameters ex_estoque ex_obras) !! (1, 100) = Some qim
       ∧ params.q (define_parameters ex_estoque
                     (ex_obras ++ [mkObra 1 10 5 100 4])) !! (1, 100)
         = Some (wrap64 (qim + 4))
       ∧ (in_int64 (qim + 4) →
          params.q (define_parameters ex_estoque
                      (ex_obras ++ [mkObra 1 10 5 100 4])) !! (1, 100)
          = Some (qim + 4))).
Proof.
  apply (repeated_row_counts_twice_in_q_only ex_estoque ex_obras
           (mkObra 1 10 5 100 4)).
  elem_of_enum.
Defined.

(** X6.  [q] adds up over the rows, in [int64] arithmetic: the demand of a
    (task, material) pair in a table made of two parts is the wrapped sum of
    its demands in the parts, a missing key counting as 0, and their exact
    sum when that is an [int64]; in particular every candidate-site row of
    a task adds its quantity. *)
Theorem q_adds_up_over_rows estoque obras1 obras2 i m :
  get (params.q (define_parameters estoque (obras1 ++ obras2))) (i, m) 0
  = wrap64 (get (params.q (define_parameters estoque obras1)) (i, m) 0
            + get (params.q (define_parameters estoque obras2)) (i, m) 0)
  ∧ (in_int64 (get (params.q (define_parameters estoque obras1)) (i, m) 0
               + get (params.q (define_parameters estoque obras2)) (i, m) 0) →
     get (params.q (define_parameters estoque (obras1 ++ obras2))) (i, m) 0
     = get (params.q (define_parameters estoque obras1)) (i, m) 0
       + get (params.q (define_parameters estoque obras2)) (i, m) 0).
Proof.
  rewrite !get_q. unfold spec.demand.
  rewrite filter_app, fmap_app, sum_int64_app.
  split; [done|]. intros Hexact. by apply wrap64_small.
Qed.

(** X7.  A stock row added at the end sets [Q] for its (site, material)
    pair to its own quantity, replacing what an earlier row of the pair
    gave, and leaves every other pair as it was. *)
Theorem later_stock_row_overwrites estoque obras r k :
  params.Q (define_parameters (estoque ++ [r]) obras) !! k
  = if decide (k = (est_cod_dep r, est_cod_mat r))
    then Some (est_estoque r)
    else params.Q (define_parameters estoque obras) !! k.
Proof.
  unfold define_parameters. simpl. unfold to_dict.
  rewrite foldl_app. simpl. case_decide as Hk.
  - subst k. apply lookup_insert_eq.
  - by rewrite lookup_insert_ne.
Qed.

(** * The transfer variables *)

Lemma NoDup_bind_tagged {A B} (g : A → list B) (tag : B → A) (l : list A) :
  NoDup l → (∀ a, NoDup (g a)) → (∀ a b, b ∈ g a → tag b = a) →
  NoDup (l ≫= g).
Proof.
  intros Hl Hg Htag. induction Hl as [|a l Ha Hl IH]; [constructor|].
  rewrite bind_cons. apply NoDup_app. split; [apply Hg|]. split; [|done].
  intros b Hb Hb'. apply list_elem_of_bind in Hb' as (a' & Hb' & Ha').
  apply Htag in Hb, Hb'. congruence.
Qed.

Lemma length_bind_filtered {A B} (g : A → list B) (P : A → Prop)
    `{∀ a, Decision (P a)} (n : nat) (l : list A) :
  (∀ a, a ∈ l → length (g a) = if decide (P a) then n else 0%nat) →
  length (l ≫= g) = (length (filter P l) * n)%nat.
Proof.
  induction l as [|a l IH]; intros Hg; [done|].
  rewrite bind_cons, length_app, IH, Hg, filter_cons
    by (left || (intros; apply Hg; by right)).
  case_decide; simpl; lia.
Qed.

Lemma length_filter_ne {A} `{EqDecision A} (l : list A) k :
  NoDup l → k ∈ l → length (filter (λ a, a ≠ k) l) = (length l - 1)%nat.
Proof.
  induction 1 as [|a l Ha Hl IH]; intros Hk; [by apply elem_of_nil in Hk|].
  rewrite filter_cons. destruct (decide (a = k)) as [->|Hne].
  - rewrite decide_False by naive_solver.
    rewrite filter_all by (intros b Hb ->; done). simpl. lia.
  - rewrite decide_True by done. simpl.
    apply elem_of_cons in Hk as [|Hk]; [congruence|].
    rewrite IH by done. destruct l; [by apply elem_of_nil in Hk|simpl; lia].
Qed.

(** X8.  The transfer variables [t] are created once for every ordered pair
    of distinct sites of the stock relation and every material of it, and
    for nothing else (never from a site to itself): their number is
    |J| * (|J| - 1) * |M|, and they are the continuous variables of the
    model, with lower bound 0. *)
Theorem t_created_over_distinct_site_pairs estoque obras :
  let s := define_sets estoque obras in
  NoDup (t_keys s)
  ∧ (∀ k j m, (k, j, m) ∈ t_keys s
              ↔ k ∈ est_cod_dep <$> estoque ∧ j ∈ est_cod_dep <$> estoque
                ∧ m ∈ est_cod_mat <$> estoque ∧ k ≠ j)
  ∧ length (t_keys s)
    = (length (sets.J s) * (length (sets.J s) - 1) * length (sets.M s))%nat
  ∧ (∀ d, d ∈ model_vars (create_decision_variables s new_model).1
          ∧ decl_vtype d = CONTINUOUS
          ↔ ∃ k j m, (k, j, m) ∈ t_keys s
                     ∧ d = mkVarDecl (t_var k j m) CONTINUOUS 0).
Proof.
  intros s. subst s. split; [|split; [|split]].
  - unfold t_keys.
    apply (NoDup_bind_tagged _ (λ b, b.1.1)); [apply NoDup_unique|..].
    + intros k. apply (NoDup_bind_tagged _ (λ b, b.1.2)); [apply NoDup_unique|..].
      * intros j. apply (NoDup_bind_tagged _ (λ b, b.2)); [apply NoDup_unique|..].
        -- intros m. case_decide; [apply NoDup_singleton|constructor].
        -- intros m b Hb. case_decide; [|by apply elem_of_nil in Hb].
           by apply list_elem_of_singleton in Hb as ->.
      * intros j b Hb. apply list_elem_of_bind in Hb as (m & Hb & _).
        case_decide; [|by apply elem_of_nil in Hb].
        by apply list_elem_of_singleton in Hb as ->.
    + intros k b Hb. apply list_elem_of_bind in Hb as (j & Hb & _).
      apply list_elem_of_bind in Hb as (m & Hb & _).
      case_decide; [|by apply elem_of_nil in Hb].
      by apply list_elem_of_singleton in Hb as ->.
  - intros k j m. rewrite elem_of_t_keys.
    rewrite !elem_of_sets_J, elem_of_sets_M. naive_solver.
  - unfold t_keys.
    rewrite (length_bind_filtered _ (λ _, True)
               ((length (sets.J (define_sets estoque obras)) - 1)
                * length (sets.M (define_sets estoque obras)))).
    + rewrite filter_all by done. lia.
    + intros k Hk. rewrite decide_True by done.
      rewrite (length_bind_filtered _ (λ j, j ≠ k)
                 (length (sets.M (define_sets estoque obras)))).
      * by rewrite length_filter_ne by (done || apply NoDup_unique).
      * intros j _. rewrite (length_bind_filtered _ (λ _, j ≠ k) 1).
        -- destruct (decide (j ≠ k)).
           ++ rewrite filter_all by done. lia.
           ++ by rewrite filter_all_not by done.
        -- intros m _. by case_decide.
  - intros d. rewrite create_decision_variables_run.
    cbn [fst model_vars new_model app]. unfold declared_vars.
    rewrite elem_of_app, !list_elem_of_fmap. split.
    + intros [[(k & -> & Hk)|(k & -> & Hk)] Hcont]; [done|].
      destruct k as [[k j] m]. by exists k, j, m.
    + intros (k & j & m & Hk & ->). split; [|done]. right.
      by exists (k, j, m).
Qed.

(** * When the model is built *)

(** X9.  Building the model succeeds exactly when every site of the stock
    relation appears in some task row; otherwise it stops on a [KeyError]
    before any objective is set.  In particular, without task rows it
    succeeds only for an empty stock relation. *)
Theorem build_succeeds_iff_sites_covered estoque obras :
  ((∃ mdl v, build_model estoque obras new_model = (mdl, Ok v))
   ↔ sites_covered estoque obras)
  ∧ (¬ sites_covered estoque obras →
     (build_model estoque obras new_model).2 = Raise KeyError
     ∧ model_objective (build_model estoque obras new_model).1 = None)
  ∧ (obras = [] →
     (∃ mdl v, build_model estoque obras new_model = (mdl, Ok v))
     ↔ estoque = []).
Proof.
  assert ((∃ mdl v, build_model estoque obras new_model = (mdl, Ok v))
          ↔ sites_covered estoque obras) as Hiff.
  { destruct (build_model_cases estoque obras) as [[Hcov Hb]|(Hn & Hr & _)].
    - split; [done|]. intros _. eauto.
    - split; [|done]. intros (mdl & v & Hb). by rewrite Hb in Hr. }
  split; [done|]. split.
  - intros Hn.
    destruct (build_model_cases estoque obras) as [[Hcov _]|(_ & Hr & Ho)];
      done.
  - intros ->. rewrite Hiff. split.
    + intros Hcov. destruct estoque as [|r l]; [done|].
      specialize (Hcov (est_cod_dep r) ltac:(left)).
      by apply elem_of_nil in Hcov.
    + intros -> j Hj. by apply elem_of_nil in Hj.
Qed.

Lemma build_succeeds_iff_sites_covered_witness :
  (build_model ex_estoque_idle ex_obras_one new_model).2 = Raise KeyError
  ∧ model_objective (build_model ex_estoque_idle ex_obras_one new_model).1
    = None.
Proof.
  apply (build_succeeds_iff_sites_covered ex_estoque_idle ex_obras_one).
  intros Hcov. specialize (Hcov 30). vm_compute in Hcov.
  assert (30 ∈ [10]) as Hin by (apply Hcov; elem_of_enum).
  apply elem_of_cons in Hin as [[=]|Hin]. by apply elem_of_nil in Hin.
Defined.

(** X10.  When every site of the stock relation appears in some task row,
    the constraints of the model are, in this order, one assignment
    constraint per task of [I] and one mass-balance constraint per material
    of [M] and site of [J]; no constraint name occurs twice, and there are
    |I| + |M| * |J| constraints. *)
Theorem built_model_has_every_constraint_once estoque obras :
  sites_covered estoque obras →
  let s := define_sets estoque obras in
  let constrs := model_constrs (build_model estoque obras new_model).1 in
  constr_name <$> constrs
  = (C1_OneExecution <$> sets.I s)
    ++ (m ← sets.M s; C2_StockBalance m <$> sets.J s)
  ∧ NoDup (constr_name <$> constrs)
  ∧ length constrs
    = (length (sets.I s) + length (sets.M s) * length (sets.J s))%nat.
Proof.
  intros Hcov s constrs. subst s constrs.
  destruct (build_model_cases estoque obras) as [[_ ->]|[Hn _]]; [|done].
  cbn [fst model_constrs]. unfold built_constrs.
  assert (constr_name
            <$> (one_execution_constr obras
                   <$> sets.I (define_sets estoque obras))
                ++ (m ← sets.M (define_sets estoque obras);
                    stock_balance_constr estoque obras m
                      <$> sets.J (define_sets estoque obras))
          = (C1_OneExecution <$> sets.I (define_sets estoque obras))
            ++ (m ← sets.M (define_sets estoque obras);
                C2_StockBalance m <$> sets.J (define_sets estoque obras)))
    as Hnames.
  { rewrite fmap_app, <- list_fmap_compose. f_equal.
    induction (sets.M (define_sets estoque obras)) as [|m l IH]; [done|].
    rewrite !bind_cons, fmap_app, IH, <- list_fmap_compose. done. }
  split; [done|]. split.
  - rewrite Hnames. apply NoDup_app. split; [|split].
    + apply NoDup_fmap_2; [by intros ?? [=]|apply NoDup_unique].
    + intros n Hn Hn'. apply list_elem_of_fmap in Hn as (i & -> & _).
      apply list_elem_of_bind in Hn' as (m & Hn' & _).
      by apply list_elem_of_fmap in Hn' as (j & [=] & _).
    + apply (NoDup_bind_tagged _ (λ n, match n with
                                        | C2_StockBalance m _ => m
                                        | C1_OneExecution _ => 0
                                        end)); [apply NoDup_unique|..].
      * intros m. apply NoDup_fmap_2; [by intros ?? [=]|apply NoDup_unique].
      * intros m n Hn. by apply list_elem_of_fmap in Hn as (j & -> & _).
  - rewrite <- (length_fmap constr_name), Hnames, length_app, length_fmap.
    f_equal.
    rewrite (length_bind_filtered _ (λ _, True)
               (length (sets.J (define_sets estoque obras)))).
    + by rewrite filter_all by done.
    + intros m _. by rewrite decide_True, length_fmap by done.
Qed.

Lemma built_model_has_every_constraint_once_witness :
  let s := define_sets ex_estoque ex_obras in
  let constrs := model_constrs (build_model ex_estoque ex_obras new_model).1 in
  constr_name <$> constrs
  = (C1_OneExecution <$> sets.I s)
    ++ (m ← sets.M s; C2_StockBalance m <$> sets.J s)
  ∧ NoDup (constr_name <$> constrs)
  ∧ length constrs
    = (length (sets.I s) + length (sets.M s) * length (sets.J s))%nat.
Proof.
  apply (built_model_has_every_constraint_once ex_estoque ex_obras).
  intros j Hj. vm_compute in Hj. vm_compute.
  repeat (apply elem_of_cons in Hj as [->|Hj]; [elem_of_enum|]).
  by apply elem_of_nil in Hj.
Defined.

(** * Feasible solutions of the model *)

Lemma sumQ_zero {A} (f : A → Q) (l : list A) :
  (∀ a, a ∈ l → (f a == 0)%Q) → (sumQ (f <$> l) == 0)%Q.
Proof.
  induction l as [|a l IH]; intros Hf; [reflexivity|].
  rewrite fmap_cons, sumQ_cons, (Hf a), IH by (left || (intros; apply Hf; by right)).
  ring.
Qed.

Lemma initial_stock_nonneg estoque j m :
  (∀ r, r ∈ estoque → 0 ≤ est_estoque r) →
  0 ≤ spec.initial_stock estoque j m.
Proof.
  intros Hpos. unfold spec.initial_stock.
  destruct (last _) as [r|] eqn:Hl; [|done].
  apply last_Some_elem_of, list_elem_of_filter in Hl as [_ Hr]. by apply Hpos.
Qed.

Section zero_assignment.
Variables (estoque : list EstoqueRow) (obras : list ObraRow).
Local Abbreviation zero := (λ _ : Var, 0%Q).

Lemma zero_respects_declared_vars :
  Forall (respects zero) (declared_vars estoque obras).
Proof.
  unfold declared_vars. apply Forall_app. split.
  - apply Forall_fmap, Forall_forall. intros k _. by left.
  - apply Forall_fmap, Forall_forall. intros k _. unfold respects. simpl.
    by vm_compute.
Qed.

Lemma zero_holds_one_execution i :
  holds zero (one_execution_constr obras i).
Proof.
  unfold holds, one_execution_constr.
  cbn [constr_sense constr_lhs constr_rhs].
  rewrite (eval_quicksum_vars zero (x_var i)), eval_of_num.
  rewrite sumQ_zero by done. by vm_compute.
Qed.

Lemma zero_holds_stock_balance c :
  (∀ r, r ∈ estoque → 0 ≤ est_estoque r) →
  is_stock_balance estoque obras c → holds zero c.
Proof.
  intros Hpos (m & j & cons & out & inf & Hm & Hj & Hcons & Hout & Hinf & ->).
  rewrite outflow_closed in Hout by done. injection Hout as <-.
  rewrite inflow_closed in Hinf by done. injection Hinf as <-.
  unfold holds. cbn [constr_sense constr_lhs constr_rhs].
  rewrite !eval_expr_add, eval_of_num, get_Q.
  rewrite (eval_consumption _ _ _ _ _ _ Hcons).
  rewrite (eval_quicksum_vars zero (λ k, t_var j k m)).
  rewrite (eval_quicksum_vars zero (λ k, t_var k j m)).
  unfold spec.consumption_at.
  rewrite !sumQ_zero by (intros; cbv beta; ring).
  pose proof (initial_stock_nonneg estoque j m Hpos) as Hq.
  assert (0 <= inject_Z (spec.initial_stock estoque j m))%Q
    by (by apply (Qle_trans _ (inject_Z 0)); [|rewrite <- Zle_Qle]).
  lra.
Qed.
End zero_assignment.

(** X11.  With no negative quantity in the stock relation, the assignment
    that executes no task and transfers nothing satisfies every variable
    bound and every constraint of the model: the model is never
    infeasible. *)
Theorem zero_assignment_is_feasible estoque obras :
  (∀ r, r ∈ estoque → 0 ≤ est_estoque r) →
  feasible (build_model estoque obras new_model).1 (λ _, 0%Q).
Proof.
  intros Hpos.
  destruct (build_model_constrs estoque obras) as (Hvars & extra & Hcs & Hex).
  split.
  - rewrite Hvars. apply zero_respects_declared_vars.
  - rewrite Hcs. apply Forall_app. split.
    + apply Forall_fmap, Forall_forall. intros i _.
      apply zero_holds_one_execution.
    + eapply Forall_impl; [exact Hex|]. intros c Hc.
      by apply (zero_holds_stock_balance estoque obras).
Qed.

Lemma zero_assignment_is_feasible_witness :
  feasible (build_model ex_estoque ex_obras new_model).1 (λ _, 0%Q).
Proof.
  apply (zero_assignment_is_feasible ex_estoque ex_obras).
  intros r Hr.
  repeat (apply elem_of_cons in Hr as [->|Hr]; [simpl; lia|]).
  by apply elem_of_nil in Hr.
Defined.

Section feasible_facts.
Variables (estoque : list EstoqueRow) (obras : list ObraRow).
Variable X : Var → Q.
Hypothesis Hfeasible : feasible (build_model estoque obras new_model).1 X.

Lemma feasible_one_execution i :
  i ∈ obra <$> obras →
  (sumQ ((λ j, X (x_var i j)) <$> J_of obras i) <= 1)%Q.
Proof.
  intros Hi. destruct Hfeasible as [_ Hholds].
  destruct (build_model_constrs estoque obras) as (_ & extra & Hcs & _).
  rewrite Forall_forall in Hholds.
  assert (one_execution_constr obras i
          ∈ model_constrs (build_model estoque obras new_model).1) as Hin.
  { rewrite Hcs. apply elem_of_app. left. apply list_elem_of_fmap_2.
    by apply elem_of_sets_I. }
  apply Hholds in Hin. unfold holds in Hin. simpl in Hin.
  by rewrite eval_quicksum_vars, eval_of_num in Hin.
Qed.

End feasible_facts.

(** ** Marking within the solver's tolerance *)

(** [np.isclose(x, 1)] accepts a value within [δ] of 1 and refuses one
    within [δ] of 0, for any [δ] up to 1e-5. *)
Lemma isclose_near_one x δ :
  (δ <= 1 # 100000)%Q → (Qabs (x - 1) <= δ)%Q → isclose x 1 = true.
Proof.
  intros Hδ Hx. unfold isclose. apply Qle_bool_iff.
  eapply Qle_trans; [exact Hx|]. eapply Qle_trans; [exact Hδ|].
  by vm_compute.
Qed.

Lemma isclose_near_zero x δ :
  (δ <= 1 # 100000)%Q → (Qabs x <= δ)%Q → isclose x 1 = false.
Proof.
  intros Hδ Hx. destruct (isclose x 1) eqn:E; [|done].
  unfold isclose in E. apply Qle_bool_iff in E.
  assert (atol + rtol * Qabs 1 == 1001 # 100000000)%Q as Htol by reflexivity.
  rewrite Htol in E.
  apply Qabs_Qle_condition in Hx, E. lra.
Qed.

Lemma sumQ_shift {A} (f : A → Q) (c : Q) (l : list A) :
  (sumQ ((λ a, f a + c) <$> l)
   == sumQ (f <$> l) + inject_Z (Z.of_nat (length l)) * c)%Q.
Proof.
  induction l as [|a l IH].
  - change (0 == 0 + inject_Z 0 * c)%Q. ring.
  - rewrite !fmap_cons, !sumQ_cons, IH. cbn [length].
    rewrite Nat2Z.inj_succ, <- Z.add_1_r, inject_Z_plus. ring.
Qed.

(** X12.  Result extraction under the solver's tolerances.  Let every value
    of [x] be within [δ] of 0 or of 1, for some [δ] up to 1e-5, and let
    the assignment constraint of every task hold within [ε], with
    [|J_i| * δ + ε < 1] for every task (exactly integral, exactly feasible
    solutions are the case [δ = ε = 0]).  Then the keys [np.isclose] marks
    are read off without error, they are exactly the keys whose value is
    within [δ] of 1, and no task has two of them. *)
Theorem marking_picks_one_site_per_task estoque obras X (δ ε : Q) :
  (δ <= 1 # 100000)%Q →
  (∀ i j, (i, j) ∈ x_domain obras →
          (Qabs (X (x_var i j)) <= δ ∨ Qabs (X (x_var i j) - 1) <= δ)%Q) →
  (∀ i, i ∈ sets.I (define_sets estoque obras) →
        (eval X (constr_lhs (one_execution_constr obras i)) <= 1 + ε)%Q
        ∧ (inject_Z (Z.of_nat (length (J_of obras i))) * δ + ε < 1)%Q) →
  ∃ on,
    vars_x_on (created_vars estoque obras) (Solved X) = Ok on
    ∧ (∀ i j, (i, j) ∈ on
              ↔ (i, j) ∈ x_domain obras ∧ (Qabs (X (x_var i j) - 1) <= δ)%Q)
    ∧ ∀ i j1 j2, (i, j1) ∈ on → (i, j2) ∈ on → j1 = j2.
Proof.
  intros Hδ Hnear Hconstr. exists (marked obras X).
  split; [apply vars_x_on_Solved|].
  assert (∀ i j, (i, j) ∈ marked obras X
            ↔ (i, j) ∈ x_domain obras ∧ (Qabs (X (x_var i j) - 1) <= δ)%Q)
    as Hmarked.
  { intros i j. rewrite elem_of_marked. unfold selected. split.
    - intros [Hij Hclose]. split; [done|].
      destruct (Hnear i j Hij) as [H0|H1]; [|done].
      by rewrite (isclose_near_zero _ δ) in Hclose.
    - intros [Hij H1]. split; [done|]. by apply (isclose_near_one _ δ). }
  split; [done|]. intros i j1 j2 H1 H2.
  apply Hmarked in H1 as [H1 Hx1]. apply Hmarked in H2 as [H2 Hx2].
  destruct (decide (j1 = j2)) as [|Hne]; [done|]. exfalso.
  assert (i ∈ sets.I (define_sets estoque obras)) as Hi
    by (by eapply elem_of_sets_I, pair_dep_obra, elem_of_x_domain).
  destruct (Hconstr i Hi) as [Hsum Hcount].
  cbn [one_execution_constr constr_lhs] in Hsum.
  rewrite (eval_quicksum_vars X (x_var i)) in Hsum.
  assert (0 <= δ)%Q as Hδ0
    by (eapply Qle_trans; [apply Qabs_nonneg|exact Hx1]).
  pose proof (sumQ_ge_two (λ j, X (x_var i j) + δ)%Q (J_of obras i) j1 j2)
    as Hge.
  cbn beta in Hge. rewrite sumQ_shift in Hge.
  assert (X (x_var i j1) + δ + (X (x_var i j2) + δ)
          <= sumQ ((λ j, X (x_var i j)) <$> J_of obras i)
             + inject_Z (Z.of_nat (length (J_of obras i))) * δ)%Q as Htwo.
  { apply Hge; [|by apply elem_of_J_of, elem_of_x_domain..|done].
    intros j Hj.
    assert ((i, j) ∈ x_domain obras) as Hij
      by (by apply elem_of_x_domain, elem_of_J_of).
    destruct (Hnear i j Hij) as [Hx|Hx];
      apply Qabs_Qle_condition in Hx; lra. }
  apply Qabs_Qle_condition in Hx1, Hx2. lra.
Qed.

Lemma marking_picks_one_site_per_task_witness :
  ∃ on,
    vars_x_on (created_vars ex_estoque ex_obras) (Solved ex_solution) = Ok on
    ∧ (∀ i j, (i, j) ∈ on
              ↔ (i, j) ∈ x_domain ex_obras
                ∧ (Qabs (ex_solution (x_var i j) - 1) <= 1 # 10000000)%Q)
    ∧ ∀ i j1 j2, (i, j1) ∈ on → (i, j2) ∈ on → j1 = j2.
Proof.
  apply (marking_picks_one_site_per_task ex_estoque ex_obras ex_solution
           (1 # 10000000) 0).
  - by vm_compute.
  - intros i j Hij. vm_compute in Hij.
    repeat (apply elem_of_cons in Hij as [[= -> ->]|Hij];
            [(by left; vm_compute) || (by right; vm_compute)|]).
    by apply elem_of_nil in Hij.
  - intros i Hi. vm_compute in Hi.
    repeat (apply elem_of_cons in Hi as [->|Hi]; [by vm_compute|]).
    by apply elem_of_nil in Hi.
Defined.

Lemma w_of_nonneg obras i :
  (∀ r, r ∈ obras → 0 ≤ prioridade r) → 0 ≤ w_of obras i.
Proof.
  intros Hpos. unfold w_of, w_row.
  destruct (last _) as [r|] eqn:Hl; simpl; [|done].
  apply last_Some_elem_of, list_elem_of_filter in Hl as [_ Hr].
  by apply Hpos, (drop_duplicates_subseteq _ _ _ Hr).
Qed.

Lemma eval_scaled_vars X {A} (f : A → Var) (c : Z) (l : list A) :
  (eval X (quicksum ((λ a, var_times (f a) c) <$> l))
   == inject_Z c * sumQ ((λ a, X (f a)) <$> l))%Q.
Proof.
  rewrite eval_quicksum, <- list_fmap_compose.
  induction l as [|a l IH]; [simpl; ring|].
  rewrite !fmap_cons, !sumQ_cons, IH. simpl. rewrite eval_var_times. ring.
Qed.

(** X13.  With no negative priority in the task table, the objective value
    of a feasible solution is at most the sum over the tasks of [I] of the
    priority [w] keeps for the task: the objective is bounded. *)
Theorem objective_is_bounded_by_total_priority estoque obras X :
  (∀ r, r ∈ obras → 0 ≤ prioridade r) →
  feasible (build_model estoque obras new_model).1 X →
  (eval X (priority_objective obras)
   <= sumQ ((λ i, inject_Z (w_of obras i))
              <$> sets.I (define_sets estoque obras)))%Q.
Proof.
  intros Hpos Hfeas. unfold priority_objective.
  change (sets.I (define_sets estoque obras)) with (unique (obra <$> obras)).
  assert (∀ i, i ∈ unique (obra <$> obras) → i ∈ obra <$> obras) as Hsub
    by (intros i; apply elem_of_unique).
  induction (unique (obra <$> obras)) as [|i l IH].
  - change (eval X (of_num 0) <= 0)%Q. rewrite eval_of_num. by vm_compute.
  - rewrite !fmap_cons. change (mjoin (?a :: ?ls)) with (a ++ mjoin ls).
    rewrite eval_quicksum_app, sumQ_cons.
    rewrite (eval_scaled_vars X (x_var i)).
    pose proof (feasible_one_execution estoque obras X Hfeas i
                  (Hsub i ltac:(left))) as Hone.
    pose proof (w_of_nonneg obras i Hpos) as Hw.
    assert (0 <= inject_Z (w_of obras i))%Q as HwQ
      by (by apply (Qle_trans _ (inject_Z 0)); [|rewrite <- Zle_Qle]).
    specialize (IH (λ i' Hi', Hsub i' ltac:(by right))).
    assert (inject_Z (w_of obras i)
            * sumQ ((λ j, X (x_var i j)) <$> J_of obras i)
            <= inject_Z (w_of obras i) * 1)%Q as Hscaled
      by (by apply Qmult_le_l_nonneg || nra).
    lra.
Qed.

(** The best solution of the first example satisfies every bound and every
    constraint of its model. *)
Lemma ex_optimum_feasible :
  feasible (build_model ex_estoque ex_obras new_model).1 ex_optimum.
Proof.
  set (mdl := (build_model ex_estoque ex_obras new_model).1).
  vm_compute in mdl. subst mdl. split; cbn [model_vars model_constrs].
  - repeat (apply Forall_cons; split;
            [vm_compute; first [by left | by right | by intros [=]]|]).
    constructor.
  - repeat (apply Forall_cons; split; [vm_compute; by intros [=]|]).
    constructor.
Qed.

Lemma objective_is_bounded_by_total_priority_witness :
  (eval ex_optimum (priority_objective ex_obras)
   <= sumQ ((λ i, inject_Z (w_of ex_obras i))
              <$> sets.I (define_sets ex_estoque ex_obras)))%Q.
Proof.
  apply (objective_is_bounded_by_total_priority ex_estoque ex_obras).
  - intros r Hr.
    repeat (apply elem_of_cons in Hr as [->|Hr]; [simpl; lia|]).
    by apply elem_of_nil in Hr.
  - apply ex_optimum_feasible.
Defined.

(** * The outcomes of a run *)

(** X14.  The ways a run on a task table with at least one row can end.
    When some site of the stock relation has no task row it raises
    [KeyError] and writes nothing.  Otherwise the model is built to the end
    and handed to the solver: without a solution the run raises on the
    first read of a value and writes nothing; with a solution it writes
    [output_var_X.csv] and then, exactly when every (task, site) pair has
    one priority, [output_agrupado.csv], ending in [MergeError] when not.
    So the second file is never written without the first, and the run
    returns normally exactly when it has written both. *)
Theorem run_outcomes optimize estoque obras :
  obras ≠ [] →
  (¬ sites_covered estoque obras →
   (run optimize estoque obras).2 = Raise KeyError
   ∧ world_files (run optimize estoque obras).1 = [])
  ∧ (sites_covered estoque obras →
     world_model (run optimize estoque obras).1
     = mkModel (declared_vars estoque obras) (built_constrs estoque obras)
         (Some (priority_objective obras, MAXIMIZE))
     ∧ match optimize (world_model (run optimize estoque obras).1) with
       | NoSolution _ =>
           (run optimize estoque obras).2 = Raise AttributeError
           ∧ world_files (run optimize estoque obras).1 = []
       | Solved X =>
           if decide (priority_per_pair obras)
           then (run optimize estoque obras).2 = Ok ()
                ∧ world_files (run optimize estoque obras).1
                  = [output_var_X_csv (output_X (marked obras X));
                     output_agrupado_csv
                       (grouped (reconciled obras (marked obras X)))]
           else (run optimize estoque obras).2 = Raise MergeError
                ∧ world_files (run optimize estoque obras).1
                  = [output_var_X_csv (output_X (marked obras X))]
       end)
  ∧ ((run optimize estoque obras).2 = Ok ()
     ↔ ∃ a b, world_files (run optimize estoque obras).1
              = [output_var_X_csv a; output_agrupado_csv b]).
Proof.
  intros Hne. unfold run.
  destruct (build_model_cases estoque obras) as [[Hcov Hb]|(Hn & Hr & _)].
  - rewrite Hb. cbn [fst snd].
    destruct (optimize _) as [X|st] eqn:Hopt.
    + rewrite generate_results_Solved by done. rewrite app_nil_l.
      destruct (decide (priority_per_pair obras)) as [Hp|Hp].
      * cbn [fst snd world_model world_files]. rewrite Hopt.
        split; [done|]. split; [done|]. split; [eauto|done].
      * cbn [fst snd world_model world_files]. rewrite Hopt.
        split; [done|]. split; [done|].
        split; [done|]. by intros (a & b & [=]).
    + rewrite generate_results_NoSolution by done.
      cbn [fst snd world_model world_files]. rewrite Hopt.
      split; [done|]. split; [done|]. split; [done|].
      by intros (a & b & [=]).
  - destruct (build_model estoque obras new_model) as [mdl [v|e]];
      cbn [fst snd] in *; [done|]. injection Hr as ->.
    cbn [world_files]. split; [done|]. split; [done|].
    split; [done|]. by intros (a & b & [=]).
Qed.

Lemma run_outcomes_witness :
  (run (λ _, Solved (λ _, 1%Q)) ex_estoque_one ex_obras_one).2 = Ok ()
  ↔ ∃ a b, world_files
             (run (λ _, Solved (λ _, 1%Q)) ex_estoque_one ex_obras_one).1
           = [output_var_X_csv a; output_agrupado_csv b].
Proof.
  apply (run_outcomes (λ _, Solved (λ _, 1%Q)) ex_estoque_one ex_obras_one).
  done.
Defined.

(** * The grouped table *)

Lemma StronglySorted_le_lt (l : list Z) :
  StronglySorted Z.le l → NoDup l → StronglySorted Z.lt l.
Proof.
  induction 1 as [|a l Hl IH Ha]; intros Hnd; [constructor|].
  apply NoDup_cons in Hnd as [Hin Hnd]. constructor; [by apply IH|].
  apply Forall_forall. intros b Hb.
  rewrite Forall_forall in Ha. specialize (Ha b Hb).
  assert (a ≠ b) by (by intros ->). lia.
Qed.

Lemma grouped_sites df :
  g_cod_dep <$> grouped df = merge_sort Z.le (unique (ro_cod_dep <$> df)).
Proof.
  unfold grouped. rewrite <- list_fmap_compose.
  induction (merge_sort _ _) as [|d l IH]; [done|].
  rewrite fmap_cons, IH. done.
Qed.

(** X15.  [df_grouped] has one row per distinct site of the reconciled
    table, the sites in strictly increasing order. *)
Theorem grouped_has_one_row_per_site_in_order df :
  StronglySorted Z.lt (g_cod_dep <$> grouped df)
  ∧ ∀ d, d ∈ g_cod_dep <$> grouped df ↔ d ∈ ro_cod_dep <$> df.
Proof.
  rewrite grouped_sites. split.
  - apply StronglySorted_le_lt.
    + apply StronglySorted_merge_sort; apply _.
    + rewrite merge_sort_Permutation. apply NoDup_unique.
  - intros d. by rewrite merge_sort_Permutation, elem_of_unique.
Qed.

Lemma total_indicator (k c : Z) (T : Z → Z) (ks : list Z) :
  NoDup ks → k ∈ ks →
  total ((λ d, (if decide (k = d) then c else 0) + T d) <$> ks)
  = c + total (T <$> ks).
Proof.
  assert (∀ l, k ∉ l →
    total ((λ d, (if decide (k = d) then c else 0) + T d) <$> l)
    = total (T <$> l)) as Hout.
  { induction l as [|d l IH]; intros Hk; [done|].
    rewrite !fmap_cons. simpl. rewrite IH by (rewrite elem_of_cons in Hk; tauto).
    rewrite decide_False; [lia|]. intros ->. apply Hk. left. }
  induction 1 as [|d ks Hd Hks IH]; intros Hk; [by apply elem_of_nil in Hk|].
  rewrite !fmap_cons. simpl. destruct (decide (k = d)) as [->|Hne].
  - rewrite Hout by done. lia.
  - rewrite IH; [lia|]. apply elem_of_cons in Hk as [?|?]; done.
Qed.

(** Summing a column group by group gives the sum of the column. *)
Lemma total_by_group {A} (key f : A → Z) (ks : list Z) (l : list A) :
  NoDup ks → (∀ a, a ∈ l → key a ∈ ks) →
  total ((λ d, total (f <$> filter (λ a, key a = d) l)) <$> ks)
  = total (f <$> l).
Proof.
  intros Hks. induction l as [|a l IH]; intros Hl.
  - clear. induction ks as [|d ks IHks]; [done|]. exact IHks.
  - rewrite fmap_cons. simpl.
    rewrite <- IH by (intros b Hb; apply Hl; by right).
    rewrite <- (total_indicator (key a) (f a)) by (done || apply Hl; left).
    f_equal. apply list_fmap_ext. intros _ d _.
    rewrite filter_cons. destruct (decide (key a = d)); [|done].
    by rewrite fmap_cons.
Qed.

(** Summing an aggregate of [df_grouped] over its rows gives the sum of the
    column it aggregates. *)
Lemma total_grouped_column (col : RealOutput → Z) df :
  total ((λ d, total (col <$> filter (λ r, ro_cod_dep r = d) df))
           <$> merge_sort Z.le (unique (ro_cod_dep <$> df)))
  = total (col <$> df).
Proof.
  apply (total_by_group ro_cod_dep).
  - rewrite merge_sort_Permutation. apply NoDup_unique.
  - intros r Hr. rewrite merge_sort_Permutation, elem_of_unique.
    by apply list_elem_of_fmap_2.
Qed.

(** ** Sums of whole-valued [float64] columns *)

Lemma total_cons a l : total (a :: l) = a + total l.
Proof. reflexivity. Qed.

Lemma total_abs_nonneg l : 0 ≤ total (Z.abs <$> l).
Proof.
  induction l as [|a l IH]; [done|]. rewrite fmap_cons, total_cons. lia.
Qed.

Lemma abs_total_le l : Z.abs (total l) ≤ total (Z.abs <$> l).
Proof.
  induction l as [|a l IH]; [done|]. rewrite fmap_cons, !total_cons. lia.
Qed.

Lemma total_le_fmap {A} (f g : A → Z) (l : list A) :
  (∀ a, a ∈ l → f a ≤ g a) → total (f <$> l) ≤ total (g <$> l).
Proof.
  induction l as [|a l IH]; intros Hfg; [done|].
  rewrite !fmap_cons, !total_cons.
  pose proof (Hfg a ltac:(left)).
  pose proof (IH (λ b Hb, Hfg b ltac:(by right))). lia.
Qed.

Lemma total_abs_sublist l1 l2 :
  l1 `sublist_of` l2 → total (Z.abs <$> l1) ≤ total (Z.abs <$> l2).
Proof.
  induction 1 as [|a l1 l2 _ IH|a l1 l2 _ IH];
    rewrite ?fmap_cons, ?total_cons; [done|lia..].
Qed.

(** While the absolute values stay below 2^53 in total every partial sum is
    a [float64], the compensation stays 0 and the sum is exact. *)
Lemma kahan_exact s l :
  Z.abs s + total (Z.abs <$> l) < 2 ^ 53 →
  foldl kahan_step (s, 0) l = (s + total l, 0).
Proof.
  revert s. induction l as [|a l IH]; intros s Hs.
  - simpl. by rewrite Z.add_0_r.
  - rewrite fmap_cons, total_cons in Hs.
    pose proof (total_abs_nonneg l).
    cbn [foldl]. unfold kahan_step at 2, fsub, fadd. cbn [fst snd].
    rewrite Z.sub_0_r, (round53_small a) by lia.
    rewrite (round53_small (s + a)) by lia.
    replace (s + a - s) with a by lia.
    rewrite (round53_small a) by lia.
    rewrite Z.sub_diag, (round53_small 0) by lia.
    rewrite IH by lia. f_equal. rewrite total_cons. lia.
Qed.

Lemma sum_float64_exact l :
  total (Z.abs <$> l) < 2 ^ 53 → sum_float64 l = total l.
Proof.
  intros Hl. unfold sum_float64.
  by rewrite kahan_exact by (change (Z.abs 0) with 0; lia).
Qed.

(** The served priorities of a group, whichever the type of the column,
    and its priorities add up exactly while the absolute values of the
    column stay below 2^53, respectively 2^63, in total. *)
Lemma group_served_priorities_exact df d :
  total (Z.abs <$> (ro_prioridade_atendida <$> df)) < 2 ^ 53 →
  (if served_as_float df then sum_float64 else sum_int64)
    (ro_prioridade_atendida <$> filter (λ r, ro_cod_dep r = d) df)
  = total (ro_prioridade_atendida <$> filter (λ r, ro_cod_dep r = d) df).
Proof.
  intros Hdf.
  pose proof (total_abs_sublist
                (ro_prioridade_atendida <$> filter (λ r, ro_cod_dep r = d) df)
                (ro_prioridade_atendida <$> df)
                (fmap_sublist _ _ _ (sublist_filter _ _))) as Hle.
  pose proof (abs_total_le
                (ro_prioridade_atendida
                   <$> filter (λ r, ro_cod_dep r = d) df)).
  destruct (served_as_float df).
  - apply sum_float64_exact. lia.
  - apply sum_int64_exact. unfold in_int64. lia.
Qed.

Lemma group_priorities_exact df d :
  total (Z.abs <$> (ro_prioridade <$> df)) < 2 ^ 63 →
  sum_int64 (ro_prioridade <$> filter (λ r, ro_cod_dep r = d) df)
  = total (ro_prioridade <$> filter (λ r, ro_cod_dep r = d) df).
Proof.
  intros Hdf.
  pose proof (total_abs_sublist
                (ro_prioridade <$> filter (λ r, ro_cod_dep r = d) df)
                (ro_prioridade <$> df)
                (fmap_sublist _ _ _ (sublist_filter _ _))) as Hle.
  pose proof (abs_total_le
                (ro_prioridade <$> filter (λ r, ro_cod_dep r = d) df)).
  apply sum_int64_exact. unfold in_int64. lia.
Qed.

(** The served priorities of the grouped table add up to those of the
    reconciled table while these stay below 2^53 in total. *)
Lemma total_served_priorities df :
  total (Z.abs <$> (ro_prioridade_atendida <$> df)) < 2 ^ 53 →
  total (SOMA_PRIORIDADES_EXECUTADAS <$> grouped df)
  = total (ro_prioridade_atendida <$> df).
Proof.
  intros Hdf. unfold grouped. rewrite <- list_fmap_compose.
  rewrite <- (total_grouped_column ro_prioridade_atendida df).
  f_equal. apply list_fmap_ext. intros n d _.
  cbn [compose SOMA_PRIORIDADES_EXECUTADAS].
  by apply group_served_priorities_exact.
Qed.

(** X16.  Grouping loses nothing while the sums are exact.  Over the rows
    of [df_grouped] the served counts add up to the sum of the served flags
    of the reconciled table; the served priorities add up to the sum of its
    served priorities when their absolute values total less than 2^53 (so
    that the [float64] sums are exact), and the priorities to the sum of its
    priorities when their absolute values total less than 2^63 (so that the
    [int64] sums do not wrap). *)
Theorem grouped_totals_add_up df :
  total (Z.abs <$> (ro_prioridade_atendida <$> df)) < 2 ^ 53 →
  total (Z.abs <$> (ro_prioridade <$> df)) < 2 ^ 63 →
  total (OBRAS_EXECUTADAS <$> grouped df) = total (ro_obra_atendida <$> df)
  ∧ total (SOMA_PRIORIDADES_EXECUTADAS <$> grouped df)
    = total (ro_prioridade_atendida <$> df)
  ∧ total (SOMA_PRIORIDADES_ASSOCIADAS <$> grouped df)
    = total (ro_prioridade <$> df).
Proof.
  intros Hserved Hprio. split; [|split].
  - unfold grouped. rewrite <- list_fmap_compose.
    apply (total_grouped_column ro_obra_atendida).
  - by apply total_served_priorities.
  - unfold grouped. rewrite <- list_fmap_compose.
    rewrite <- (total_grouped_column ro_prioridade df).
    f_equal. apply list_fmap_ext. intros n d _.
    cbn [compose SOMA_PRIORIDADES_ASSOCIADAS].
    by apply group_priorities_exact.
Qed.

Lemma grouped_totals_add_up_witness :
  total (OBRAS_EXECUTADAS
           <$> grouped (reconciled ex_obras [(1, 20); (2, 10)]))
  = total (ro_obra_atendida <$> reconciled ex_obras [(1, 20); (2, 10)])
  ∧ total (SOMA_PRIORIDADES_EXECUTADAS
             <$> grouped (reconciled ex_obras [(1, 20); (2, 10)]))
    = total (ro_prioridade_atendida
               <$> reconciled ex_obras [(1, 20); (2, 10)])
  ∧ total (SOMA_PRIORIDADES_ASSOCIADAS
             <$> grouped (reconciled ex_obras [(1, 20); (2, 10)]))
    = total (ro_prioridade <$> reconciled ex_obras [(1, 20); (2, 10)]).
Proof.
  apply (grouped_totals_add_up (reconciled ex_obras [(1, 20); (2, 10)]));
    by vm_compute.
Defined.

(** * The grouped table of a run *)

Lemma total_Permutation l1 l2 : l1 ≡ₚ l2 → total l1 = total l2.
Proof.
  induction 1 as [|a l1 l2 _ IH|a b l|l1 l2 l3 _ IH1 _ IH2]; simpl; lia.
Qed.

Lemma total_count {A} (P : A → Prop) `{∀ a, Decision (P a)} (l : list A) :
  total ((λ a, if decide (P a) then 1 else 0) <$> l)
  = Z.of_nat (length (filter P l)).
Proof.
  induction l as [|a l IH]; [done|].
  rewrite fmap_cons, filter_cons. simpl. rewrite IH.
  case_decide; simpl; lia.
Qed.

Lemma drop_duplicates_sublist {R K} `{EqDecision K} (key : R → K)
    (l : list R) :
  drop_duplicates key l `sublist_of` l.
Proof.
  induction l as [|a l IH]; [done|]. simpl. apply sublist_skip.
  etrans; [apply sublist_filter|done].
Qed.

(** The absolute priorities of the rows of the reconciled table total at
    most those of the task rows. *)
Lemma total_abs_triples obras :
  total ((λ l : Z * Z * Z, Z.abs l.2) <$> triples obras)
  ≤ total (Z.abs <$> (prioridade <$> obras)).
Proof.
  unfold triples.
  rewrite (unique_as_drop_duplicates
             (λ r, (obra r, cod_dep r, prioridade r)) obras).
  etrans; [|apply (total_abs_sublist
                     (prioridade <$> drop_duplicates
                        (λ r, (obra r, cod_dep r, prioridade r)) obras)
                     (prioridade <$> obras)
                     (fmap_sublist _ _ _ (drop_duplicates_sublist _ _)))].
  apply Z.eq_le_incl. f_equal. by rewrite <- !list_fmap_compose.
Qed.

Lemma abs_le_total_abs {A} (f : A → Z) (l : list A) a :
  a ∈ l → Z.abs (f a) ≤ total (Z.abs <$> (f <$> l)).
Proof.
  induction l as [|b l IH]; intros Ha; [by apply elem_of_nil in Ha|].
  rewrite !fmap_cons, total_cons. pose proof (total_abs_nonneg (f <$> l)).
  apply elem_of_cons in Ha as [->|Ha]; [lia|]. specialize (IH Ha). lia.
Qed.

Section grouped_of_run.
Variable obras : list ObraRow.
Variable on : list (Z * Z).
Hypothesis Hper_pair : priority_per_pair obras.
Hypothesis Hon : NoDup on.
Hypothesis Hdomain : ∀ k, k ∈ on → k ∈ x_domain obras.

(** With one priority per pair, the rows of the reconciled table are the
    keys of [x], in another order. *)
Lemma pairs_of_triples :
  (λ l : Z * Z * Z, (l.1.1, l.1.2)) <$> triples obras ≡ₚ x_domain obras.
Proof.
  apply NoDup_Permutation; [|apply NoDup_x_domain|].
  - apply NoDup_fmap_2_strong; [|apply NoDup_unique].
    intros [[i1 j1] w1] [[i2 j2] w2] H1 H2 [= -> ->].
    apply elem_of_triples in H1 as (r1 & ? & ? & ? & ?).
    apply elem_of_triples in H2 as (r2 & ? & ? & ? & ?).
    f_equal. subst. apply Hper_pair; congruence.
  - intros [i j]. rewrite elem_of_x_domain, !list_elem_of_fmap. split.
    + intros ([[i' j'] w] & [= -> ->] & Hl).
      apply elem_of_triples in Hl as (r & ? & ? & ? & ?).
      exists r. split; [congruence|done].
    + intros (r & [= -> ->] & Hr).
      exists (obra r, cod_dep r, prioridade r). split; [done|].
      apply elem_of_triples. by exists r.
Qed.

Lemma reconciled_group d :
  filter (λ r, ro_cod_dep r = d) (reconciled obras on)
  = (λ l : Z * Z * Z,
       let atendida := if decide ((l.1.1, l.1.2) ∈ on) then 1 else 0 in
       mkRealOutput l.1.1 l.1.2 l.2 atendida
         (served_priority
            (bool_decide (Exists (λ l : Z * Z * Z, (l.1.1, l.1.2) ∉ on)
                            (triples obras)))
            atendida l.2))
      <$> filter (λ l, l.1.2 = d) (triples obras).
Proof. unfold reconciled. cbv zeta. by rewrite filter_fmap. Qed.

(** The tasks of the rows of site [d] are the tasks of [I_j[d]]. *)
Lemma tasks_of_reconciled_group d :
  unique (ro_obra <$> filter (λ r, ro_cod_dep r = d) (reconciled obras on))
  = I_of obras d.
Proof.
  rewrite reconciled_group, <- list_fmap_compose.
  unfold triples.
  rewrite (unique_as_drop_duplicates
             (λ r, (obra r, cod_dep r, prioridade r)) obras), filter_fmap.
  rewrite <- list_fmap_compose, I_of_plain.
  apply (unique_column_of_group
           (λ r, (obra r, cod_dep r, prioridade r)) cod_dep obra).
  by intros a b [= -> -> _].
Qed.

(** The served count of site [d] is the number of marked keys of [d]. *)
Lemma served_of_reconciled_group d :
  total (ro_obra_atendida
           <$> filter (λ r, ro_cod_dep r = d) (reconciled obras on))
  = Z.of_nat (length (filter (λ k, k.2 = d) on)).
Proof.
  rewrite reconciled_group, <- list_fmap_compose.
  etrans; [exact (total_count (λ l : Z * Z * Z, (l.1.1, l.1.2) ∈ on) _)|].
  f_equal. rewrite <- (length_fmap (λ l : Z * Z * Z, (l.1.1, l.1.2))).
  apply Permutation_length, NoDup_Permutation.
  - apply (sublist_NoDup _ ((λ l : Z * Z * Z, (l.1.1, l.1.2))
                              <$> triples obras)).
    + rewrite pairs_of_triples. apply NoDup_x_domain.
    + apply fmap_sublist. etrans; apply sublist_filter.
  - by apply NoDup_filter.
  - intros k. rewrite list_elem_of_fmap. split.
    + intros (l & -> & Hl).
      apply list_elem_of_filter in Hl as [Hl1 Hl].
      apply list_elem_of_filter in Hl as [Hl2 _].
      by apply list_elem_of_filter.
    + intros Hk. apply list_elem_of_filter in Hk as [Hd Hk].
      pose proof (Hdomain k Hk) as Hin.
      rewrite <- pairs_of_triples in Hin.
      apply list_elem_of_fmap in Hin as (l & -> & Hl).
      exists l. split; [done|].
      apply list_elem_of_filter. split; [done|].
      by apply list_elem_of_filter.
Qed.

(** The marked keys of a site have distinct tasks, all of [I_j[d]]. *)
Lemma marked_tasks_of_site d :
  (length (filter (λ k, k.2 = d) on) ≤ length (I_of obras d))%nat.
Proof.
  rewrite <- (length_fmap fst). apply submseteq_length, NoDup_submseteq.
  - apply NoDup_fmap_2_strong; [|by apply NoDup_filter].
    intros [i1 j1] [i2 j2] H1 H2 Hi.
    apply list_elem_of_filter in H1 as [H1 _].
    apply list_elem_of_filter in H2 as [H2 _]. simpl in *. congruence.
  - intros i Hi. apply list_elem_of_fmap in Hi as ([i' j] & -> & Hk).
    apply list_elem_of_filter in Hk as [Hj Hk]. simpl in *. subst j.
    apply elem_of_I_of, elem_of_x_domain. by apply Hdomain.
Qed.

(** The served priority of a row is the priority of a marked pair and 0
    for another, while the priorities are [float64]s. *)
Lemma served_priority_of_row row :
  total (Z.abs <$> (prioridade <$> obras)) < 2 ^ 53 →
  row ∈ reconciled obras on →
  ro_prioridade_atendida row = ro_obra_atendida row * ro_prioridade row
  ∧ (ro_obra_atendida row = 0 ∨ ro_obra_atendida row = 1)
  ∧ Z.abs (ro_prioridade row) ≤ total (Z.abs <$> (prioridade <$> obras)).
Proof.
  intros Hsmall Hrow. unfold reconciled in Hrow.
  apply list_elem_of_fmap in Hrow as ([[i j] w] & -> & Hl).
  cbn [ro_prioridade_atendida ro_obra_atendida ro_prioridade fst snd].
  apply elem_of_triples in Hl as (r & Hr & _ & _ & <-).
  pose proof (abs_le_total_abs prioridade obras r Hr) as Hw.
  split; [|split; [case_decide; tauto|done]].
  apply served_priority_exact; [case_decide; tauto|lia].
Qed.

(** The served priorities of the reconciled table, summed over the keys of
    [x]. *)
Lemma served_priority_over_keys :
  total (Z.abs <$> (prioridade <$> obras)) < 2 ^ 53 →
  (∀ r, r ∈ obras → prioridade r = w_of obras (obra r)) →
  total (ro_prioridade_atendida <$> reconciled obras on)
  = total ((λ k, (if decide (k ∈ on) then 1 else 0) * w_of obras k.1)
             <$> x_domain obras).
Proof.
  intros Hsmall Hw. rewrite <- (total_Permutation _ _
    (fmap_Permutation _ _ _ pairs_of_triples)).
  rewrite (list_fmap_ext ro_prioridade_atendida
             (λ row, ro_obra_atendida row * ro_prioridade row)
             (reconciled obras on));
    [|intros n row Hrow;
      by apply served_priority_of_row, list_elem_of_lookup_2 with n].
  unfold reconciled. rewrite <- !list_fmap_compose.
  f_equal. apply list_fmap_ext. intros n [[i j] w] Hl.
  apply list_elem_of_lookup_2, elem_of_triples in Hl as (r & Hr & <- & <- & <-).
  simpl. by rewrite (Hw r Hr).
Qed.

(** The served priorities of the reconciled table stay below 2^53 in total
    when the priorities of the task rows do. *)
Lemma total_abs_served :
  total (Z.abs <$> (prioridade <$> obras)) < 2 ^ 53 →
  total (Z.abs <$> (ro_prioridade_atendida <$> reconciled obras on)) < 2 ^ 53.
Proof.
  intros Hsmall.
  eapply Z.le_lt_trans; [|exact Hsmall].
  etrans; [|apply total_abs_triples].
  rewrite <- list_fmap_compose.
  etrans; [apply (total_le_fmap _ (λ row, Z.abs (ro_prioridade row)))|].
  - intros row Hrow.
    destruct (served_priority_of_row row Hsmall Hrow) as (Heq & Hflag & _).
    cbn [compose]. rewrite Heq. destruct Hflag as [-> | ->]; lia.
  - unfold reconciled. by rewrite <- list_fmap_compose.
Qed.
End grouped_of_run.

(** Without conflicting priorities every row carries the priority [w]
    keeps for its task. *)
Lemma priority_is_w_of obras r :
  ¬ conflicting_priorities obras → r ∈ obras →
  prioridade r = w_of obras (obra r).
Proof.
  intros Hno Hr.
  destruct (w_row_Some obras (obra r)) as (r' & Hrow & Hr' & Hobra);
    [by apply list_elem_of_fmap_2|].
  unfold w_of. rewrite Hrow. simpl.
  destruct (decide (prioridade r = prioridade r')) as [|Hne]; [done|].
  destruct Hno. by exists r, r'.
Qed.

Lemma priority_per_pair_of_tasks obras :
  ¬ conflicting_priorities obras → priority_per_pair obras.
Proof.
  intros Hno r1 r2 Hr1 Hr2 Hi _.
  destruct (decide (prioridade r1 = prioridade r2)) as [|Hne]; [done|].
  destruct Hno. by exists r1, r2.
Qed.

(** X17.  In the grouped table written for a solution, when every (task,
    site) pair has one priority, the site of a row has an entry in [I_j];
    the row's number of associated tasks is the size of that entry; its
    number of executed tasks is the number of marked keys of the site, and
    is at most the number of associated tasks. *)
Theorem grouped_row_counts_tasks_and_marked_keys estoque obras X g :
  priority_per_pair obras →
  g ∈ grouped (reconciled obras (marked obras X)) →
  (∃ Ij, sets.I_j (define_sets estoque obras) !! g_cod_dep g = Some Ij
         ∧ NUM_OBRAS_ASSOCIADAS g = length Ij)
  ∧ OBRAS_EXECUTADAS g
    = Z.of_nat (length (filter (λ k, k.2 = g_cod_dep g) (marked obras X)))
  ∧ 0 ≤ OBRAS_EXECUTADAS g ≤ Z.of_nat (NUM_OBRAS_ASSOCIADAS g).
Proof.
  intros Hper Hg. unfold grouped in Hg.
  apply list_elem_of_fmap in Hg as (d & -> & Hd).
  cbn [g_cod_dep NUM_OBRAS_ASSOCIADAS OBRAS_EXECUTADAS].
  rewrite merge_sort_Permutation, elem_of_unique in Hd.
  assert (d ∈ cod_dep <$> obras) as Hsite.
  { apply list_elem_of_fmap in Hd as (r & -> & Hr).
    unfold reconciled in Hr.
    apply list_elem_of_fmap in Hr as ([[i j] w] & -> & Hl).
    apply elem_of_triples in Hl as (r & Hr & _ & <- & _).
    cbn [ro_cod_dep snd fst]. by apply list_elem_of_fmap_2. }
  assert (∀ k, k ∈ marked obras X → k ∈ x_domain obras) as Hdom
    by (intros k Hk; by apply list_elem_of_filter in Hk as [_ Hk]).
  rewrite tasks_of_reconciled_group.
  rewrite served_of_reconciled_group by (done || apply NoDup_marked).
  split; [|split; [done|]].
  - exists (I_of obras d). split; [|done].
    rewrite lookup_I_j. by rewrite decide_True.
  - pose proof (marked_tasks_of_site obras (marked obras X)
                  (NoDup_marked _ _) Hdom d).
    lia.
Qed.

Lemma grouped_row_counts_tasks_and_marked_keys_witness :
  (∃ Ij, sets.I_j (define_sets ex_estoque_one ex_obras_one) !! 10 = Some Ij
         ∧ 1%nat = length Ij)
  ∧ 1 = Z.of_nat (length (filter (λ k, k.2 = 10)
                            (marked ex_obras_one (λ _, 1%Q))))
  ∧ 0 ≤ 1 ≤ Z.of_nat 1.
Proof.
  apply (grouped_row_counts_tasks_and_marked_keys ex_estoque_one ex_obras_one
           (λ _, 1%Q) (mkGrouped 10 1 1 5 5)).
  - intros r1 r2 Hr1 Hr2 _ _.
    apply list_elem_of_singleton in Hr1, Hr2. by subst.
  - vm_compute. left.
Defined.

(** X18.  The report totals what was optimised, up to the tolerance of the
    marking.  Let no task have two priorities, let the absolute priorities
    of the task rows total less than 2^53 (so that the sums of the report
    are exact), and let every value of [x] be within [δ] of 0 or of 1, for
    some [δ] up to 1e-5.  Then the served priorities of the grouped table
    written for the solution add up to the value of the objective at the
    solution, within [δ] times the sum over the keys of [x] of the absolute
    priority [w] keeps for the task of the key; they are equal for a
    solution with values 0 and 1. *)
Theorem reported_priority_is_objective_value obras X (δ : Q) :
  ¬ conflicting_priorities obras →
  total (Z.abs <$> (prioridade <$> obras)) < 2 ^ 53 →
  (δ <= 1 # 100000)%Q →
  (∀ i j, (i, j) ∈ x_domain obras →
          (Qabs (X (x_var i j)) <= δ ∨ Qabs (X (x_var i j) - 1) <= δ)%Q) →
  (Qabs (inject_Z (total (SOMA_PRIORIDADES_EXECUTADAS
                            <$> grouped (reconciled obras (marked obras X))))
         - eval X (priority_objective obras))
   <= δ * inject_Z (total ((λ k, Z.abs (w_of obras k.1)) <$> x_domain obras)))%Q
  ∧ ((∀ i j, (i, j) ∈ x_domain obras →
             (X (x_var i j) == 0 ∨ X (x_var i j) == 1)%Q) →
     (inject_Z (total (SOMA_PRIORIDADES_EXECUTADAS
                         <$> grouped (reconciled obras (marked obras X))))
      == eval X (priority_objective obras))%Q).
Proof.
  intros Hno Hsmall Hδ Hnear.
  assert (∀ δ' : Q, (δ' <= 1 # 100000)%Q →
    (∀ i j, (i, j) ∈ x_domain obras →
            (Qabs (X (x_var i j)) <= δ' ∨ Qabs (X (x_var i j) - 1) <= δ')%Q) →
    (Qabs (inject_Z (total (SOMA_PRIORIDADES_EXECUTADAS
                              <$> grouped (reconciled obras (marked obras X))))
           - eval X (priority_objective obras))
     <= δ' * inject_Z (total ((λ k, Z.abs (w_of obras k.1))
                                <$> x_domain obras)))%Q) as Hbound.
  { clear δ Hδ Hnear. intros δ Hδ Hnear.
    rewrite total_served_priorities by (by apply total_abs_served).
    rewrite served_priority_over_keys
      by (done || (by apply priority_per_pair_of_tasks)
          || (intros; by apply priority_is_w_of)).
    rewrite eval_priority_objective.
    assert (∀ l : list (Z * Z), (∀ k, k ∈ l → k ∈ x_domain obras) →
      (Qabs (inject_Z (total ((λ k, (if decide (k ∈ marked obras X)
                                     then 1 else 0) * w_of obras k.1)%Z
                                <$> l))
             - sumQ ((λ k, X (x_var k.1 k.2) * inject_Z (w_of obras k.1))
                       <$> l))
       <= δ * inject_Z (total ((λ k, Z.abs (w_of obras k.1)) <$> l)))%Q)
      as Hsum; [|by apply Hsum].
    induction l as [|[i j] l IH]; intros Hsub.
    - change (Qabs (0 - 0) <= δ * 0)%Q. apply Qabs_Qle_condition. lra.
    - rewrite !fmap_cons, sumQ_cons, !total_cons.
      rewrite !inject_Z_plus, inject_Z_mult. cbn [fst snd].
      specialize (IH (λ k Hk, Hsub k ltac:(by right))).
      pose proof (Hsub (i, j) ltac:(left)) as Hij.
      set (W := w_of obras i) in *.
      apply Qabs_Qle_condition in IH. apply Qabs_Qle_condition.
      assert ((0 <= W ∧ (inject_Z (Z.abs W) == inject_Z W)%Q
               ∧ (0 <= inject_Z W)%Q)
              ∨ (W < 0 ∧ (inject_Z (Z.abs W) == - inject_Z W)%Q
                 ∧ (inject_Z W <= 0)%Q)) as Hsign.
      { destruct (Z.le_gt_cases 0 W) as [Hw|Hw]; [left|right].
        - split; [done|]. split; [by rewrite Z.abs_eq|].
          change 0%Q with (inject_Z 0). by rewrite <- Zle_Qle.
        - split; [done|]. split; [by rewrite Z.abs_neq, inject_Z_opp by lia|].
          change 0%Q with (inject_Z 0). rewrite <- Zle_Qle. lia. }
      destruct (Hnear i j Hij) as [Hx|Hx].
      + rewrite decide_False
          by (intros Hm; apply elem_of_marked in Hm as [_ Hm];
              by rewrite (isclose_near_zero _ δ) in Hm).
        apply Qabs_Qle_condition in Hx.
        change (inject_Z 0) with 0%Q.
        destruct Hsign as [(_ & -> & HW)|(_ & -> & HW)]; nra.
      + rewrite decide_True
          by (apply elem_of_marked; split; [done|];
              by apply (isclose_near_one _ δ)).
        apply Qabs_Qle_condition in Hx.
        change (inject_Z 1) with 1%Q.
        destruct Hsign as [(_ & -> & HW)|(_ & -> & HW)]; nra. }
  split; [by apply Hbound|]. intros Hbin.
  assert (Qabs (inject_Z (total (SOMA_PRIORIDADES_EXECUTADAS
                              <$> grouped (reconciled obras (marked obras X))))
                - eval X (priority_objective obras)) <= 0)%Q as Hzero.
  { eapply Qle_trans; [apply (Hbound 0%Q)|].
    - by vm_compute.
    - intros i j Hij. destruct (Hbin i j Hij) as [Hx|Hx]; [left|right];
        rewrite Hx; by vm_compute.
    - rewrite Qmult_0_l. apply Qle_refl. }
  apply Qabs_Qle_condition in Hzero. lra.
Qed.

Lemma reported_priority_is_objective_value_witness :
  (Qabs (inject_Z (total (SOMA_PRIORIDADES_EXECUTADAS
                            <$> grouped (reconciled ex_obras
                                           (marked ex_obras ex_solution))))
         - eval ex_solution (priority_objective ex_obras))
   <= (1 # 10000000)
      * inject_Z (total ((λ k, Z.abs (w_of ex_obras k.1))
                           <$> x_domain ex_obras)))%Q
  ∧ ((∀ i j, (i, j) ∈ x_domain ex_obras →
             (ex_solution (x_var i j) == 0 ∨ ex_solution (x_var i j) == 1)%Q) →
     (inject_Z (total (SOMA_PRIORIDADES_EXECUTADAS
                         <$> grouped (reconciled ex_obras
                                        (marked ex_obras ex_solution))))
      == eval ex_solution (priority_objective ex_obras))%Q).
Proof.
  apply (reported_priority_is_objective_value ex_obras ex_solution
           (1 # 10000000)).
  - intros (r1 & r2 & Hr1 & Hr2 & Hi & Hne).
    repeat (apply elem_of_cons in Hr1 as [->|Hr1]);
      try (by apply elem_of_nil in Hr1);
      repeat (apply elem_of_cons in Hr2 as [->|Hr2]);
      try (by apply elem_of_nil in Hr2); by cbn in *.
  - by vm_compute.
  - by vm_compute.
  - intros i j Hij. vm_compute in Hij.
    repeat (apply elem_of_cons in Hij as [[= -> ->]|Hij];
            [(by left; vm_compute) || (by right; vm_compute)|]).
    by apply elem_of_nil in Hij.
Defined.

(** * The priorities and the counts of [define_parameters] *)

(** X19.  [w] has an entry exactly for the tasks of [I]; the entry of a task
    is the priority of one of the rows of the task; and a task whose rows
    all carry one priority gets that priority. *)
Theorem w_is_a_priority_of_the_task estoque obras i :
  (is_Some (params.w (define_parameters estoque obras) !! i)
   ↔ i ∈ sets.I (define_sets estoque obras))
  ∧ (∀ wi, params.w (define_parameters estoque obras) !! i = Some wi →
           ∃ r, r ∈ obras ∧ obra r = i ∧ prioridade r = wi)
  ∧ (∀ wi, (∀ r, r ∈ obras → obra r = i → prioridade r = wi) →
           i ∈ sets.I (define_sets estoque obras) →
           params.w (define_parameters estoque obras) !! i = Some wi).
Proof.
  rewrite lookup_w, elem_of_sets_I.
  split; [|split].
  - split.
    + intros [wi Hwi]. destruct (w_row obras i) as [r|] eqn:Hrow; [|done].
      unfold w_row in Hrow.
      apply last_Some_elem_of, list_elem_of_filter in Hrow as [<- Hr].
      apply list_elem_of_fmap_2. by eapply drop_duplicates_subseteq.
    + intros Hi. destruct (w_row_Some obras i Hi) as (r & -> & _). by eexists.
  - intros wi Hwi. destruct (w_row obras i) as [r|] eqn:Hrow; [|done].
    injection Hwi as <-. exists r. unfold w_row in Hrow.
    apply last_Some_elem_of, list_elem_of_filter in Hrow as [Hi Hr].
    split; [by eapply drop_duplicates_subseteq|done].
  - intros wi Hall Hi. apply elem_of_sets_I in Hi.
    destruct (w_row_Some obras i Hi) as (r & -> & Hr & Hobra).
    simpl. f_equal. by apply Hall.
Qed.

Lemma size_groupby_agg {R K V} `{Countable K} (key : R → K)
    (agg : list R → V) (rows : list R) :
  size (groupby_agg key agg rows) = length (unique (key <$> rows)).
Proof.
  unfold groupby_agg. rewrite map_size_list_to_map, length_fmap; [done|].
  rewrite <- list_fmap_compose.
  rewrite (list_fmap_ext _ id _ (λ _ _ _, eq_refl)), list_fmap_id.
  apply NoDup_unique.
Qed.

Lemma unique_key_of_drop_duplicates {R K K'} `{EqDecision K, EqDecision K'}
    (key : R → K) (g : R → K') (l : list R) :
  (∀ a b, key a = key b → g a = g b) →
  unique (g <$> drop_duplicates key l) = unique (g <$> l).
Proof.
  intros Hg. rewrite !unique_as_drop_duplicates.
  by rewrite (drop_duplicates_coarser key g).
Qed.

(** X20.  The counts [N] and [D] are the numbers of entries of the derived
    mappings: [N] is the size of [I], of [J_i] and of [M_i]; [D] is the size
    of [I_j], the sites of the task table.  When every site of the stock
    relation has a task row, [D] is at least the size of [J]. *)
Theorem N_and_D_count_entries estoque obras :
  params.N (define_parameters estoque obras)
  = length (sets.I (define_sets estoque obras))
  ∧ params.N (define_parameters estoque obras)
    = size (sets.J_i (define_sets estoque obras))
  ∧ params.N (define_parameters estoque obras)
    = size (sets.M_i (define_sets estoque obras))
  ∧ params.D (define_parameters estoque obras)
    = size (sets.I_j (define_sets estoque obras))
  ∧ (sites_covered estoque obras →
     (length (sets.J (define_sets estoque obras))
      ≤ params.D (define_parameters estoque obras))%nat).
Proof.
  unfold define_parameters, define_sets.
  cbn [params.N params.D sets.I sets.J sets.J_i sets.I_j sets.M_i].
  rewrite !size_groupby_agg.
  rewrite (unique_key_of_drop_duplicates (λ r, (obra r, cod_dep r)) obra)
    by (by intros a b [= -> _]).
  rewrite (unique_key_of_drop_duplicates (λ r, (obra r, cod_mat r)) obra)
    by (by intros a b [= -> _]).
  rewrite (unique_key_of_drop_duplicates (λ r, (obra r, cod_dep r)) cod_dep)
    by (by intros a b [= _ ->]).
  split; [done|]. split; [done|]. split; [done|]. split; [done|].
  intros Hcov. apply submseteq_length, NoDup_submseteq; [apply NoDup_unique|].
  intros j Hj. rewrite elem_of_unique in Hj |- *. by apply Hcov.
Qed.
